(** * clean_data.py: a shallow embedding and its verified properties

    The program normalises the columns of a customer table: city names are
    clustered by a letters-only signature and merged by approximate string
    matching; e-mail addresses, phone numbers, dates and amounts are parsed
    and re-formatted value by value.

    Python strings are sequences of Unicode code points, modelled as
    [list N].  The functions of the Python runtime that depend on the Unicode
    character database are collected in the record [unicode]; every general
    theorem holds for an arbitrary such record.  The instance [latin1] is
    exact on strings over U+0000..U+00FF and is used to evaluate examples. *)

From Stdlib Require Import String Ascii.
From Stdlib Require Import List NArith ZArith QArith Arith Bool Lia.
From Stdlib Require Import Permutation.
Import ListNotations.
Local Open Scope nat_scope.

(** ** Strings *)

Definition char := N.
Definition str := list char.

(** A string literal of the development, read as its code points. *)
Definition py (s : string) : str := map N_of_ascii (list_ascii_of_string s).

Fixpoint str_eqb (a b : str) : bool :=
  match a, b with
  | [], [] => true
  | x :: a', y :: b' => N.eqb x y && str_eqb a' b'
  | _, _ => false
  end.

(** Python orders strings lexicographically by code point. *)
Fixpoint str_ltb (a b : str) : bool :=
  match a, b with
  | _, [] => false
  | [], _ :: _ => true
  | x :: a', y :: b' => N.ltb x y || (N.eqb x y && str_ltb a' b')
  end.

Definition nonempty {A} (l : list A) : bool :=
  match l with [] => false | _ :: _ => true end.

Fixpoint startswith (p s : str) : bool :=
  match p, s with
  | [], _ => true
  | x :: p', y :: s' => N.eqb x y && startswith p' s'
  | _ :: _, [] => false
  end.

Definition endswith (p s : str) : bool := startswith (rev p) (rev s).

(** [needle in hay] *)
Fixpoint contains (needle hay : str) : bool :=
  match hay with
  | [] => startswith needle []
  | _ :: h => startswith needle hay || contains needle h
  end.

Fixpoint lstrip_by (p : char -> bool) (s : str) : str :=
  match s with
  | c :: s' => if p c then lstrip_by p s' else s
  | [] => []
  end.

Definition rstrip_by (p : char -> bool) (s : str) : str :=
  rev (lstrip_by p (rev s)).

Definition strip_by (p : char -> bool) (s : str) : str :=
  rstrip_by p (lstrip_by p s).

Definition in_range (lo hi c : N) : bool := (N.leb lo c && N.leb c hi)%bool.

(** The ASCII classes the regular expressions of the program spell out. *)
Definition is_az (c : char) : bool := in_range 97 122 c.
Definition is_AZ (c : char) : bool := in_range 65 90 c.
Definition is_09 (c : char) : bool := in_range 48 57 c.
Definition is_alpha (c : char) : bool := is_az c || is_AZ c.
Definition is_alnum (c : char) : bool := is_alpha c || is_09 c.
Definition is_one_of (s : string) (c : char) : bool :=
  existsb (N.eqb c) (py s).

(** [re.sub] of a pattern [[class]{min,}] (greedy, [1 <= min]): every maximal
    run of class characters of length at least [min] is replaced by [rep];
    shorter runs are copied.  [run] holds the pending run, reversed. *)
Definition flush_run (min : nat) (rep run : str) : str :=
  match run with
  | [] => []
  | _ :: _ => if min <=? length run then rep else rev run
  end.

Fixpoint re_sub_runs (p : char -> bool) (min : nat) (rep : str)
    (s : str) (run : str) : str :=
  match s with
  | [] => flush_run min rep run
  | c :: s' =>
      if p c then re_sub_runs p min rep s' (c :: run)
      else flush_run min rep run ++ c :: re_sub_runs p min rep s' []
  end.

(** ** Python results: a value, an exception, or a loop that has not
    finished within the fuel given to it *)

Inductive exn := KeyError | IndexError | ValueError | AttributeError.

Inductive result (A : Type) :=
| Ok (a : A)
| Raise (e : exn)
| OutOfFuel.
Arguments Ok {A} a.
Arguments Raise {A} e.
Arguments OutOfFuel {A}.

Definition bind {A B} (c : result A) (k : A -> result B) : result B :=
  match c with
  | Ok a => k a
  | Raise e => Raise e
  | OutOfFuel => OutOfFuel
  end.

Notation "x <- c ;; k" := (bind c (fun x => k))
  (at level 61, c at next level, right associativity).

Fixpoint mapM {A B} (f : A -> result B) (l : list A) : result (list B) :=
  match l with
  | [] => Ok []
  | x :: l' => y <- f x ;; ys <- mapM f l' ;; Ok (y :: ys)
  end.

Fixpoint filterM {A} (f : A -> result bool) (l : list A) : result (list A) :=
  match l with
  | [] => Ok []
  | x :: l' =>
      b <- f x ;; ys <- filterM f l' ;; Ok (if b then x :: ys else ys)
  end.

Fixpoint foldM {A S} (f : S -> A -> result S) (l : list A) (s : S)
    : result S :=
  match l with
  | [] => Ok s
  | x :: l' => s' <- f s x ;; foldM f l' s'
  end.

(** ** Dictionaries keyed by strings

    A Python dict iterates in insertion order, and the program relies on it
    (cluster order, [Counter] ties), so a dict is an association list in
    insertion order with at most one entry per key. *)

Definition dict (V : Type) := list (str * V).

Fixpoint dict_get {V} (d : dict V) (k : str) : option V :=
  match d with
  | [] => None
  | (k', v) :: d' => if str_eqb k' k then Some v else dict_get d' k
  end.

(** [d[k]] *)
Definition dict_item {V} (d : dict V) (k : str) : result V :=
  match dict_get d k with Some v => Ok v | None => Raise KeyError end.

(** [k in d] *)
Definition dict_mem {V} (d : dict V) (k : str) : bool :=
  match dict_get d k with Some _ => true | None => false end.

(** The update of one entry, shared by the three ways the program writes to
    a dict: the value becomes [f] of the old one, and a new key is put last.
    An existing key keeps its place. *)
Fixpoint dict_upsert {V} (f : option V -> V) (d : dict V) (k : str) : dict V :=
  match d with
  | [] => [(k, f None)]
  | (k', v) :: d' =>
      if str_eqb k' k then (k', f (Some v)) :: d'
      else (k', v) :: dict_upsert f d' k
  end.

(** [d[k] = v] *)
Definition dict_set {V} (d : dict V) (k : str) (v : V) : dict V :=
  dict_upsert (fun _ => v) d k.

(** [d.setdefault(k, []).append(x)] *)
Definition dict_append {V} (d : dict (list V)) (k : str) (x : V)
    : dict (list V) :=
  dict_upsert (fun o => match o with Some l => l ++ [x] | None => [x] end) d k.

Definition keys {V} (d : dict V) : list str := map fst d.

(** ** Sorting and maxima as Python computes them *)

(** [sorted(l, key=..., reverse=True)] on decorated items: a stable sort,
    items with equal keys keep their order. *)
Fixpoint insert_desc {A} (x : A * nat) (l : list (A * nat)) : list (A * nat) :=
  match l with
  | [] => [x]
  | y :: l' => if snd y <=? snd x then x :: l else y :: insert_desc x l'
  end.

Definition sorted_desc {A} (l : list (A * nat)) : list (A * nat) :=
  fold_right insert_desc [] l.

(** [max(it)]: the first of the maximal items. *)
Fixpoint max_from {A} (gt : A -> A -> bool) (best : A) (l : list A) : A :=
  match l with
  | [] => best
  | x :: l' => max_from gt (if gt x best then x else best) l'
  end.

Definition py_max {A} (gt : A -> A -> bool) (l : list A) : option A :=
  match l with
  | [] => None
  | x :: l' => Some (max_from gt x l')
  end.

(** ** The Unicode character database, as far as the program consults it *)

Record unicode := {
  normalize_NFKD : str -> str;   (* unicodedata.normalize("NFKD", s) *)
  combining : char -> bool;      (* unicodedata.combining(ch) != 0 *)
  lower : str -> str;            (* str.lower *)
  title : str -> str;            (* str.title *)
  isspace : char -> bool;        (* str.strip, \s *)
  isdecimal : char -> bool;      (* \d *)
  ieq : char -> char -> bool     (* equality of characters under re.I *)
}.

Definition strip (U : unicode) (s : str) : str := strip_by (isspace U) s.

(** ** helpers *)

Definition encode_latin1 (x : str) : option (list N) :=
  if forallb (fun c => N.leb c 255) x then Some x else None.

Definition is_cont (b : N) : bool := in_range 128 191 b.

(** [bytes.decode("utf-8")], strict. *)
Fixpoint decode_utf8 (bs : list N) : option str :=
  match bs with
  | [] => Some []
  | b0 :: r0 =>
      if N.ltb b0 128 then option_map (cons b0) (decode_utf8 r0)
      else match r0 with
      | [] => None
      | b1 :: r1 =>
          if in_range 194 223 b0 then
            if is_cont b1
            then option_map (cons ((b0 - 192) * 64 + (b1 - 128))%N)
                            (decode_utf8 r1)
            else None
          else match r1 with
          | [] => None
          | b2 :: r2 =>
              if in_range 224 239 b0 then
                if in_range (if N.eqb b0 224 then 160 else 128)
                            (if N.eqb b0 237 then 159 else 191) b1
                   && is_cont b2
                then option_map
                       (cons ((b0 - 224) * 4096 + (b1 - 128) * 64
                              + (b2 - 128))%N)
                       (decode_utf8 r2)
                else None
              else match r2 with
              | [] => None
              | b3 :: r3 =>
                  if in_range 240 244 b0
                     && in_range (if N.eqb b0 240 then 144 else 128)
                                 (if N.eqb b0 244 then 143 else 191) b1
                     && is_cont b2 && is_cont b3
                  then option_map
                         (cons ((b0 - 240) * 262144 + (b1 - 128) * 4096
                                + (b2 - 128) * 64 + (b3 - 128))%N)
                         (decode_utf8 r3)
                  else None
              end
          end
      end
  end.

(** The two markers the source spells out are U+00C3 U+0192 and
    U+00C3 U+201A. *)
Definition maybe_demojibake (x : str) : str :=
  if contains [195; 402]%N x || contains [195; 8218]%N x then
    match encode_latin1 x with
    | Some bs => match decode_utf8 bs with Some y => y | None => x end
    | None => x
    end
  else x.

Definition strip_accents (U : unicode) (text : str) : str :=
  filter (fun ch => negb (combining U ch)) (normalize_NFKD U text).

(** ** difflib (Python standard library), as [get_close_matches] uses it

    A ratio [2.0 * matches / length] is kept as the exact rational; the
    comparisons of the library are between correctly rounded doubles of such
    quotients and of the cutoff, and agree with the exact ones for sequences
    of any realistic length (the quotients differ from a cutoff [p/q] by at
    least [1 / (q * length)]). *)

Module difflib.

Definition index_list (b : str) (elt : char) : list nat :=
  map fst (filter (fun p => N.eqb (snd p) elt)
                  (combine (seq 0 (length b)) b)).

(** [__chain_b] with [isjunk = None] and [autojunk = True]: the indices at
    which [b] holds [elt], ascending; an element that fills more than
    [n // 100 + 1] places of a [b] of 200 or more is dropped. *)
Definition b2j (b : str) (elt : char) : list nat :=
  let idxs := index_list b elt in
  if (200 <=? length b) && (length b / 100 + 1 <? length idxs)
  then [] else idxs.

(** [bjunk] is empty. *)
Definition isbjunk (c : char) : bool := false.

Definition j2len_get (d : list (nat * nat)) (j : nat) : nat :=
  match find (fun p => fst p =? j) d with
  | Some p => snd p
  | None => 0
  end.

Definition triple := (nat * nat * nat)%type.

(** The loop over [j] for one [i]; [break] ends it. *)
Fixpoint scan_j (i blo bhi : nat) (j2len : list (nat * nat))
    (js : list nat) (newj2len : list (nat * nat)) (best : triple)
    : list (nat * nat) * triple :=
  match js with
  | [] => (newj2len, best)
  | j :: js' =>
      if j <? blo then scan_j i blo bhi j2len js' newj2len best
      else if bhi <=? j then (newj2len, best)
      else
        let k := (match j with 0 => 0 | S j' => j2len_get j2len j' end) + 1 in
        let best' :=
          let '(_, _, bestsize) := best in
          if bestsize <? k then (i + 1 - k, j + 1 - k, k) else best in
        scan_j i blo bhi j2len js' ((j, k) :: newj2len) best'
  end.

Fixpoint scan_i (a b : str) (blo bhi : nat) (idxs : list nat)
    (j2len : list (nat * nat)) (best : triple) : triple :=
  match idxs with
  | [] => best
  | i :: idxs' =>
      let '(newj2len, best') :=
        scan_j i blo bhi j2len (b2j b (nth i a 0%N)) [] best in
      scan_i a b blo bhi idxs' newj2len best'
  end.

(** The four [while] loops that extend the best block; [junk] selects
    between the loops over non-junk and over junk elements. *)
Fixpoint extend_left (n : nat) (a b : str) (alo blo : nat) (junk : bool)
    (m : triple) : triple :=
  match n with
  | 0 => m
  | S n' =>
      let '(besti, bestj, bestsize) := m in
      if (alo <? besti) && (blo <? bestj)
         && Bool.eqb (isbjunk (nth (bestj - 1) b 0%N)) junk
         && N.eqb (nth (besti - 1) a 0%N) (nth (bestj - 1) b 0%N)
      then extend_left n' a b alo blo junk
             (besti - 1, bestj - 1, bestsize + 1)
      else m
  end.

Fixpoint extend_right (n : nat) (a b : str) (ahi bhi : nat) (junk : bool)
    (m : triple) : triple :=
  match n with
  | 0 => m
  | S n' =>
      let '(besti, bestj, bestsize) := m in
      if (besti + bestsize <? ahi) && (bestj + bestsize <? bhi)
         && Bool.eqb (isbjunk (nth (bestj + bestsize) b 0%N)) junk
         && N.eqb (nth (besti + bestsize) a 0%N) (nth (bestj + bestsize) b 0%N)
      then extend_right n' a b ahi bhi junk (besti, bestj, bestsize + 1)
      else m
  end.

Definition find_longest_match (a b : str) (alo ahi blo bhi : nat) : triple :=
  let m := scan_i a b blo bhi (seq alo (ahi - alo)) [] (alo, blo, 0) in
  let n := length a in
  let m := extend_left n a b alo blo false m in
  let m := extend_right n a b ahi bhi false m in
  let m := extend_left n a b alo blo true m in
  extend_right n a b ahi bhi true m.

(** The queue loop of [get_matching_blocks]; [queue.pop()] takes the item
    appended last, the head here.  Every block found removes at least one
    element of [a] from the ranges still queued, so the loop runs at most
    [2 * len(a) + 1] times. *)
Fixpoint blocks_loop (n : nat) (a b : str)
    (queue : list (nat * nat * nat * nat)) (blocks : list triple)
    : list triple :=
  match n with
  | 0 => blocks
  | S n' =>
      match queue with
      | [] => blocks
      | (alo, ahi, blo, bhi) :: q =>
          let '(i, j, k) := find_longest_match a b alo ahi blo bhi in
          if k =? 0 then blocks_loop n' a b q blocks
          else
            let q := if (alo <? i) && (blo <? j)
                     then (alo, i, blo, j) :: q else q in
            let q := if (i + k <? ahi) && (j + k <? bhi)
                     then (i + k, ahi, j + k, bhi) :: q else q in
            blocks_loop n' a b q (blocks ++ [(i, j, k)])
      end
  end.

Definition get_matching_blocks (a b : str) : list triple :=
  blocks_loop (2 * length a + 2) a b [(0, length a, 0, length b)] [].

Definition _calculate_ratio (matches len : nat) : Q :=
  if len =? 0 then 1%Q
  else (Z.of_nat (2 * matches) # Pos.of_nat len)%Q.

Definition ratio (a b : str) : Q :=
  let matches :=
    fold_left (fun s t => s + snd t) (get_matching_blocks a b) 0 in
  _calculate_ratio matches (length a + length b).

Definition count_of (b : str) (elt : char) : Z :=
  Z.of_nat (length (filter (N.eqb elt) b)).

Definition avail_get (d : list (char * Z)) (elt : char) : option Z :=
  option_map snd (find (fun p => N.eqb (fst p) elt) d).

Fixpoint quick_loop (b a : str) (avail : list (char * Z)) (matches : nat)
    : nat :=
  match a with
  | [] => matches
  | elt :: a' =>
      let numb := match avail_get avail elt with
                  | Some n => n
                  | None => count_of b elt
                  end in
      quick_loop b a' ((elt, (numb - 1)%Z) :: avail)
                 (if (0 <? numb)%Z then matches + 1 else matches)
  end.

Definition quick_ratio (a b : str) : Q :=
  _calculate_ratio (quick_loop b a [] 0) (length a + length b).

Definition real_quick_ratio (a b : str) : Q :=
  _calculate_ratio (Nat.min (length a) (length b)) (length a + length b).

(** Tuples [(score, x)] compare by score, then by string. *)
Definition scored_gt (p q : Q * str) : bool :=
  negb (Qle_bool (fst p) (fst q))
  || (Qeq_bool (fst p) (fst q) && str_ltb (snd q) (snd p)).

Fixpoint insert_scored (x : Q * str) (l : list (Q * str))
    : list (Q * str) :=
  match l with
  | [] => [x]
  | y :: l' => if scored_gt y x then y :: insert_scored x l' else x :: l
  end.

(** [heapq.nlargest(n, result)]: [max] when [n = 1], else the first [n] of
    the items in descending order. *)
Definition nlargest (n : nat) (l : list (Q * str)) : list (Q * str) :=
  match n with
  | 1 => match py_max scored_gt l with Some x => [x] | None => [] end
  | _ => firstn n (fold_right insert_scored [] l)
  end.

Definition get_close_matches (word : str) (possibilities : list str)
    (n : nat) (cutoff : Q) : result (list str) :=
  if negb (0 <? n) then Raise ValueError
  else if negb (Qle_bool 0 cutoff && Qle_bool cutoff 1) then Raise ValueError
  else
    let result :=
      flat_map (fun x =>
        if Qle_bool cutoff (real_quick_ratio x word)
           && Qle_bool cutoff (quick_ratio x word)
           && Qle_bool cutoff (ratio x word)
        then [(ratio x word, x)] else []) possibilities in
    Ok (map snd (nlargest n result)).

End difflib.

(** ** city *)

Definition _basic_city_clean (U : unicode) (x : str) : str :=
  let x := strip U (lower U (strip_accents U x)) in
  let x := re_sub_runs (is_one_of "_-.,/") 1 (py " ") x [] in
  re_sub_runs (isspace U) 2 (py " ") x [].

Definition _letters_only_signature (x : str) : str := filter is_az x.

(** [Counter(cands)]: the distinct values in order of first occurrence, each
    with the number of its occurrences ([self[elem] = self.get(elem, 0) + 1]
    for every element). *)
Definition counter_add (d : dict nat) (k : str) : dict nat :=
  dict_upsert (fun o => match o with Some n => n | None => 0 end + 1) d k.

Definition Counter (cands : list str) : dict nat :=
  fold_left counter_add cands [].

(** [most_common(1)] is [heapq.nlargest(1, items, key=count)], the first item
    of the largest count. *)
Definition most_common_1 (c : dict nat) : list (str * nat) :=
  match py_max (fun p q => snd q <? snd p) c with
  | Some x => [x]
  | None => []
  end.

Definition _choose_display_form (U : unicode) (cands : list str)
    : result str :=
  match most_common_1 (Counter cands) with
  | [] => Raise IndexError
  | (top, _) :: _ => Ok (if existsb is_AZ top then top else title U top)
  end.

(** A cell of a column: a string, or one of the missing values of pandas. *)
Inductive cell := Text (s : str) | NaN | NA | PyNone.

(** [series.fillna("")] *)
Definition fillna_empty (c : cell) : cell :=
  match c with Text s => Text s | _ => Text [] end.

(** [astype(str)] *)
Definition astype_str (c : cell) : str :=
  match c with
  | Text s => s
  | NaN => py "nan"
  | NA => py "<NA>"
  | PyNone => py "None"
  end.

Record row := { raw : str; basic : str; sig : str }.

(** One row of [tmp]. *)
Definition city_row (U : unicode) (c : cell) : row :=
  let s_trim := strip U (maybe_demojibake (astype_str (fillna_empty c))) in
  let s_basic := _basic_city_clean U s_trim in
  {| raw := s_trim; basic := s_basic;
     sig := _letters_only_signature s_basic |}.

Definition city_rows (U : unicode) (series : list cell) : list row :=
  map (city_row U) series.

Definition city_groups (tmp : list row) : dict (list str) :=
  fold_left (fun groups r =>
               if nonempty (basic r) then dict_append groups (sig r) (raw r)
               else groups) tmp [].

Definition city_ordered (sizes : dict nat) : result (list str) :=
  decorated <- mapM (fun k => n <- dict_item sizes k ;; Ok (k, n)) (keys sizes) ;;
  Ok (map fst (sorted_desc decorated)).

Definition city_merged (sizes : dict nat) (ordered : list str) (cutoff : Q)
    : result (dict str) :=
  foldM (fun merged small =>
           anchors <- filterM (fun s =>
                        ns <- dict_item sizes s ;;
                        nsmall <- dict_item sizes small ;;
                        Ok ((nsmall <=? ns) && negb (str_eqb s small)))
                      ordered ;;
           m <- difflib.get_close_matches small anchors 1 cutoff ;;
           Ok (match m with
               | m0 :: _ => dict_set merged small m0
               | [] => merged
               end))
        (rev ordered) [].

(** [root]: the [while] loop follows the merge edges; every turn of the loop
    spends one unit of fuel. *)
Fixpoint root (fuel : nat) (merged : dict str) (sig : str) : result str :=
  match fuel with
  | 0 => OutOfFuel
  | S fuel' =>
      match dict_get merged sig with
      | Some next => root fuel' merged next
      | None => Ok sig
      end
  end.

Definition city_final_disp (fuel : nat) (merged sig_to_disp : dict str)
    : result (dict str) :=
  mapM (fun sig =>
          r <- root fuel merged sig ;;
          dflt <- dict_item sig_to_disp sig ;;
          Ok (sig, match dict_get sig_to_disp r with
                   | Some d => d
                   | None => dflt
                   end))
       (keys sig_to_disp).

Definition city_mapping (tmp : list row) (final_disp : dict str)
    : result (dict str) :=
  foldM (fun mapping r =>
           if nonempty (basic r) then
             d <- dict_item final_disp (sig r) ;;
             Ok (dict_set mapping (raw r) d)
           else Ok mapping) tmp [].

Definition build_city_canon (U : unicode) (fuel : nat) (series : list cell)
    (fuzzy_cutoff : Q) : result (dict str) :=
  let tmp := city_rows U series in
  let groups := city_groups tmp in
  sig_to_disp <- mapM (fun g => d <- _choose_display_form U (snd g) ;;
                                Ok (fst g, d)) groups ;;
  let sizes := map (fun g => (fst g, length (snd g))) groups in
  ordered <- city_ordered sizes ;;
  merged <- city_merged sizes ordered fuzzy_cutoff ;;
  final_disp <- city_final_disp fuel merged sig_to_disp ;;
  city_mapping tmp final_disp.

Definition default_cutoff : Q := (92 # 100)%Q.

Definition clean_city (U : unicode) (fuel : nat) (s : list cell)
    : result (list cell) :=
  m <- build_city_canon U fuel s default_cutoff ;;
  let out := map (fun c =>
                    let v := strip U (maybe_demojibake (astype_str c)) in
                    if nonempty v then Text v else NA) s in
  Ok (map (fun c => match c with
                    | Text v => Text (match dict_get m v with
                                      | Some d => d
                                      | None => v
                                      end)
                    | other => other
                    end) out).

(** What [build_city_canon] has computed when it reaches the definition of
    [root]: the rows, the display form of every cluster and the merge edges.
    It is stated apart to name the merge structure of a column. *)
Definition city_plan (U : unicode) (series : list cell) (fuzzy_cutoff : Q)
    : result (list row * dict str * dict str) :=
  let tmp := city_rows U series in
  let groups := city_groups tmp in
  sig_to_disp <- mapM (fun g => d <- _choose_display_form U (snd g) ;;
                                Ok (fst g, d)) groups ;;
  let sizes := map (fun g => (fst g, length (snd g))) groups in
  ordered <- city_ordered sizes ;;
  merged <- city_merged sizes ordered fuzzy_cutoff ;;
  Ok (tmp, sig_to_disp, merged).

Definition city_merge_edges (U : unicode) (series : list cell)
    (fuzzy_cutoff : Q) : result (dict str) :=
  p <- city_plan U series fuzzy_cutoff ;; Ok (snd p).

(** ** The character database on U+0000..U+00FF

    Exact for every string over the first 256 code points (and for what the
    functions make of such strings); outside that range the tables default to
    the identity.  Used to evaluate the model on concrete inputs only. *)

Module Latin1.

Definition nfkd_char (c : char) : str :=
  match c with
  | 160 => [32]
  | 168 => [32; 776]
  | 170 => [97]
  | 175 => [32; 772]
  | 178 => [50]
  | 179 => [51]
  | 180 => [32; 769]
  | 181 => [956]
  | 184 => [32; 807]
  | 185 => [49]
  | 186 => [111]
  | 188 => [49; 8260; 52]
  | 189 => [49; 8260; 50]
  | 190 => [51; 8260; 52]
  | 192 => [65; 768]
  | 193 => [65; 769]
  | 194 => [65; 770]
  | 195 => [65; 771]
  | 196 => [65; 776]
  | 197 => [65; 778]
  | 199 => [67; 807]
  | 200 => [69; 768]
  | 201 => [69; 769]
  | 202 => [69; 770]
  | 203 => [69; 776]
  | 204 => [73; 768]
  | 205 => [73; 769]
  | 206 => [73; 770]
  | 207 => [73; 776]
  | 209 => [78; 771]
  | 210 => [79; 768]
  | 211 => [79; 769]
  | 212 => [79; 770]
  | 213 => [79; 771]
  | 214 => [79; 776]
  | 217 => [85; 768]
  | 218 => [85; 769]
  | 219 => [85; 770]
  | 220 => [85; 776]
  | 221 => [89; 769]
  | 224 => [97; 768]
  | 225 => [97; 769]
  | 226 => [97; 770]
  | 227 => [97; 771]
  | 228 => [97; 776]
  | 229 => [97; 778]
  | 231 => [99; 807]
  | 232 => [101; 768]
  | 233 => [101; 769]
  | 234 => [101; 770]
  | 235 => [101; 776]
  | 236 => [105; 768]
  | 237 => [105; 769]
  | 238 => [105; 770]
  | 239 => [105; 776]
  | 241 => [110; 771]
  | 242 => [111; 768]
  | 243 => [111; 769]
  | 244 => [111; 770]
  | 245 => [111; 771]
  | 246 => [111; 776]
  | 249 => [117; 768]
  | 250 => [117; 769]
  | 251 => [117; 770]
  | 252 => [117; 776]
  | 253 => [121; 769]
  | 255 => [121; 776]
  | _ => [c]
  end%N.

Definition is_combining (c : char) : bool :=
  in_range 768 879 c && negb (N.eqb c 847).

Definition lower_char (c : char) : char :=
  if is_AZ c || (in_range 192 222 c && negb (N.eqb c 215))
  then (c + 32)%N else c.

Definition title_char (c : char) : str :=
  if is_az c || (in_range 224 254 c && negb (N.eqb c 247))
  then [(c - 32)%N]
  else if N.eqb c 223 then [83; 115]%N
  else if N.eqb c 255 then [376]%N
  else if N.eqb c 181 then [924]%N
  else [c].

Definition is_cased (c : char) : bool :=
  is_alpha c || N.eqb c 170 || N.eqb c 181 || N.eqb c 186
  || (in_range 192 255 c && negb (N.eqb c 215) && negb (N.eqb c 247)).

Fixpoint title_loop (previous_is_cased : bool) (s : str) : str :=
  match s with
  | [] => []
  | c :: s' =>
      (if previous_is_cased then [lower_char c] else title_char c)
      ++ title_loop (is_cased c) s'
  end.

Definition is_space (c : char) : bool :=
  in_range 9 13 c || in_range 28 32 c || N.eqb c 133 || N.eqb c 160.

End Latin1.

Definition latin1 : unicode :=
  {| normalize_NFKD := flat_map Latin1.nfkd_char;
     combining := Latin1.is_combining;
     lower := map Latin1.lower_char;
     title := Latin1.title_loop false;
     isspace := Latin1.is_space;
     isdecimal := is_09;
     ieq := fun x p => N.eqb (Latin1.lower_char x) (Latin1.lower_char p) |}.

(** ** Regular expressions ([re]), where the program only asks whether a
    pattern matches

    Whether a backtracking matcher finds a match does not depend on the order
    in which it explores the alternatives, so a pattern is modelled by its
    language and matched by derivatives. *)

Module re.

Inductive regex :=
| Empty
| Eps
| Chr (p : char -> bool)
| Cat (r s : regex)
| Alt (r s : regex)
| Star (r : regex).

Fixpoint nullable (r : regex) : bool :=
  match r with
  | Empty => false
  | Eps => true
  | Chr _ => false
  | Cat r s => nullable r && nullable s
  | Alt r s => nullable r || nullable s
  | Star _ => true
  end.

Fixpoint deriv (c : char) (r : regex) : regex :=
  match r with
  | Empty => Empty
  | Eps => Empty
  | Chr p => if p c then Eps else Empty
  | Cat r s =>
      if nullable r then Alt (Cat (deriv c r) s) (deriv c s)
      else Cat (deriv c r) s
  | Alt r s => Alt (deriv c r) (deriv c s)
  | Star r => Cat (deriv c r) (Star r)
  end.

(** The whole of [s] matches [r]. *)
Fixpoint fullmatch (r : regex) (s : str) : bool :=
  match s with
  | [] => nullable r
  | c :: s' => fullmatch (deriv c r) s'
  end.

Definition Any : regex := Chr (fun _ => true).
Definition Plus (r : regex) : regex := Cat r (Star r).
Definition Opt (r : regex) : regex := Alt r Eps.

(** [r{n,}] and [r{lo,hi}] *)
Fixpoint AtLeast (n : nat) (r : regex) : regex :=
  match n with 0 => Star r | S n' => Cat r (AtLeast n' r) end.
Fixpoint UpTo (n : nat) (r : regex) : regex :=
  match n with 0 => Eps | S n' => Opt (Cat r (UpTo n' r)) end.
Fixpoint Between (lo hi : nat) (r : regex) : regex :=
  match lo with
  | 0 => UpTo hi r
  | S lo' => Cat r (Between lo' (hi - 1) r)
  end.

(** A literal, under a given equality of characters. *)
Fixpoint Lit (eq : char -> char -> bool) (s : str) : regex :=
  match s with
  | [] => Eps
  | c :: s' => Cat (Chr (fun x => eq x c)) (Lit eq s')
  end.

(** [re.match]: some prefix of [s] matches; [re.search]: some substring. *)
Definition match_prefix (r : regex) (s : str) : bool :=
  fullmatch (Cat r (Star Any)) s.
Definition search (r : regex) (s : str) : bool :=
  fullmatch (Cat (Star Any) (Cat r (Star Any))) s.

(** [$] (without [re.M]): the end of the string, or just before a newline
    that ends it. *)
Definition Dollar : regex := Opt (Chr (N.eqb 10)).

End re.

(** ** email *)

Definition email_local_class (c : char) : bool :=
  is_alnum c || is_one_of "._%+-" c.
Definition email_domain_class (c : char) : bool :=
  is_alnum c || is_one_of "-" c.
Definition is_dot (c : char) : bool := N.eqb c 46.
Definition is_at (c : char) : bool := N.eqb c 64.

(** [EMAIL_RE] after its look-ahead; the [$] that ends it lets a final
    newline follow the match. *)
Definition EMAIL_BODY : re.regex :=
  re.Cat (re.Plus (re.Chr email_local_class))
    (re.Cat (re.Chr is_at)
       (re.Cat (re.Plus (re.Cat (re.Plus (re.Chr email_domain_class))
                                (re.Chr is_dot)))
          (re.Cat (re.AtLeast 2 (re.Chr is_alpha)) re.Dollar))).

(** [(?!.*\.\.)] at the start: no two dots in a row before the first
    newline. *)
Definition EMAIL_LOOKAHEAD : re.regex :=
  re.Cat (re.Star (re.Chr (fun c => negb (N.eqb c 10))))
         (re.Cat (re.Chr is_dot) (re.Chr is_dot)).

Definition EMAIL_RE_match (t : str) : bool :=
  negb (re.match_prefix EMAIL_LOOKAHEAD t) && re.fullmatch EMAIL_BODY t.

(** [re.sub(r"\s*@\s*", "@", t)]: every [@] swallows the white space next to
    it.  [run] is a pending run of white space, reversed; [after_at] says
    that the scan is inside the trailing [\s*] of a match. *)
Fixpoint re_sub_at (sp : char -> bool) (s : str) (run : str) (after_at : bool)
    : str :=
  match s with
  | [] => rev run
  | c :: s' =>
      if is_at c then c :: re_sub_at sp s' [] true
      else if sp c then
        if after_at then re_sub_at sp s' [] true
        else re_sub_at sp s' (c :: run) false
      else rev run ++ c :: re_sub_at sp s' [] false
  end.

(** [str.split(sep, 1)] on a one-character separator *)
Fixpoint split1 (sep : char) (s : str) : str * option str :=
  match s with
  | [] => ([], None)
  | c :: s' =>
      if N.eqb c sep then ([], Some s')
      else let '(a, b) := split1 sep s' in (c :: a, b)
  end.

Definition email_text (U : unicode) (c : cell) : str :=
  let t := strip U (maybe_demojibake (astype_str c)) in
  let t := re_sub_at (isspace U) t [] false in
  lower U (filter (fun c => negb (N.eqb c 32)) t).

Definition email_keep (t : str) : bool :=
  let ok := EMAIL_RE_match t in
  let '(p0, p1) := split1 64%N t in
  let bad :=
    startswith (py ".") p0 || endswith (py ".") p0
    || match p1 with
       | Some d => startswith (py ".") d || endswith (py ".") d
       | None => false
       end in
  ok && negb bad.

(** [parts = t.str.split("@", n=1, expand=True)] has as many columns as the
    longest split: none for an empty column, a single one when no value holds
    an [@]; [parts[0]] and [parts[1]] then raise [KeyError]. *)
Definition clean_email (U : unicode) (s : list cell) : result (list cell) :=
  let t := map (email_text U) s in
  if nonempty t && existsb (existsb is_at) t then
    Ok (map (fun v => if email_keep v then Text v else NA) t)
  else Raise KeyError.

(** ** phone *)

Definition COUNTRY_DIAL : dict str :=
  [ (py "Sweden", py "+46"); (py "Germany", py "+49"); (py "France", py "+33");
    (py "Italy", py "+39"); (py "USA", py "+1"); (py "Japan", py "+81");
    (py "Thailand", py "+66"); (py "Brazil", py "+55");
    (py "Switzerland", py "+41"); (py "South Africa", py "+27") ].

Definition is_plus (c : char) : bool := N.eqb c 43.

(** [v.split(sep)[-1]] *)
Fixpoint take_until (sep : char -> bool) (l : str) : str :=
  match l with
  | [] => []
  | c :: l' => if sep c then [] else c :: take_until sep l'
  end.

Definition after_last (sep : char -> bool) (v : str) : str :=
  rev (take_until sep (rev v)).

(** The normalisation of the phone column before [fmt]. *)
Definition phone_normalize (U : unicode) (c : cell) : str :=
  let p := strip U (maybe_demojibake (astype_str c)) in
  let p := filter (fun c => negb (isspace U c || is_one_of "()-./" c)) p in
  let p := if startswith (py "00") p then py "+" ++ skipn 2 p else p in
  let p := filter (fun c => isdecimal U c || is_plus c) p in
  if length (filter is_plus p) <=? 1 then p
  else py "+" ++ filter (isdecimal U) (after_last is_plus p).

(** [re.match(r"^(\d{1,3})(\d+)$", digits)]: the first group is greedy and
    gives back one digit at a time until the second finds one. *)
Definition phone_groups_at (U : unicode) (digits : str) (k : nat)
    : option (str * str) :=
  let g1 := firstn k digits in
  let r := skipn k digits in
  let g2 := rev (lstrip_by (fun c => negb (isdecimal U c)) (rev r)) in
  let tail := skipn (length g2) r in
  if (length g1 =? k) && forallb (isdecimal U) g1
     && nonempty g2 && forallb (isdecimal U) g2
     && (str_eqb tail [] || str_eqb tail [10%N])
  then Some (g1, g2) else None.

Definition phone_groups (U : unicode) (digits : str) : option (str * str) :=
  match phone_groups_at U digits 3 with
  | Some g => Some g
  | None =>
      match phone_groups_at U digits 2 with
      | Some g => Some g
      | None => phone_groups_at U digits 1
      end
  end.

Definition phone_fmt (U : unicode) (raw : str) (cntry : cell) : cell :=
  if negb (nonempty raw) then NA
  else
    let s := raw in
    let code := dict_get COUNTRY_DIAL (astype_str cntry) in
    let digits := filter (isdecimal U) s in
    match code with
    | Some (c0 :: code') =>
        let cc := lstrip_by is_plus (c0 :: code') in
        let rest := if startswith cc digits then skipn (length cc) digits
                    else digits in
        if negb (nonempty rest) then NA
        else Text (py "(+" ++ cc ++ py ") " ++ rest)
    | _ =>
        match phone_groups U digits with
        | Some (g1, g2) => Text (py "(+" ++ g1 ++ py ") " ++ g2)
        | None => Text s
        end
    end.

(** One record of [clean_phone]: the phone cell and the country cell. *)
Definition clean_phone_value (U : unicode) (phone cntry : cell) : cell :=
  match phone_fmt U (phone_normalize U phone) cntry with
  | Text cleaned =>
      let n := length (filter (isdecimal U) cleaned) in
      if (7 <=? n) && (n <=? 15) then Text cleaned else NA
  | _ => NA
  end.

(** [country] may be [None]; the cleaned values are put on the index of the
    phone column, which fails when the country column is shorter. *)
Definition clean_phone (U : unicode) (phone : list cell)
    (country : option (list cell)) : result (list cell) :=
  let country := match country with
                 | Some c => c
                 | None => repeat PyNone (length phone)
                 end in
  let cleaned := map (fun pc => clean_phone_value U (fst pc) (snd pc))
                     (combine phone country) in
  if length cleaned =? length phone then Ok cleaned else Raise ValueError.

(** ** date *)

Record timestamp := { year : Z; month : Z; day : Z }.

(** What the program takes from pandas and from the clock: the parser
    [pd.to_datetime(t, errors="coerce", dayfirst=...)], [None] for [NaT], and
    [datetime.now().year]. *)
Record date_env := {
  to_datetime : str -> bool -> option timestamp;
  now_year : Z
}.

(** The [for dayfirst in ...] loop of [parse_one]. *)
Fixpoint parse_loop (P : date_env) (t : str) (flags : list bool)
    : option timestamp :=
  match flags with
  | [] => None
  | dayfirst :: flags' =>
      match to_datetime P t dayfirst with
      | Some dt =>
          if (now_year P + 50 <? year dt)%Z then None else Some dt
      | None => parse_loop P t flags'
      end
  end.

Definition parse_one (U : unicode) (P : date_env) (x : cell)
    : option timestamp :=
  match x with
  | PyNone | NaN => None
  | _ =>
      let t := strip U (maybe_demojibake (astype_str x)) in
      let t := re_sub_runs (isspace U) 1 (py " ") t [] in
      let t := map (fun c => if N.eqb c 160 then 32%N else c) t in
      parse_loop P t [false; true]
  end.

Fixpoint dec_digits (fuel : nat) (n : N) (acc : str) : str :=
  match fuel with
  | 0 => acc
  | S fuel' =>
      let acc' := (48 + n mod 10)%N :: acc in
      if (n <? 10)%N then acc' else dec_digits fuel' (n / 10)%N acc'
  end.

(** [str(n)] for a natural number *)
Definition str_of_N (n : N) : str :=
  dec_digits (S (N.to_nat (N.log2 n))) n [].

Definition zfill (width : nat) (s : str) : str :=
  repeat 48%N (width - length s) ++ s.

(** [strftime("%Y-%m-%d")] *)
Definition strftime_iso (dt : timestamp) : str :=
  zfill 4 (str_of_N (Z.to_N (year dt))) ++ py "-"
  ++ zfill 2 (str_of_N (Z.to_N (month dt))) ++ py "-"
  ++ zfill 2 (str_of_N (Z.to_N (day dt))).

Definition clean_date_value (U : unicode) (P : date_env) (x : cell) : cell :=
  match parse_one U P x with
  | Some dt => Text (strftime_iso dt)
  | None => NaN
  end.

(** [s.map(parse_one)] is a column of dates as soon as it holds a value;
    on the empty column it stays of dtype [object], and [parsed.dt] raises
    [AttributeError]. *)
Definition clean_date_iso (U : unicode) (P : date_env) (s : list cell)
    : result (list cell) :=
  match s with
  | [] => Raise AttributeError
  | _ :: _ => Ok (map (clean_date_value U P) s)
  end.

(** *** A parser for all-numeric dates

    Stands for [pd.to_datetime] on strings [A/B/YYYY] (separators [/], [-]
    or [.]): the two leading numbers are read in the preferred order, and in
    the other order when the preferred one is no calendar date. *)

Module NumericDates.

Fixpoint fields (s : str) (cur : str) : list str :=
  match s with
  | [] => [cur]
  | c :: s' =>
      if is_one_of "/-." c then cur :: fields s' []
      else fields s' (cur ++ [c])
  end.

Definition number (s : str) : option Z :=
  if nonempty s && forallb is_09 s
  then Some (fold_left (fun n c => n * 10 + (Z.of_N c - 48))%Z s 0%Z)
  else None.

Definition leap (y : Z) : bool :=
  ((y mod 4 =? 0) && negb (y mod 100 =? 0) || (y mod 400 =? 0))%Z.

Definition days_in_month (y m : Z) : Z :=
  if (m =? 2)%Z then (if leap y then 29 else 28)%Z
  else if ((m =? 4) || (m =? 6) || (m =? 9) || (m =? 11))%Z then 30%Z
  else 31%Z.

Definition valid (y m d : Z) : bool :=
  ((1678 <=? y) && (y <=? 2261) && (1 <=? m) && (m <=? 12)
   && (1 <=? d) && (d <=? days_in_month y m))%Z.

Definition parse (t : str) (dayfirst : bool) : option timestamp :=
  match fields t [] with
  | [a; b; y] =>
      match number a, number b, number y with
      | Some a, Some b, Some y =>
          if negb (length (nth 2 (fields t []) []) =? 4) then None
          else
            let '(d1, m1) := if dayfirst then (a, b) else (b, a) in
            if valid y m1 d1 then Some {| year := y; month := m1; day := d1 |}
            else if valid y d1 m1
                 then Some {| year := y; month := d1; day := m1 |}
                 else None
      | _, _, _ => None
      end
  | _ => None
  end.

End NumericDates.

(** ** Python floats, as far as [float(t)] and [f"{a:.2f}"] go

    A double is [m * 2^e] or infinity.  [float] rounds the decimal it reads to
    the nearest double, ties to even; the format rounds the double to the
    nearest hundredth, ties to even. *)

Module pyfloat.

Inductive t := Finite (m e : Z) | Infinity.

Local Open Scope Z_scope.

(** [num / den] rounded to the nearest integer, ties to even *)
Definition round_half_even (num den : Z) : Z :=
  let q := num / den in
  let r := num mod den in
  if (den <? 2 * r) || ((2 * r =? den) && Z.odd q) then q + 1 else q.

Definition of_ratio (num den : Z) : t :=
  if num =? 0 then Finite 0 0
  else
    let c := Z.log2 num - Z.log2 den in
    let ge := if 0 <=? c then den * 2 ^ c <=? num
              else den <=? num * 2 ^ (- c) in
    let l := if ge then c else c - 1 in
    let e := Z.max (l - 52) (-1074) in
    let m := if 0 <=? e then round_half_even num (den * 2 ^ e)
             else round_half_even (num * 2 ^ (- e)) den in
    if (0 <=? e) && (2 ^ 1024 <=? m * 2 ^ e) then Infinity else Finite m e.

Definition digits_value (s : str) : Z :=
  fold_left (fun n c => n * 10 + (Z.of_N c - 48)) s 0.

(** [float(s)] on a string of ASCII digits and dots; [None] stands for
    [ValueError]. *)
Definition of_str (s : str) : option t :=
  let '(ip, fp) := split1 46%N s in
  let fp := match fp with Some f => f | None => [] end in
  if forallb is_09 ip && forallb is_09 fp && nonempty (ip ++ fp)
  then Some (of_ratio (digits_value (ip ++ fp))
                      (10 ^ Z.of_nat (length fp)))
  else None.

Definition format_2f (x : t) : str :=
  match x with
  | Infinity => py "inf"
  | Finite m e =>
      let cents := if 0 <=? e then m * 2 ^ e * 100
                   else round_half_even (m * 100) (2 ^ (- e)) in
      str_of_N (Z.to_N (cents / 100)) ++ py "."
      ++ zfill 2 (str_of_N (Z.to_N (cents mod 100)))
  end.

End pyfloat.

(** ** price *)

(** The euro hint of the source is the three characters U+00E2 U+201A
    U+00AC. *)
Definition EURO_HINT : str := [226; 8218; 172]%N.

Definition CUR_HINTS : dict str :=
  [ (py "$", py "USD"); (EURO_HINT, py "EUR"); (py "usd", py "USD");
    (py "eur", py "EUR"); (py "sek", py "SEK"); (py "kr", py "SEK") ].

Definition _detect_currency (U : unicode) (raw : str) : option str :=
  let low := lower U raw in
  option_map snd
    (find (fun kv => contains (fst kv) low || contains (fst kv) raw)
          CUR_HINTS).

Fixpoint istartswith (U : unicode) (p s : str) : bool :=
  match p, s with
  | [], _ => true
  | x :: p', y :: s' => ieq U y x && istartswith U p' s'
  | _ :: _, [] => false
  end.

(** [re.sub(r"(?i)(tok1|tok2|...)", "", s)]: at every position the first
    alternative that matches is removed; [skip] counts the characters of a
    match still to be dropped. *)
Fixpoint re_sub_tokens (U : unicode) (toks : list str) (s : str) (skip : nat)
    : str :=
  match s with
  | [] => []
  | c :: s' =>
      match skip with
      | S k => re_sub_tokens U toks s' k
      | 0 =>
          match find (fun tok => nonempty tok && istartswith U tok s) toks with
          | Some tok => re_sub_tokens U toks s' (length tok - 1)
          | None => c :: re_sub_tokens U toks s' 0
          end
      end
  end.

Definition is_comma (c : char) : bool := N.eqb c 44.

(** [t.rfind(c)]: the scan keeps the last index found and the current
    index. *)
Definition rfind_step (c : char) (st : Z * Z) (x : char) : Z * Z :=
  ((if N.eqb x c then snd st else fst st), (snd st + 1)%Z).

Definition rfind (c : char) (t : str) : Z :=
  fst (fold_left (rfind_step c) t ((-1)%Z, 0%Z)).

Definition replace_char (a b : char) (t : str) : str :=
  map (fun c => if N.eqb c a then b else c) t.
Definition remove_char (a : char) (t : str) : str :=
  filter (fun c => negb (N.eqb c a)) t.

(** What is left of [raw] when [_normalize_amount] comes to its tests on the
    separators: digits, commas and dots. *)
Definition amount_chars (U : unicode) (raw : str) : str :=
  let t := replace_char 160%N 32%N (maybe_demojibake raw) in
  let t := re_sub_tokens U
             [py "usd"; py "eur"; py "sek"; py "kr"; py "$"; EURO_HINT] t 0 in
  let t := remove_char 32%N (remove_char 59%N t) in
  filter (fun c => is_09 c || is_comma c || is_dot c) t.

(** The tests on the separators. *)
Definition amount_separators (t : str) : str :=
  if existsb is_comma t && existsb is_dot t then
    if (rfind 46%N t <? rfind 44%N t)%Z
    then replace_char 44%N 46%N (remove_char 46%N t)
    else remove_char 44%N t
  else if existsb is_comma t && negb (existsb is_dot t) then
    let last_part := after_last is_comma t in
    if (length last_part =? 2) || (length last_part =? 3)
    then replace_char 44%N 46%N t
    else remove_char 44%N t
  else t.

(** The text [_normalize_amount] hands to [float]. *)
Definition amount_text (U : unicode) (raw : str) : str :=
  amount_separators (amount_chars U raw).

Definition _normalize_amount (U : unicode) (raw : str) : option pyfloat.t :=
  let t := amount_text U raw in
  if nonempty t then pyfloat.of_str t else None.

(** The two patterns of [looks_eu]. *)
Definition LOOKS_EU_1 (U : unicode) : re.regex :=
  let d := re.Chr (isdecimal U) in
  re.Cat (re.Between 1 3 d)
    (re.Cat (re.Plus (re.Cat (re.Chr is_dot) (re.Cat d (re.Cat d d))))
       (re.Cat (re.Chr is_comma) (re.Cat d d))).

Definition LOOKS_EU_2 (U : unicode) : re.regex :=
  let d := re.Chr (isdecimal U) in
  let sp := re.Star (re.Chr (isspace U)) in
  re.Cat (re.Chr is_comma)
    (re.Cat sp (re.Cat d (re.Cat d (re.Cat sp
       (re.Alt (re.Lit (ieq U) EURO_HINT) (re.Lit (ieq U) (py "eur"))))))).

(** The currency of one value: the hint [_detect_currency] finds, or EUR
    when it finds none and the value looks European. *)
Definition total_spent_currency (U : unicode) (raw : str) : option str :=
  let looks_eu :=
    re.search (LOOKS_EU_1 U) raw || re.search (LOOKS_EU_2 U) raw in
  match _detect_currency U raw with
  | None => if looks_eu then Some (py "EUR") else None
  | Some c => Some c
  end.

(** A value of the column [amounts].  [raw.map(_normalize_amount)] is a
    column of floats as soon as one amount parses, with NaN where
    [_normalize_amount] returned [None]; when no amount parses it is a column
    of [None]. *)
Inductive amount := NoAmount | NotANumber | Amount (x : pyfloat.t).

Definition parses (o : option pyfloat.t) : bool :=
  match o with Some _ => true | None => false end.

Definition amounts_column (l : list (option pyfloat.t)) : list amount :=
  if existsb parses l
  then map (fun o => match o with
                     | Some x => Amount x
                     | None => NotANumber
                     end) l
  else map (fun _ => NoAmount) l.

(** [fmt]: only [None] is missing; NaN is formatted as any float, to the
    text [nan]. *)
Definition total_spent_fmt (a : amount) (c : option str) : cell :=
  match a with
  | NoAmount => NA
  | _ =>
      let s := match a with
               | Amount x => pyfloat.format_2f x
               | _ => py "nan"
               end in
      match c with
      | Some c => Text (s ++ py " " ++ c)
      | None => Text s
      end
  end.

Definition clean_total_spent (U : unicode) (s : list cell) : list cell :=
  let raw := map astype_str s in
  let amounts := amounts_column (map (_normalize_amount U) raw) in
  let curr := map (total_spent_currency U) raw in
  map (fun ac => total_spent_fmt (fst ac) (snd ac)) (combine amounts curr).

(** ** white space and names *)

(** A column of a data frame: whether its dtype is [object], and its
    cells.  A frame is the list of its columns; their labels are distinct,
    as [read_csv] makes them. *)
Record column := { is_object : bool; cells : list cell }.

(** One cell of an [object] column under [tidy_whitespace]. *)
Definition tidy_cell (U : unicode) (c : cell) : str :=
  re_sub_runs (isspace U) 2 (py " ")
    (strip U (maybe_demojibake (astype_str c))) [].

Definition tidy_whitespace (U : unicode) (df : list column) : list column :=
  map (fun col =>
         if is_object col
         then {| is_object := true;
                 cells := map (fun c => Text (tidy_cell U c)) (cells col) |}
         else col) df.

Definition clean_name (U : unicode) (s : list cell) : list cell :=
  map (fun c => Text (title U (lower U (astype_str c)))) s.

(** * Vocabulary of the statements *)

(** The rows of a column that form the cluster of signature [s], and their
    values in input order. *)
Definition in_cluster (s : str) (r : row) : bool :=
  nonempty (basic r) && str_eqb (sig r) s.

Definition members (tmp : list row) (s : str) : list str :=
  map raw (filter (in_cluster s) tmp).

(** A cutoff [get_close_matches] accepts. *)
Definition cutoff_valid (c : Q) : Prop :=
  (Qle_bool 0 c && Qle_bool c 1)%bool = true.

(** The test of the comprehension that builds [anchors]. *)
Definition anchor_test (sizes : dict nat) (small s : str) : result bool :=
  ns <- dict_item sizes s ;;
  nsmall <- dict_item sizes small ;;
  Ok ((nsmall <=? ns) && negb (str_eqb s small)).

(** The sizes of the clusters of a column. *)
Definition city_sizes (groups : dict (list str)) : dict nat :=
  map (fun g => (fst g, length (snd g))) groups.

(** One entry of [final_disp]. *)
Definition final_entry (fuel : nat) (merged sig_to_disp : dict str) (sig : str)
    : result (str * str) :=
  r <- root fuel merged sig ;;
  dflt <- dict_item sig_to_disp sig ;;
  Ok (sig, match dict_get sig_to_disp r with
           | Some d => d
           | None => dflt
           end).

(** One turn of the loop that fills [mapping]. *)
Definition mapping_step (final_disp : dict str) (mapping : dict str) (r : row)
    : result (dict str) :=
  if nonempty (basic r) then
    d <- dict_item final_disp (sig r) ;;
    Ok (dict_set mapping (raw r) d)
  else Ok mapping.

(** C2 as the specification words it, for one column: any two values of the
    column that are not the empty string and have the same signature are keys
    of the returned mapping, with a common image. *)
Definition signature_equivalence_as_stated (U : unicode) (fuel : nat)
    (col : list cell) : Prop :=
  forall m ca cb,
    build_city_canon U fuel col default_cutoff = Ok m ->
    In ca col -> In cb col ->
    astype_str ca <> [] -> astype_str cb <> [] ->
    sig (city_row U ca) = sig (city_row U cb) ->
    exists d, dict_get m (raw (city_row U ca)) = Some d
              /\ dict_get m (raw (city_row U cb)) = Some d.

(** The outcome that leaves root resolution unfinished: some cluster's
    signature does not reach a root within the fuel. *)
Definition root_unfinished (U : unicode) (fuel : nat) (col : list cell)
    (cutoff : Q) : Prop :=
  build_city_canon U fuel col cutoff = OutOfFuel
  /\ exists M s,
       city_merge_edges U col cutoff = Ok M
       /\ In s (keys (city_groups (city_rows U col)))
       /\ root fuel M s = OutOfFuel.

(** C3 as the specification words it, for one column: cleaning the cleaned
    column gives the cleaned column back. *)
Definition idempotent_as_stated (U : unicode) (fuel : nat) (col : list cell)
    : Prop :=
  forall out, clean_city U fuel col = Ok out -> clean_city U fuel out = Ok out.

(** The number of times [x] occurs in [l], and what it is to be the most
    frequent value of [l], the first one in input order among equals. *)
Definition occurrences (x : str) (l : list str) : nat :=
  length (filter (str_eqb x) l).

Definition first_mode (top : str) (l : list str) : Prop :=
  (forall x, occurrences x l <= occurrences top l)
  /\ exists l1 l2,
       l = l1 ++ top :: l2
       /\ ~ In top l1
       /\ forall x, In x l1 -> occurrences x l < occurrences top l.

(** C5 as the specification words it, on U+0000..U+00FF: the most frequent
    value is kept verbatim when it contains an uppercase letter, and
    title-cased when it contains none. *)
Definition is_uppercase (c : char) : bool :=
  is_AZ c || (in_range 192 222 c && negb (N.eqb c 215)).

Definition display_form_as_stated (U : unicode) (cands : list str) : Prop :=
  forall top,
    first_mode top cands ->
    _choose_display_form U cands
    = Ok (if existsb is_uppercase top then top else title U top).

(** The all-numeric parser with the clock at year [y]. *)
Definition numeric_env (y : Z) : date_env :=
  {| to_datetime := NumericDates.parse; now_year := y |}.

(** C6 as the specification words it: the day-first reading is tried before
    the month-first one. *)
Definition parse_one_day_first (U : unicode) (P : date_env) (x : cell)
    : option timestamp :=
  match x with
  | PyNone | NaN => None
  | _ =>
      let t := strip U (maybe_demojibake (astype_str x)) in
      let t := re_sub_runs (isspace U) 1 (py " ") t [] in
      let t := map (fun c => if N.eqb c 160 then 32%N else c) t in
      parse_loop P t [true; false]
  end.

Definition day_first_priority_as_stated (U : unicode) (P : date_env) : Prop :=
  forall x, parse_one U P x = parse_one_day_first U P x.

(** The text [parse_one] hands to the parser. *)
Definition date_text (U : unicode) (x : cell) : str :=
  map (fun c => if N.eqb c 160 then 32%N else c)
      (re_sub_runs (isspace U) 1 (py " ")
         (strip U (maybe_demojibake (astype_str x))) []).

(** The first reading of [t] that parses, the month-first one before the
    day-first one. *)
Definition first_reading (P : date_env) (t : str) : option timestamp :=
  match to_datetime P t false with
  | Some dt => Some dt
  | None => to_datetime P t true
  end.

(** C8 in the words of the specification, on its own scan of the text.
    [rightmost_separator] is the right-most of the commas and dots;
    [final_group] is the last comma-delimited group, read from the left;
    [treat_separators] writes the decimal separator as a dot and discards
    every other separator.  When both separators occur the right-most is the
    decimal separator; when only commas occur, the comma is one exactly when
    the final group has 2 or 3 digits. *)
Definition is_separator (c : char) : bool := is_comma c || is_dot c.

Definition rightmost_separator (t : str) : option char :=
  find is_separator (rev t).

Definition final_group (t : str) : str :=
  fold_left (fun grp c => if is_comma c then [] else grp ++ [c]) t [].

Definition treat_separators (decimal : option char) (t : str) : str :=
  flat_map (fun c =>
              if is_separator c then
                match decimal with
                | Some d => if N.eqb c d then [46%N] else []
                | None => []
                end
              else [c]) t.

Definition separators_rule (t : str) : str :=
  match existsb is_comma t, existsb is_dot t with
  | true, true => treat_separators (rightmost_separator t) t
  | true, false =>
      let digits := length (filter is_09 (final_group t)) in
      treat_separators
        (if (2 <=? digits) && (digits <=? 3) then Some 44%N else None) t
  | false, _ => t
  end.

(** The language of a pattern. *)
Inductive Matches : re.regex -> str -> Prop :=
| MEps : Matches re.Eps []
| MChr p c : p c = true -> Matches (re.Chr p) [c]
| MCat r s u v : Matches r u -> Matches s v -> Matches (re.Cat r s) (u ++ v)
| MAltL r s u : Matches r u -> Matches (re.Alt r s) u
| MAltR r s u : Matches s u -> Matches (re.Alt r s) u
| MStar0 r : Matches (re.Star r) []
| MStarS r u v :
    Matches r u -> Matches (re.Star r) v -> Matches (re.Star r) (u ++ v).

(** C9 in the words of the specification: [local@domain.tld], the domain
    ending in a dot and a top-level domain of two letters or more, no two
    dots in a row, no dot at either end of the local part or of the domain.
    (The [$] of the pattern lets a final newline follow; none is left by the
    normalisation when the newline is white space, as it is in Unicode.) *)
Definition no_double_dot (t : str) : Prop :=
  forall u v, t <> u ++ [46; 46]%N ++ v.

Definition email_wellformed (t : str) : Prop :=
  exists local rest tld,
    let domain := rest ++ [46%N] ++ tld in
    (t = local ++ [64%N] ++ domain \/ t = local ++ [64%N] ++ domain ++ [10%N])
    /\ local <> [] /\ ~ In 64%N local /\ ~ In 64%N domain
    /\ 2 <= length tld /\ Forall (fun c => is_alpha c = true) tld
    /\ no_double_dot (local ++ [64%N] ++ domain)
    /\ startswith (py ".") local = false /\ endswith (py ".") local = false
    /\ startswith (py ".") domain = false /\ endswith (py ".") domain = false.

(** The pieces of [EMAIL_RE] the proofs name. *)
Definition email_label : re.regex :=
  re.Cat (re.Plus (re.Chr email_domain_class)) (re.Chr is_dot).

Definition is_domain_char (c : char) : bool := email_domain_class c || is_dot c.

Definition email_char (c : char) : bool :=
  email_local_class c || is_at c || is_domain_char c || is_alpha c.

(** No two clusters of the same size. *)
Definition sizes_distinct (sizes : dict nat) : Prop :=
  forall s t n, dict_get sizes s = Some n -> dict_get sizes t = Some n -> s = t.

(** No two neighbours in [s] both satisfy [p]. *)
Fixpoint no_adjacent (p : char -> bool) (s : str) : bool :=
  match s with
  | a :: s' =>
      match s' with
      | b :: _ => negb (p a && p b)
      | [] => true
      end && no_adjacent p s'
  | [] => true
  end.

(** The first and the last character of [s], if any, do not satisfy [p]. *)
Definition ends_clear (p : char -> bool) (s : str) : Prop :=
  match s with
  | [] => True
  | c :: _ => p c = false /\ p (last s c) = false
  end.

(** The total of the sizes of the clusters. *)
Definition total_size (sizes : dict nat) : nat :=
  fold_right (fun e n => snd e + n) 0 sizes.

(** [U] reads the ASCII digits, and no other ASCII character, as decimal
    digits. *)
Definition ascii_decimals (U : unicode) : Prop :=
  forall c, (c < 128)%N -> isdecimal U c = is_09 c.

(** The text of a cell as [clean_city] reads it. *)
Definition city_text (U : unicode) (c : cell) : str :=
  strip U (maybe_demojibake (astype_str c)).

(** The signature of a trimmed value. *)
Definition signature_of (U : unicode) (k : str) : str :=
  _letters_only_signature (_basic_city_clean U k).

(** [d] is the display form of one of the clusters of the column. *)
Definition cluster_display (U : unicode) (col : list cell) (d : str) : Prop :=
  exists s,
    members (city_rows U col) s <> []
    /\ _choose_display_form U (members (city_rows U col) s) = Ok d.

(** The two markers [maybe_demojibake] looks for. *)
Definition has_marker (x : str) : bool :=
  contains [195; 402]%N x || contains [195; 8218]%N x.

(** The repair [maybe_demojibake] is after: the text read as Latin-1 bytes
    and decoded as UTF-8. *)
Definition reencode (x : str) : option str :=
  match encode_latin1 x with
  | Some bs => decode_utf8 bs
  | None => None
  end.

(** The strings of ASCII characters. *)
Definition is_ascii (s : str) : Prop := Forall (fun c => (c < 128)%N) s.

(** The characters of an amount: digits, and digits or dots. *)
Definition is_amount_char (c : char) : bool := is_09 c || is_dot c.

(** Following [n] merge edges from [s]. *)
Fixpoint walk (n : nat) (M : dict str) (s : str) : option str :=
  match n with
  | 0 => Some s
  | S n' =>
      match dict_get M s with
      | Some t => walk n' M t
      | None => None
      end
  end.

(** The signatures met on the way. *)
Fixpoint trace (n : nat) (M : dict str) (s : str) : list str :=
  s :: match n with
       | 0 => []
       | S n' =>
           match dict_get M s with
           | Some t => trace n' M t
           | None => []
           end
       end.

(** Some merge edges lead from a cluster back to it. *)
Definition merge_cycle (M : dict str) : Prop :=
  exists s n, 0 < n /\ walk n M s = Some s.

(** C4 in the words of the specification: no dependence on the order in
    which the clusters are iterated.  [canon_from_groups] is
    [build_city_canon] from the rows and the dict of clusters on; every
    iteration of the source over clusters follows the order of that dict. *)
Definition canon_from_groups (U : unicode) (fuel : nat) (tmp : list row)
    (groups : dict (list str)) (fuzzy_cutoff : Q) : result (dict str) :=
  sig_to_disp <- mapM (fun g => d <- _choose_display_form U (snd g) ;;
                                Ok (fst g, d)) groups ;;
  let sizes := map (fun g => (fst g, length (snd g))) groups in
  ordered <- city_ordered sizes ;;
  merged <- city_merged sizes ordered fuzzy_cutoff ;;
  final_disp <- city_final_disp fuel merged sig_to_disp ;;
  city_mapping tmp final_disp.

(** The merge edge the source records for [small], if any. *)
Definition edge_of (sizes : dict nat) (ordered : list str) (cutoff : Q)
    (small : str) : option str :=
  match filterM (anchor_test sizes small) ordered with
  | Ok anchors =>
      match difflib.get_close_matches small anchors 1 cutoff with
      | Ok (m0 :: _) => Some m0
      | _ => None
      end
  | _ => None
  end.

(** [clean_city] over the engine that follows [groups]. *)
Definition clean_city_from_groups (U : unicode) (fuel : nat) (s : list cell)
    (groups : dict (list str)) : result (list cell) :=
  m <- canon_from_groups U fuel (city_rows U s) groups default_cutoff ;;
  let out := map (fun c =>
                    let v := strip U (maybe_demojibake (astype_str c)) in
                    if nonempty v then Text v else NA) s in
  Ok (map (fun c => match c with
                    | Text v => Text (match dict_get m v with
                                      | Some d => d
                                      | None => v
                                      end)
                    | other => other
                    end) out).

(** One value of the column [amounts], from what [_normalize_amount] gave
    for it and from whether some value of the column parses. *)
Definition amount_cell (some_parses : bool) (o : option pyfloat.t) : amount :=
  match o with
  | Some x => Amount x
  | None => if some_parses then NotANumber else NoAmount
  end.

(** * Columns and values used as examples *)

Definition gothenburg_column : list cell :=
  [Text (py "Gothenburg"); Text (py "Gothenburgh")].

Definition stockholm_column : list cell :=
  [ Text (py "stockholm"); Text (py " Stockholm "); Text (py "stockholm");
    Text (py "Stockholmm"); NaN; Text (py "123"); Text (py "987") ].

Definition sao_paulo_column : list cell :=
  [ Text (py "S" ++ [227%N] ++ py "o Paulo"); Text (py "Sao Paulo");
    Text (py "sao  paulo") ].

Definition diacritic_column : list cell := [Text [168%N]; Text [180%N]].

Definition paris_column : list cell :=
  [ Text (py "Paris"); Text (py "paris "); Text (py "Paris");
    Text (py "Lyon") ].

Definition kensington_column : list cell :=
  [ Text (py "Kensingtoncac"); Text (py "Kensingtonabc");
    Text (py "Kensingtoncac"); Text (py "Kensingtonabcs");
    Text (py "Kensingtonabc"); Text (py "Kensingtoncac");
    Text (py "Kensingtonabcs"); Text (py "Kensingtonabc");
    Text (py "Kensingtoncac") ].

Definition kensington_once : list cell :=
  [ Text (py "Kensingtoncac"); Text (py "Kensingtonabc");
    Text (py "Kensingtoncac"); Text (py "Kensingtonabc");
    Text (py "Kensingtonabc"); Text (py "Kensingtoncac");
    Text (py "Kensingtonabc"); Text (py "Kensingtonabc");
    Text (py "Kensingtoncac") ].

(** Numbers and the two spellings of Gothenburg. *)
Definition numbers_and_gothenburg : list cell :=
  [ Text (py "123"); Text (py "987"); Text (py "Gothenburg");
    Text (py "Gothenburgh") ].

Definition euro_amount : str := py "1.234,56 " ++ [8364%N].

(** [Örebro län], with a capital that is not among A-Z, and its title
    case. *)
Definition orebro_lan : str := [214%N] ++ py "rebro l" ++ [228%N] ++ py "n".

Definition orebro_lan_title : str :=
  [214%N] ++ py "rebro L" ++ [228%N] ++ py "n".

(** * Properties *)

(** ** Strings, results and dictionaries *)

Lemma str_eqb_eq (a b : str) : str_eqb a b = true <-> a = b.
Proof.
  revert b; induction a as [|x a IH]; intros [|y b]; simpl;
    try (split; [discriminate | congruence]); try tauto.
  rewrite andb_true_iff, N.eqb_eq, IH. split.
  - intros [-> ->]; reflexivity.
  - intros H; injection H; auto.
Qed.

Lemma str_eqb_refl (a : str) : str_eqb a a = true.
Proof. apply str_eqb_eq; reflexivity. Qed.

Lemma str_eqb_neq (a b : str) : str_eqb a b = false <-> a <> b.
Proof.
  rewrite <- str_eqb_eq. destruct (str_eqb a b); split; congruence.
Qed.

Lemma bind_Ok {A B} (c : result A) (k : A -> result B) (b : B) :
  bind c k = Ok b -> exists a, c = Ok a /\ k a = Ok b.
Proof. destruct c; simpl; try discriminate. eauto. Qed.

Ltac inv_bind H :=
  let a := fresh "a" in
  let Ha := fresh "Ha" in
  apply bind_Ok in H; destruct H as (a & Ha & H).

Lemma build_city_canon_plan (U : unicode) (fuel : nat) (series : list cell)
    (cutoff : Q) :
  build_city_canon U fuel series cutoff =
  (p <- city_plan U series cutoff ;;
   final_disp <- city_final_disp fuel (snd p) (snd (fst p)) ;;
   city_mapping (fst (fst p)) final_disp).
Proof.
  unfold build_city_canon, city_plan.
  destruct (mapM _ (city_groups _)) as [d| |]; simpl; try reflexivity.
  destruct (city_ordered _) as [o| |]; simpl; try reflexivity.
  destruct (city_merged _ _ _) as [m| |]; simpl; reflexivity.
Qed.

(** ** The merge structure *)

Lemma root_two_cycle (merged : dict str) (a b : str) :
  dict_get merged a = Some b -> dict_get merged b = Some a ->
  forall fuel, root fuel merged a = OutOfFuel /\ root fuel merged b = OutOfFuel.
Proof.
  intros Ha Hb. induction fuel as [|fuel [IHa IHb]]; simpl.
  - split; reflexivity.
  - rewrite Ha, Hb. split; assumption.
Qed.

(** C1. On the column ["Gothenburg"; "Gothenburgh"] the two clusters have
    the same frequency and each is a close match of the other, so each is
    merged into the other: the merge edges form a cycle, and neither
    [build_city_canon] nor [clean_city] returns, whatever the number of turns
    granted to the loop of [root]. *)
Theorem mutual_merge_never_returns :
  city_merge_edges latin1 gothenburg_column default_cutoff
  = Ok [ (py "gothenburgh", py "gothenburg");
         (py "gothenburg", py "gothenburgh") ]
  /\ forall fuel,
       build_city_canon latin1 fuel gothenburg_column default_cutoff
       = OutOfFuel
       /\ clean_city latin1 fuel gothenburg_column = OutOfFuel.
Proof.
  split; [vm_compute; reflexivity|].
  intros fuel.
  assert (H : build_city_canon latin1 fuel gothenburg_column default_cutoff
              = OutOfFuel).
  { rewrite build_city_canon_plan.
    replace (city_plan latin1 gothenburg_column default_cutoff)
      with (Ok (city_rows latin1 gothenburg_column,
                [ (py "gothenburg", py "Gothenburg");
                  (py "gothenburgh", py "Gothenburgh") ],
                [ (py "gothenburgh", py "gothenburg");
                  (py "gothenburg", py "gothenburgh") ]))
      by (vm_compute; reflexivity).
    cbn [bind fst snd city_final_disp keys map mapM].
    destruct (root_two_cycle
                [ (py "gothenburgh", py "gothenburg");
                  (py "gothenburg", py "gothenburgh") ]
                (py "gothenburg") (py "gothenburgh")
                eq_refl eq_refl fuel) as [-> _].
    reflexivity. }
  split; [exact H|]. unfold clean_city. rewrite H. reflexivity.
Qed.

(** ** Dictionaries *)

Lemma str_eqb_spec (a b : str) : reflect (a = b) (str_eqb a b).
Proof.
  destruct (str_eqb a b) eqn:E; constructor.
  - apply str_eqb_eq; assumption.
  - apply str_eqb_neq; assumption.
Qed.

Section DictFacts.
Context {V : Type}.
Implicit Types (d : dict V) (k : str) (v : V) (f : option V -> V).

Lemma dict_get_upsert f d k k' :
  dict_get (dict_upsert f d k) k'
  = if str_eqb k k' then Some (f (dict_get d k)) else dict_get d k'.
Proof.
  induction d as [|[k0 v0] d IH]; simpl.
  - reflexivity.
  - destruct (str_eqb_spec k0 k) as [->|Hk0]; simpl.
    + destruct (str_eqb_spec k k'); reflexivity.
    + rewrite IH. destruct (str_eqb_spec k0 k') as [->|Hk0'].
      * destruct (str_eqb_spec k k'); [congruence | reflexivity].
      * reflexivity.
Qed.

Lemma dict_get_In d k v : dict_get d k = Some v -> In (k, v) d.
Proof.
  induction d as [|[k0 v0] d IH]; simpl; [discriminate|].
  destruct (str_eqb_spec k0 k) as [->|_].
  - intros [= ->]. left; reflexivity.
  - intros H. right. apply IH, H.
Qed.

Lemma dict_get_keys d k : In k (keys d) <-> dict_get d k <> None.
Proof.
  induction d as [|[k0 v0] d IH]; simpl.
  - split; [tauto | congruence].
  - destruct (str_eqb_spec k0 k) as [->|Hne].
    + split; [discriminate | auto].
    + rewrite <- IH. split; [intros [H|H]; [congruence | exact H] | auto].
Qed.

Lemma dict_get_None_keys d k : dict_get d k = None <-> ~ In k (keys d).
Proof.
  rewrite dict_get_keys. destruct (dict_get d k); split; try congruence.
  intros H. exfalso. apply H. discriminate.
Qed.

Lemma keys_upsert f d k :
  keys (dict_upsert f d k)
  = if dict_mem d k then keys d else keys d ++ [k].
Proof.
  unfold dict_mem.
  induction d as [|[k0 v0] d IH]; simpl; [reflexivity|].
  destruct (str_eqb_spec k0 k) as [->|Hne]; simpl; [reflexivity|].
  fold (keys (dict_upsert f d k)). rewrite IH.
  fold (keys d). destruct (dict_get d k); reflexivity.
Qed.

Lemma NoDup_keys_upsert f d k :
  NoDup (keys d) -> NoDup (keys (dict_upsert f d k)).
Proof.
  intros H. rewrite keys_upsert. unfold dict_mem.
  destruct (dict_get d k) eqn:E; [exact H|].
  apply dict_get_None_keys in E.
  apply NoDup_app; [exact H | repeat constructor; simpl; tauto |].
  intros x Hx [<-|[]]. exact (E Hx).
Qed.

Lemma NoDup_keys_In d k v :
  NoDup (keys d) -> In (k, v) d -> dict_get d k = Some v.
Proof.
  induction d as [|[k0 v0] d IH]; simpl; [tauto|].
  intros Hnd Hin. inversion Hnd as [|? ? Hnot Hnd']; subst.
  destruct Hin as [[= -> ->]|Hin].
  - rewrite str_eqb_refl. reflexivity.
  - destruct (str_eqb_spec k0 k) as [->|_]; [|auto].
    exfalso. apply Hnot. change k with (fst (k, v)). apply in_map, Hin.
Qed.

Lemma dict_upsert_nonempty f d k : dict_upsert f d k <> [].
Proof.
  destruct d as [|[k0 v0] d]; simpl; [discriminate|].
  destruct (str_eqb k0 k); discriminate.
Qed.

Lemma dict_get_set d k v k' :
  dict_get (dict_set d k v) k'
  = if str_eqb k k' then Some v else dict_get d k'.
Proof. apply dict_get_upsert. Qed.

End DictFacts.

(** ** Monadic traversals *)

Lemma mapM_Ok_inv {A B} (f : A -> result B) (l : list A) (ys : list B) :
  mapM f l = Ok ys -> Forall2 (fun x y => f x = Ok y) l ys.
Proof.
  revert ys; induction l as [|x l IH]; simpl; intros ys H.
  - injection H as <-. constructor.
  - inv_bind H. inv_bind H. injection H as <-. constructor; auto.
Qed.

Lemma mapM_Ok_intro {A B} (f : A -> result B) (l : list A) :
  (forall x, In x l -> exists y, f x = Ok y) ->
  exists ys, mapM f l = Ok ys.
Proof.
  induction l as [|x l IH]; simpl; intros H.
  - eexists; reflexivity.
  - destruct (H x (or_introl eq_refl)) as [y ->].
    destruct IH as [ys ->]; [intros; apply H; auto|].
    simpl. eexists; reflexivity.
Qed.

Lemma filterM_Ok_intro {A} (f : A -> result bool) (l : list A) :
  (forall x, In x l -> exists b, f x = Ok b) ->
  exists ys, filterM f l = Ok ys.
Proof.
  induction l as [|x l IH]; simpl; intros H.
  - eexists; reflexivity.
  - destruct (H x (or_introl eq_refl)) as [y ->].
    destruct IH as [ys ->]; [intros; apply H; auto|].
    simpl. eexists; reflexivity.
Qed.

Lemma filterM_Ok_inv {A} (f : A -> result bool) (l ys : list A) :
  filterM f l = Ok ys -> forall x, In x ys -> In x l /\ f x = Ok true.
Proof.
  revert ys; induction l as [|x l IH]; simpl; intros ys H y Hy.
  - injection H as <-. destruct Hy.
  - inv_bind H. inv_bind H. injection H as <-.
    destruct a.
    + destruct Hy as [<-|Hy]; [auto|]. destruct (IH _ Ha0 _ Hy); auto.
    + destruct (IH _ Ha0 _ Hy); auto.
Qed.

Lemma Forall2_dict_get {V} (F : str -> result (str * V))
    (l : list str) (d : dict V) :
  Forall2 (fun x e => F x = Ok e) l d ->
  (forall x e, F x = Ok e -> fst e = x) ->
  forall x, In x l ->
  exists e, F x = Ok e /\ dict_get d x = Some (snd e).
Proof.
  intros H Hkey. induction H as [|x0 e0 l d H0 H IH]; intros x Hin.
  - destruct Hin.
  - destruct e0 as [k0 v0]. simpl.
    pose proof (Hkey _ _ H0) as Hk0. simpl in Hk0. subst k0.
    destruct (str_eqb_spec x0 x) as [->|Hk].
    + exists (x, v0). auto.
    + destruct Hin as [->|Hin]; [congruence | apply IH, Hin].
Qed.

Lemma Forall2_keys {V} (F : str -> result (str * V))
    (l : list str) (d : dict V) :
  Forall2 (fun x e => F x = Ok e) l d ->
  (forall x e, F x = Ok e -> fst e = x) ->
  keys d = l.
Proof.
  intros H Hkey. induction H as [|x0 e0 l d H0 H IH]; simpl.
  - reflexivity.
  - rewrite (Hkey _ _ H0). f_equal. exact IH.
Qed.

(** ** Clusters *)

Lemma city_groups_snoc (tmp : list row) (r : row) :
  city_groups (tmp ++ [r])
  = if nonempty (basic r) then dict_append (city_groups tmp) (sig r) (raw r)
    else city_groups tmp.
Proof. unfold city_groups. rewrite fold_left_app. reflexivity. Qed.

Lemma members_snoc (tmp : list row) (r : row) (s : str) :
  members (tmp ++ [r]) s
  = members tmp s ++ (if in_cluster s r then [raw r] else []).
Proof.
  unfold members. rewrite filter_app, map_app. simpl.
  destruct (in_cluster s r); reflexivity.
Qed.

Lemma city_groups_get (tmp : list row) (s : str) :
  dict_get (city_groups tmp) s
  = match members tmp s with [] => None | l => Some l end.
Proof.
  induction tmp as [|r tmp IH] using rev_ind; [reflexivity|].
  rewrite city_groups_snoc, members_snoc. unfold in_cluster.
  destruct (nonempty (basic r)); simpl.
  - unfold dict_append. rewrite dict_get_upsert.
    destruct (str_eqb_spec (sig r) s) as [->|Hne].
    + rewrite IH. destruct (members tmp s); reflexivity.
    + rewrite IH, app_nil_r. reflexivity.
  - rewrite IH, app_nil_r. reflexivity.
Qed.

Lemma city_groups_NoDup (tmp : list row) : NoDup (keys (city_groups tmp)).
Proof.
  induction tmp as [|r tmp IH] using rev_ind; [constructor|].
  rewrite city_groups_snoc. destruct (nonempty (basic r)); [|exact IH].
  apply NoDup_keys_upsert, IH.
Qed.

Lemma city_groups_In (tmp : list row) (s : str) (l : list str) :
  In (s, l) (city_groups tmp) -> l = members tmp s /\ l <> [].
Proof.
  intros H. apply NoDup_keys_In in H; [|apply city_groups_NoDup].
  rewrite city_groups_get in H.
  destruct (members tmp s); [discriminate|].
  injection H as <-. split; [reflexivity | discriminate].
Qed.

Lemma row_in_group (tmp : list row) (r : row) :
  In r tmp -> nonempty (basic r) = true ->
  dict_get (city_groups tmp) (sig r) = Some (members tmp (sig r))
  /\ In (raw r) (members tmp (sig r)).
Proof.
  intros Hin Hne.
  assert (Hm : In (raw r) (members tmp (sig r))).
  { unfold members. apply in_map, filter_In. split; [exact Hin|].
    unfold in_cluster. rewrite Hne, str_eqb_refl. reflexivity. }
  split; [|exact Hm]. rewrite city_groups_get.
  destruct (members tmp (sig r)); [destruct Hm | reflexivity].
Qed.

(** ** The display form never fails on a cluster *)

Lemma fold_counter_nonempty (l : list str) (d : dict nat) :
  d <> [] -> fold_left counter_add l d <> [].
Proof.
  revert d; induction l as [|x l IH]; simpl; intros d Hd; [exact Hd|].
  apply IH, dict_upsert_nonempty.
Qed.

Lemma choose_display_form_ok (U : unicode) (cands : list str) :
  cands <> [] -> exists d, _choose_display_form U cands = Ok d.
Proof.
  intros Hne. unfold _choose_display_form, most_common_1, Counter.
  destruct cands as [|x l]; [congruence|]. simpl.
  pose proof (fold_counter_nonempty l (counter_add [] x)
                (dict_upsert_nonempty _ _ _)) as H.
  destruct (fold_left counter_add l (counter_add [] x)) as [|[k n] c];
    [congruence|].
  simpl. destruct (max_from _ (k, n) c) as [top cnt]. eexists; reflexivity.
Qed.

(** ** The order of the clusters *)

Lemma insert_desc_In {A} (x y : A * nat) (l : list (A * nat)) :
  In y (insert_desc x l) <-> y = x \/ In y l.
Proof.
  induction l as [|z l IH]; simpl.
  - intuition.
  - destruct (snd z <=? snd x); simpl; [intuition|].
    rewrite IH. intuition.
Qed.

Lemma sorted_desc_In {A} (y : A * nat) (l : list (A * nat)) :
  In y (sorted_desc l) <-> In y l.
Proof.
  induction l as [|x l IH]; simpl; [tauto|].
  rewrite insert_desc_In, IH. intuition.
Qed.

Lemma city_ordered_ok (sizes : dict nat) :
  exists o, city_ordered sizes = Ok o
            /\ forall k, In k o <-> In k (keys sizes).
Proof.
  unfold city_ordered.
  set (F := fun k : str => n <- dict_item sizes k ;; Ok (k, n)).
  assert (HF : forall x e, F x = Ok e -> fst e = x).
  { intros x e. unfold F, dict_item. destruct (dict_get sizes x); simpl;
      [intros [= <-]; reflexivity | discriminate]. }
  destruct (mapM_Ok_intro F (keys sizes)) as [dec Hdec].
  { intros k Hk. apply dict_get_keys in Hk. unfold F, dict_item.
    destruct (dict_get sizes k); [eexists; reflexivity | congruence]. }
  rewrite Hdec. simpl. eexists; split; [reflexivity|].
  pose proof (Forall2_keys F _ _ (mapM_Ok_inv _ _ _ Hdec) HF) as Hk.
  intros k. rewrite <- Hk. unfold keys. rewrite !in_map_iff.
  split; intros (e & He & Hin); exists e; (split; [exact He|]);
    apply sorted_desc_In; exact Hin.
Qed.

(** ** The merge edges *)

Lemma max_from_In {A} (gt : A -> A -> bool) (b : A) (l : list A) :
  max_from gt b l = b \/ In (max_from gt b l) l.
Proof.
  revert b; induction l as [|x l IH]; simpl; intros b; [auto|].
  destruct (IH (if gt x b then x else b)) as [H|H]; [|auto].
  rewrite H. destruct (gt x b); auto.
Qed.

Lemma py_max_In {A} (gt : A -> A -> bool) (l : list A) (x : A) :
  py_max gt l = Some x -> In x l.
Proof.
  destruct l as [|y l]; simpl; [discriminate|]. intros [= <-].
  destruct (max_from_In gt y l); [left; congruence | right; assumption].
Qed.

Lemma get_close_matches_ok (word : str) (poss : list str) (cutoff : Q) :
  cutoff_valid cutoff ->
  exists m, difflib.get_close_matches word poss 1 cutoff = Ok m
            /\ forall x, In x m -> In x poss.
Proof.
  unfold cutoff_valid, difflib.get_close_matches. intros ->. simpl.
  eexists; split; [reflexivity|]. intros x Hx.
  destruct (py_max difflib.scored_gt _) as [[q y]|] eqn:E; [|destruct Hx].
  destruct Hx as [<-|[]]. apply py_max_In in E.
  apply in_flat_map in E. destruct E as (z & Hz & E).
  destruct (_ && _); [|destruct E]. destruct E as [[= _ <-]|[]]. exact Hz.
Qed.

Lemma get_close_matches_inv (word : str) (poss m : list str) (cutoff : Q) :
  difflib.get_close_matches word poss 1 cutoff = Ok m ->
  forall x, In x m -> In x poss.
Proof.
  unfold difflib.get_close_matches. simpl.
  destruct (negb (Qle_bool 0 cutoff && Qle_bool cutoff 1)); [discriminate|].
  intros [= <-] x Hx.
  destruct (py_max difflib.scored_gt _) as [[q y]|] eqn:E; [|destruct Hx].
  destruct Hx as [<-|[]]. apply py_max_In in E.
  apply in_flat_map in E. destruct E as (z & Hz & E).
  destruct (_ && _); [|destruct E]. destruct E as [[= _ <-]|[]]. exact Hz.
Qed.

Lemma city_merged_unfold (sizes : dict nat) (ordered : list str) (cutoff : Q) :
  city_merged sizes ordered cutoff
  = foldM (fun merged small =>
             anchors <- filterM (anchor_test sizes small) ordered ;;
             m <- difflib.get_close_matches small anchors 1 cutoff ;;
             Ok (match m with
                 | m0 :: _ => dict_set merged small m0
                 | [] => merged
                 end))
          (rev ordered) [].
Proof. reflexivity. Qed.

Lemma merge_loop_inv (sizes : dict nat) (ordered : list str) (cutoff : Q)
    (l : list str) (M0 M : dict str) :
  foldM (fun merged small =>
           anchors <- filterM (anchor_test sizes small) ordered ;;
           m <- difflib.get_close_matches small anchors 1 cutoff ;;
           Ok (match m with
               | m0 :: _ => dict_set merged small m0
               | [] => merged
               end)) l M0 = Ok M ->
  forall s t, dict_get M s = Some t ->
    dict_get M0 s = Some t
    \/ (In s l /\ exists anchors m,
          filterM (anchor_test sizes s) ordered = Ok anchors
          /\ difflib.get_close_matches s anchors 1 cutoff = Ok (t :: m)).
Proof.
  revert M0. induction l as [|small l IH]; simpl; intros M0 H s t Hst.
  - injection H as <-. auto.
  - inv_bind H. inv_bind Ha. inv_bind Ha. injection Ha as <-.
    destruct (IH _ H _ _ Hst) as [H1|(Hin & H1)]; [|right; split; auto].
    destruct a1 as [|m0 m]; [auto|].
    rewrite dict_get_set in H1.
    destruct (str_eqb_spec small s) as [->|_]; [|auto].
    injection H1 as ->. right. split; [auto|]. eauto.
Qed.

Lemma city_merged_edge (sizes : dict nat) (ordered : list str) (cutoff : Q)
    (M : dict str) (s t : str) :
  city_merged sizes ordered cutoff = Ok M ->
  dict_get M s = Some t ->
  In s ordered /\ exists anchors m,
    filterM (anchor_test sizes s) ordered = Ok anchors
    /\ difflib.get_close_matches s anchors 1 cutoff = Ok (t :: m).
Proof.
  rewrite city_merged_unfold. intros H Hst.
  destruct (merge_loop_inv _ _ _ _ _ _ H _ _ Hst) as [H0|[Hin H1]];
    [discriminate|].
  split; [apply in_rev, Hin | exact H1].
Qed.

Lemma foldM_Ok_intro {A S} (f : S -> A -> result S) (l : list A) (s : S) :
  (forall st x, In x l -> exists st', f st x = Ok st') ->
  exists r, foldM f l s = Ok r.
Proof.
  revert s; induction l as [|x l IH]; simpl; intros s H.
  - eexists; reflexivity.
  - destruct (H s x (or_introl eq_refl)) as [s' ->]. simpl.
    apply IH. intros; apply H; auto.
Qed.

Lemma city_merged_ok (sizes : dict nat) (ordered : list str) (cutoff : Q) :
  cutoff_valid cutoff ->
  (forall k, In k ordered -> In k (keys sizes)) ->
  exists M, city_merged sizes ordered cutoff = Ok M.
Proof.
  intros Hc Hk. rewrite city_merged_unfold. apply foldM_Ok_intro.
  intros M small Hsmall. apply in_rev in Hsmall.
  destruct (filterM_Ok_intro (anchor_test sizes small) ordered) as [a ->].
  { intros x Hx. unfold anchor_test, dict_item.
    apply Hk, dict_get_keys in Hx. apply Hk, dict_get_keys in Hsmall.
    destruct (dict_get sizes x); [|congruence].
    destruct (dict_get sizes small); [|congruence].
    eexists; reflexivity. }
  simpl. destruct (get_close_matches_ok small a cutoff Hc) as (m & -> & _).
  simpl. eexists; reflexivity.
Qed.

(** ** Root resolution *)

Lemma root_fuel_mono (M : dict str) (fuel : nat) (s r : str) :
  root fuel M s = Ok r -> forall fuel', fuel <= fuel' -> root fuel' M s = Ok r.
Proof.
  revert s; induction fuel as [|fuel IH]; simpl; intros s H fuel' Hle;
    [discriminate|].
  destruct fuel' as [|fuel']; [lia|]. simpl.
  destruct (dict_get M s); [|exact H]. apply IH; [exact H | lia].
Qed.

Lemma root_fuel_indep (M : dict str) (f1 f2 : nat) (s r1 r2 : str) :
  root f1 M s = Ok r1 -> root f2 M s = Ok r2 -> r1 = r2.
Proof.
  intros H1 H2.
  apply root_fuel_mono with (fuel' := Nat.max f1 f2) in H1; [|lia].
  apply root_fuel_mono with (fuel' := Nat.max f1 f2) in H2; [|lia].
  congruence.
Qed.

Lemma root_cases (M : dict str) (fuel : nat) (s : str) :
  (exists r, root fuel M s = Ok r /\ dict_get M r = None)
  \/ root fuel M s = OutOfFuel.
Proof.
  revert s; induction fuel as [|fuel IH]; simpl; intros s; [auto|].
  destruct (dict_get M s) eqn:E; [apply IH|]. left; eauto.
Qed.

Lemma root_of_root (M : dict str) (fuel : nat) (s : str) :
  dict_get M s = None -> root (S fuel) M s = Ok s.
Proof. simpl. intros ->. reflexivity. Qed.

Lemma city_final_disp_unfold (fuel : nat) (M D : dict str) :
  city_final_disp fuel M D = mapM (final_entry fuel M D) (keys D).
Proof. reflexivity. Qed.

Lemma final_entry_key (fuel : nat) (M D : dict str) (x : str) (e : str * str) :
  final_entry fuel M D x = Ok e -> fst e = x.
Proof.
  unfold final_entry. intros H. inv_bind H. inv_bind H.
  injection H as <-. reflexivity.
Qed.

Lemma city_final_disp_get (fuel : nat) (M D FD : dict str) (s : str) :
  city_final_disp fuel M D = Ok FD -> In s (keys D) ->
  exists r d0, root fuel M s = Ok r /\ dict_get D s = Some d0
    /\ dict_get FD s = Some (match dict_get D r with
                             | Some d => d
                             | None => d0
                             end).
Proof.
  rewrite city_final_disp_unfold. intros H Hin.
  apply mapM_Ok_inv in H.
  destruct (Forall2_dict_get _ _ _ H (final_entry_key fuel M D) _ Hin)
    as (e & He & Hget).
  unfold final_entry in He. inv_bind He. inv_bind He. injection He as <-.
  unfold dict_item in Ha0. destruct (dict_get D s) eqn:E; [|discriminate].
  injection Ha0 as <-. eauto.
Qed.

Lemma city_final_disp_keys (fuel : nat) (M D FD : dict str) :
  city_final_disp fuel M D = Ok FD -> keys FD = keys D.
Proof.
  rewrite city_final_disp_unfold. intros H. apply mapM_Ok_inv in H.
  exact (Forall2_keys _ _ _ H (final_entry_key fuel M D)).
Qed.

Lemma mapM_cases {A B} (f : A -> result B) (l : list A) :
  (forall x, In x l -> (exists y, f x = Ok y) \/ f x = OutOfFuel) ->
  (exists ys, mapM f l = Ok ys)
  \/ (mapM f l = OutOfFuel /\ exists x, In x l /\ f x = OutOfFuel).
Proof.
  induction l as [|x l IH]; simpl; intros H.
  - left; eexists; reflexivity.
  - assert (IH' := IH (fun z Hz => H z (or_intror Hz))). clear IH.
    destruct (H x (or_introl eq_refl)) as [[y Hy]|Hy]; rewrite Hy; simpl.
    + destruct IH' as [[ys Hys]|[Hys (z & Hz & Hf)]]; rewrite Hys; simpl.
      * left; eexists; reflexivity.
      * right; split; [reflexivity|]. exists z; auto.
    + right; split; [reflexivity|]. exists x; auto.
Qed.

Lemma city_final_disp_cases (fuel : nat) (M D : dict str) :
  (exists FD, city_final_disp fuel M D = Ok FD)
  \/ (city_final_disp fuel M D = OutOfFuel
      /\ exists s, In s (keys D) /\ root fuel M s = OutOfFuel).
Proof.
  rewrite city_final_disp_unfold.
  destruct (mapM_cases (final_entry fuel M D) (keys D)) as [H|[H (s & Hs & Hf)]].
  - intros s Hs. unfold final_entry, dict_item.
    apply dict_get_keys in Hs.
    destruct (root_cases M fuel s) as [(r & -> & _)| ->]; simpl; [|auto].
    destruct (dict_get D s); [|congruence]. simpl. left; eexists; reflexivity.
  - auto.
  - right; split; [exact H|]. exists s; split; [exact Hs|].
    unfold final_entry in Hf.
    destruct (root_cases M fuel s) as [(r & Hr & _)|Hr]; [|exact Hr].
    rewrite Hr in Hf. simpl in Hf. unfold dict_item in Hf.
    apply dict_get_keys in Hs. destruct (dict_get D s); [discriminate|congruence].
Qed.

(** ** The mapping *)

Lemma city_mapping_unfold (tmp : list row) (FD : dict str) :
  city_mapping tmp FD = foldM (mapping_step FD) tmp [].
Proof. reflexivity. Qed.

Lemma mapping_loop_spec (FD : dict str) (l : list row) (m0 m : dict str) :
  foldM (mapping_step FD) l m0 = Ok m ->
  forall k,
    (exists r, In r l /\ nonempty (basic r) = true /\ raw r = k
               /\ dict_get m k = dict_get FD (sig r)
               /\ dict_get m k <> None)
    \/ ((forall r, In r l -> nonempty (basic r) = true -> raw r <> k)
        /\ dict_get m k = dict_get m0 k).
Proof.
  revert m0; induction l as [|r0 l IH]; simpl; intros m0 H k.
  - injection H as <-. right; split; [intros ? []|reflexivity].
  - inv_bind H. destruct (IH _ H k) as [(r & Hr & Hne & Hk & Hg & Hs)|[Hno Hg]].
    + left. exists r. auto.
    + unfold mapping_step in Ha.
      destruct (nonempty (basic r0)) eqn:Hb.
      * inv_bind Ha. injection Ha as <-. rewrite dict_get_set in Hg.
        destruct (str_eqb_spec (raw r0) k) as [Hk|Hk].
        -- left. exists r0. unfold dict_item in Ha0.
           destruct (dict_get FD (sig r0)); [|discriminate].
           injection Ha0 as <-. repeat split; auto; congruence.
        -- right. split; [|exact Hg].
           intros r [<-|Hr] Hne; [exact Hk | exact (Hno r Hr Hne)].
      * injection Ha as <-. right. split; [|exact Hg].
        intros r [<-|Hr] Hne; [congruence | exact (Hno r Hr Hne)].
Qed.

Lemma city_mapping_ok (tmp : list row) (FD : dict str) :
  (forall r, In r tmp -> nonempty (basic r) = true -> In (sig r) (keys FD)) ->
  exists m, city_mapping tmp FD = Ok m.
Proof.
  intros H. rewrite city_mapping_unfold. apply foldM_Ok_intro.
  intros st r Hr. unfold mapping_step, dict_item.
  destruct (nonempty (basic r)) eqn:Hb; [|eexists; reflexivity].
  apply H, dict_get_keys in Hr; [|exact Hb].
  destruct (dict_get FD (sig r)); [|congruence]. eexists; reflexivity.
Qed.

Lemma city_rows_fun (U : unicode) (col : list cell) (r : row) :
  In r (city_rows U col) ->
  basic r = _basic_city_clean U (raw r)
  /\ sig r = _letters_only_signature (basic r).
Proof.
  unfold city_rows. intros H. apply in_map_iff in H.
  destruct H as (c & <- & _). unfold city_row. simpl. auto.
Qed.

Lemma city_rows_same_raw (U : unicode) (col : list cell) (r r' : row) :
  In r (city_rows U col) -> In r' (city_rows U col) ->
  raw r = raw r' -> r = r'.
Proof.
  intros H H' Hraw.
  destruct (city_rows_fun _ _ _ H) as [Hb Hs].
  destruct (city_rows_fun _ _ _ H') as [Hb' Hs'].
  destruct r, r'; simpl in *. congruence.
Qed.

(** ** The plan of a column *)

Lemma sig_to_disp_spec (U : unicode) (groups : dict (list str)) (D : dict str) :
  mapM (fun g => d <- _choose_display_form U (snd g) ;; Ok (fst g, d)) groups
  = Ok D ->
  keys D = keys groups
  /\ forall s l, dict_get groups s = Some l ->
       exists d, _choose_display_form U l = Ok d /\ dict_get D s = Some d.
Proof.
  intros H. apply mapM_Ok_inv in H.
  induction H as [|[s0 l0] e groups D H0 H [IHk IHg]]; simpl.
  - split; [reflexivity | discriminate].
  - simpl in H0. inv_bind H0. injection H0 as <-. simpl. split.
    + f_equal. exact IHk.
    + intros s l. destruct (str_eqb s0 s); [|apply IHg].
      intros [= <-]. eauto.
Qed.

Lemma city_sizes_keys (groups : dict (list str)) :
  keys (city_sizes groups) = keys groups.
Proof. unfold city_sizes, keys. rewrite map_map. reflexivity. Qed.

Lemma city_plan_inv (U : unicode) (col : list cell) (cutoff : Q)
    (p : list row * dict str * dict str) :
  city_plan U col cutoff = Ok p ->
  fst (fst p) = city_rows U col
  /\ keys (snd (fst p)) = keys (city_groups (city_rows U col))
  /\ (forall s l, dict_get (city_groups (city_rows U col)) s = Some l ->
        exists d, _choose_display_form U l = Ok d
                  /\ dict_get (snd (fst p)) s = Some d)
  /\ exists ordered,
       city_ordered (city_sizes (city_groups (city_rows U col))) = Ok ordered
       /\ city_merged (city_sizes (city_groups (city_rows U col)))
            ordered cutoff = Ok (snd p).
Proof.
  unfold city_plan. intros H. inv_bind H. inv_bind H. inv_bind H.
  injection H as <-. simpl.
  destruct (sig_to_disp_spec _ _ _ Ha) as [Hk Hg].
  repeat split; auto. exists a0. auto.
Qed.

Lemma city_plan_ok (U : unicode) (col : list cell) (cutoff : Q) :
  cutoff_valid cutoff -> exists p, city_plan U col cutoff = Ok p.
Proof.
  intros Hc. unfold city_plan.
  destruct (mapM_Ok_intro
              (fun g => d <- _choose_display_form U (snd g) ;; Ok (fst g, d))
              (city_groups (city_rows U col))) as [D ->].
  { intros [s l] Hin. apply city_groups_In in Hin. destruct Hin as [_ Hne].
    destruct (choose_display_form_ok U l Hne) as [d Hd].
    simpl. rewrite Hd. eexists; reflexivity. }
  simpl. fold (city_sizes (city_groups (city_rows U col))).
  destruct (city_ordered_ok (city_sizes (city_groups (city_rows U col))))
    as (o & -> & Ho).
  simpl.
  destruct (city_merged_ok (city_sizes (city_groups (city_rows U col)))
              o cutoff Hc) as [M ->].
  { intros k Hk. apply Ho, Hk. }
  simpl. eexists; reflexivity.
Qed.

Lemma build_city_canon_spec (U : unicode) (fuel : nat) (col : list cell)
    (cutoff : Q) (m : dict str) :
  build_city_canon U fuel col cutoff = Ok m ->
  exists D M FD,
    city_plan U col cutoff = Ok (city_rows U col, D, M)
    /\ city_final_disp fuel M D = Ok FD
    /\ (forall r, In r (city_rows U col) -> nonempty (basic r) = true ->
          dict_get m (raw r) = dict_get FD (sig r)
          /\ dict_get m (raw r) <> None)
    /\ (forall k,
          (forall r, In r (city_rows U col) -> nonempty (basic r) = true ->
                     raw r <> k) ->
          dict_get m k = None).
Proof.
  rewrite build_city_canon_plan. intros H. inv_bind H. inv_bind H.
  destruct a as [[tmp D] M]. simpl in *.
  destruct (city_plan_inv _ _ _ _ Ha) as (Htmp & _). simpl in Htmp. subst tmp.
  exists D, M, a0. repeat split; auto.
  - destruct (mapping_loop_spec _ _ _ _ H (raw r))
      as [(r' & Hr' & Hne' & Hraw & Hg & Hs)|[Hno _]].
    + rewrite Hg. f_equal. f_equal.
      apply (city_rows_same_raw U col); auto.
    + exfalso. exact (Hno r H0 H1 eq_refl).
  - destruct (mapping_loop_spec _ _ _ _ H (raw r))
      as [(r' & Hr' & Hne' & Hraw & Hg & Hs)|[Hno _]].
    + exact Hs.
    + exfalso. exact (Hno r H0 H1 eq_refl).
  - intros k Hk.
    destruct (mapping_loop_spec _ _ _ _ H k)
      as [(r' & Hr' & Hne' & Hraw & Hg & Hs)|[_ Hg]].
    + exfalso. exact (Hk r' Hr' Hne' Hraw).
    + exact Hg.
Qed.

(** [build_city_canon] never raises, and it returns as soon as the loop of
    [root] ends for the signature of every cluster. *)
Lemma build_city_canon_cases (U : unicode) (fuel : nat) (col : list cell)
    (cutoff : Q) :
  cutoff_valid cutoff ->
  (exists m, build_city_canon U fuel col cutoff = Ok m)
  \/ root_unfinished U fuel col cutoff.
Proof.
  intros Hc. unfold root_unfinished.
  rewrite build_city_canon_plan. unfold city_merge_edges.
  destruct (city_plan_ok U col cutoff Hc) as [[[tmp D] M] Hp].
  rewrite Hp. simpl.
  destruct (city_plan_inv _ _ _ _ Hp) as (Htmp & Hk & _). simpl in *.
  subst tmp.
  destruct (city_final_disp_cases fuel M D) as [[FD HFD]|[HFD (s & Hs & Hr)]];
    rewrite HFD; simpl.
  - left. apply city_mapping_ok. intros r Hr Hne.
    rewrite (city_final_disp_keys _ _ _ _ HFD), Hk.
    apply dict_get_keys. destruct (row_in_group _ _ Hr Hne) as [-> _].
    discriminate.
  - right. split; [reflexivity|]. exists M, s. rewrite <- Hk. auto.
Qed.

(** ** Determinism *)

Lemma mapM_agree {A B} (f g : A -> result B) (l : list A) (y1 y2 : list B) :
  (forall x e1 e2, f x = Ok e1 -> g x = Ok e2 -> e1 = e2) ->
  mapM f l = Ok y1 -> mapM g l = Ok y2 -> y1 = y2.
Proof.
  intros Hfg. revert y1 y2; induction l as [|x l IH]; simpl; intros y1 y2 H1 H2.
  - congruence.
  - inv_bind H1. inv_bind H1. inv_bind H2. inv_bind H2.
    injection H1 as <-. injection H2 as <-. f_equal; eauto.
Qed.

Lemma city_final_disp_fuel_indep (f1 f2 : nat) (M D FD1 FD2 : dict str) :
  city_final_disp f1 M D = Ok FD1 -> city_final_disp f2 M D = Ok FD2 ->
  FD1 = FD2.
Proof.
  rewrite !city_final_disp_unfold. apply mapM_agree.
  intros x e1 e2 H1 H2. unfold final_entry in *.
  destruct (root f1 M x) as [r1| |] eqn:R1; simpl in H1; try discriminate.
  destruct (root f2 M x) as [r2| |] eqn:R2; simpl in H2; try discriminate.
  rewrite (root_fuel_indep _ _ _ _ _ _ R1 R2) in H1.
  destruct (dict_item D x); simpl in *; congruence.
Qed.

Lemma build_city_canon_fuel_indep (U : unicode) (col : list cell) (cutoff : Q)
    (f1 f2 : nat) (m1 m2 : dict str) :
  build_city_canon U f1 col cutoff = Ok m1 ->
  build_city_canon U f2 col cutoff = Ok m2 -> m1 = m2.
Proof.
  rewrite !build_city_canon_plan. intros H1 H2.
  inv_bind H1. inv_bind H1. inv_bind H2. inv_bind H2.
  assert (a = a1) by congruence. subst a1.
  assert (a0 = a2) by (eapply city_final_disp_fuel_indep; eassumption).
  congruence.
Qed.

(** ** The helpers *)

Lemma startswith_In (p s : str) (c : char) :
  startswith p s = true -> In c p -> In c s.
Proof.
  revert s; induction p as [|x p IH]; intros [|y s]; simpl;
    try discriminate; try tauto.
  rewrite andb_true_iff, N.eqb_eq. intros [-> H] [->|Hc]; auto.
Qed.

Lemma contains_In (needle hay : str) (c : char) :
  contains needle hay = true -> In c needle -> In c hay.
Proof.
  induction hay as [|y hay IH]; simpl.
  - apply startswith_In.
  - rewrite orb_true_iff. intros [H|H] Hc.
    + exact (startswith_In needle (y :: hay) c H Hc).
    + right. auto.
Qed.

Lemma encode_latin1_wide (x : str) (c : char) :
  In c x -> (255 < c)%N -> encode_latin1 x = None.
Proof.
  intros Hin Hc. unfold encode_latin1.
  destruct (forallb (fun c => N.leb c 255) x) eqn:E; [|reflexivity].
  rewrite forallb_forall in E. apply E, N.leb_le in Hin. lia.
Qed.

(** Both markers hold a character beyond U+00FF, so the Latin-1 encoding
    always fails when one of them is found: the repair never changes a
    string. *)
Lemma maybe_demojibake_id (x : str) : maybe_demojibake x = x.
Proof.
  unfold maybe_demojibake.
  destruct (contains [195; 402]%N x) eqn:E1; simpl.
  - rewrite (encode_latin1_wide x 402%N); [reflexivity| |reflexivity].
    apply (contains_In _ _ _ E1). simpl; auto.
  - destruct (contains [195; 8218]%N x) eqn:E2; [|reflexivity].
    rewrite (encode_latin1_wide x 8218%N); [reflexivity| |reflexivity].
    apply (contains_In _ _ _ E2). simpl; auto.
Qed.

(** ** Signature equivalence *)

Lemma city_row_In (U : unicode) (col : list cell) (c : cell) :
  In c col -> In (city_row U c) (city_rows U col).
Proof. apply in_map. Qed.

(** C2, amended. Whenever two values of a column have non-empty basic forms
    and equal signatures, either the mapping is returned and sends both to
    the same display string, or root resolution is left unfinished. *)
Theorem same_signature_same_canonical (U : unicode) (fuel : nat)
    (col : list cell) (cutoff : Q) (ca cb : cell) :
  cutoff_valid cutoff ->
  In ca col -> In cb col ->
  nonempty (basic (city_row U ca)) = true ->
  nonempty (basic (city_row U cb)) = true ->
  sig (city_row U ca) = sig (city_row U cb) ->
  (exists m d,
     build_city_canon U fuel col cutoff = Ok m
     /\ dict_get m (raw (city_row U ca)) = Some d
     /\ dict_get m (raw (city_row U cb)) = Some d)
  \/ root_unfinished U fuel col cutoff.
Proof.
  intros Hc Ha Hb Hna Hnb Hsig.
  destruct (build_city_canon_cases U fuel col cutoff Hc) as [[m Hm]|Hu];
    [left | right; exact Hu].
  destruct (build_city_canon_spec _ _ _ _ _ Hm) as (D & M & FD & _ & _ & Hrows & _).
  destruct (Hrows _ (city_row_In U col ca Ha) Hna) as [Ea Sa].
  destruct (Hrows _ (city_row_In U col cb Hb) Hnb) as [Eb Sb].
  destruct (dict_get m (raw (city_row U ca))) as [d|] eqn:E; [|congruence].
  exists m, d. split; [exact Hm|]. split; [exact E|].
  rewrite Eb, <- Hsig. symmetry. exact Ea.
Qed.

Lemma same_signature_same_canonical_witness :
  (exists m d,
     build_city_canon latin1 1 sao_paulo_column default_cutoff = Ok m
     /\ dict_get m (py "S" ++ [227%N] ++ py "o Paulo") = Some d
     /\ dict_get m (py "sao  paulo") = Some d)
  \/ root_unfinished latin1 1 sao_paulo_column default_cutoff.
Proof.
  apply (same_signature_same_canonical latin1 1 sao_paulo_column
           default_cutoff
           (Text (py "S" ++ [227%N] ++ py "o Paulo"))
           (Text (py "sao  paulo")));
    try (vm_compute; reflexivity); simpl; auto.
Defined.

(** C2, as stated, fails: the diaeresis U+00A8 and the acute accent U+00B4
    are non-empty values with the same (empty) signature, yet the mapping
    that is returned has no entry for either, and [clean_city] leaves the
    two values as different as they were. *)
Lemma signature_equivalence_fails_on_marks :
  build_city_canon latin1 1 diacritic_column default_cutoff = Ok []
  /\ clean_city latin1 1 diacritic_column = Ok diacritic_column
  /\ ~ signature_equivalence_as_stated latin1 1 diacritic_column.
Proof.
  split; [vm_compute; reflexivity|].
  split; [vm_compute; reflexivity|].
  intros H.
  destruct (H [] (Text [168%N]) (Text [180%N])) as (d & Hd & _);
    try (vm_compute; reflexivity); simpl; auto; try discriminate.
Qed.

(** ** The cluster of the empty signature *)

Lemma signature_without_letters (x : str) :
  existsb is_alpha x = false -> _letters_only_signature x = [].
Proof.
  unfold _letters_only_signature. induction x as [|c x IH]; simpl;
    [reflexivity|].
  rewrite orb_false_iff. unfold is_alpha. rewrite orb_false_iff.
  intros [[-> _] H]. auto.
Qed.

Lemma ratio_with_empty_word_low (cutoff : Q) (x : str) :
  Qle_bool cutoff 0 = false -> x <> [] ->
  Qle_bool cutoff (difflib.real_quick_ratio x []) = false.
Proof.
  intros Hc Hx. unfold difflib.real_quick_ratio, difflib._calculate_ratio.
  simpl length. rewrite Nat.min_0_r.
  destruct x as [|c x]; [congruence|]. simpl length.
  replace (S (length x) + 0 =? 0) with false by (symmetry; apply Nat.eqb_neq; lia).
  unfold Qle_bool in *. simpl in *.
  apply Z.leb_gt. apply Z.leb_gt in Hc. nia.
Qed.

Lemma no_close_match_of_empty_word (cutoff : Q) (poss : list str) :
  Qle_bool cutoff 0 = false ->
  (forall x, In x poss -> x <> []) ->
  forall t m, difflib.get_close_matches [] poss 1 cutoff <> Ok (t :: m).
Proof.
  intros Hc Hp t m. unfold difflib.get_close_matches. simpl.
  destruct (negb (Qle_bool 0 cutoff && Qle_bool cutoff 1)); [discriminate|].
  replace (flat_map _ poss) with (@nil (Q * str)); [simpl; discriminate|].
  symmetry. induction poss as [|x poss IH]; simpl; [reflexivity|].
  rewrite (ratio_with_empty_word_low cutoff x Hc); [|apply Hp; simpl; auto].
  simpl. apply IH. intros; apply Hp; simpl; auto.
Qed.

Lemma no_edge_from_empty_signature (sizes : dict nat) (ordered : list str)
    (cutoff : Q) (M : dict str) :
  Qle_bool cutoff 0 = false ->
  city_merged sizes ordered cutoff = Ok M -> dict_get M [] = None.
Proof.
  intros Hc HM. destruct (dict_get M []) as [t|] eqn:E; [|reflexivity].
  exfalso.
  destruct (city_merged_edge _ _ _ _ _ _ HM E) as (_ & anchors & m & Ha & Hg).
  revert Hg. apply no_close_match_of_empty_word; [exact Hc|].
  intros x Hx. destruct (filterM_Ok_inv _ _ _ Ha x Hx) as [_ Ht].
  unfold anchor_test in Ht. inv_bind Ht. inv_bind Ht. injection Ht as Ht.
  apply andb_true_iff in Ht. destruct Ht as [_ Ht].
  apply negb_true_iff, str_eqb_neq in Ht. exact Ht.
Qed.

(** Two values whose basic forms are non-empty and hold no ASCII letter
    both get the empty signature and lie in the one cluster of that
    signature; that cluster is never merged into another, so either the
    mapping is returned and sends both values to the display form chosen
    for that cluster, or root resolution (of other clusters) is left
    unfinished. *)
Lemma letterless_values_cases (U : unicode) (fuel : nat)
    (col : list cell) (ca cb : cell) :
  In ca col -> In cb col ->
  nonempty (basic (city_row U ca)) = true ->
  nonempty (basic (city_row U cb)) = true ->
  existsb is_alpha (basic (city_row U ca)) = false ->
  existsb is_alpha (basic (city_row U cb)) = false ->
  sig (city_row U ca) = [] /\ sig (city_row U cb) = []
  /\ exists vals,
       dict_get (city_groups (city_rows U col)) [] = Some vals
       /\ In (raw (city_row U ca)) vals /\ In (raw (city_row U cb)) vals
       /\ ((exists m d,
              build_city_canon U fuel col default_cutoff = Ok m
              /\ _choose_display_form U vals = Ok d
              /\ dict_get m (raw (city_row U ca)) = Some d
              /\ dict_get m (raw (city_row U cb)) = Some d)
           \/ root_unfinished U fuel col default_cutoff).
Proof.
  intros Ha Hb Hna Hnb Hla Hlb.
  assert (Sa : sig (city_row U ca) = [])
    by (apply signature_without_letters; exact Hla).
  assert (Sb : sig (city_row U cb) = [])
    by (apply signature_without_letters; exact Hlb).
  split; [exact Sa|]. split; [exact Sb|].
  destruct (row_in_group _ _ (city_row_In U col ca Ha) Hna) as [Ga Ia].
  destruct (row_in_group _ _ (city_row_In U col cb Hb) Hnb) as [_ Ib].
  rewrite Sa in Ga, Ia. rewrite Sb in Ib.
  exists (members (city_rows U col) []).
  split; [exact Ga|]. split; [exact Ia|]. split; [exact Ib|].
  destruct (build_city_canon_cases U fuel col default_cutoff eq_refl)
    as [[m Hm]|Hu]; [left | right; exact Hu].
  destruct (build_city_canon_spec _ _ _ _ _ Hm)
    as (D & M & FD & Hp & HFD & Hrows & _).
  destruct (city_plan_inv _ _ _ _ Hp) as (_ & Hk & Hg & o & _ & HM).
  simpl in Hk, Hg, HM.
  destruct (Hg _ _ Ga) as (d & Hd & HD).
  assert (Hin : In [] (keys D))
    by (apply (proj2 (dict_get_keys D [])); rewrite HD; discriminate).
  destruct (city_final_disp_get _ _ _ _ _ HFD Hin) as (r & d0 & Hr & Hd0 & Hf).
  assert (r = []).
  { pose proof (no_edge_from_empty_signature _ _ default_cutoff _ eq_refl HM)
      as Hroot.
    destruct fuel as [|fuel]; [discriminate|].
    rewrite (root_of_root _ _ _ Hroot) in Hr. congruence. }
  subst r. rewrite HD in Hf.
  exists m, d. split; [exact Hm|]. split; [exact Hd|].
  destruct (Hrows _ (city_row_In U col ca Ha) Hna) as [Ea _].
  destruct (Hrows _ (city_row_In U col cb Hb) Hnb) as [Eb _].
  rewrite Ea, Eb, Sa, Sb. auto.
Qed.

(** ** Canonical values *)

(** C3, amended. A value of the column that is already canonical there is
    returned unchanged: a trimmed, non-empty value with a non-empty basic
    form, whose signature has no outgoing merge edge (it is its own root) and
    whose cluster has the value itself as display form. *)
Theorem canonical_value_is_kept (U : unicode) (fuel : nat) (col out : list cell)
    (M : dict str) (i : nat) (v : str) :
  clean_city U fuel col = Ok out ->
  nth_error col i = Some (Text v) ->
  strip U v = v -> nonempty v = true ->
  nonempty (basic (city_row U (Text v))) = true ->
  city_merge_edges U col default_cutoff = Ok M ->
  dict_get M (sig (city_row U (Text v))) = None ->
  _choose_display_form U
    (members (city_rows U col) (sig (city_row U (Text v)))) = Ok v ->
  nth_error out i = Some (Text v).
Proof.
  intros Hc Hi Hstrip Hv Hb HM Hroot Hdisp.
  unfold clean_city in Hc. inv_bind Hc. injection Hc as <-. rename a into m.
  rewrite !nth_error_map, Hi. simpl.
  rewrite maybe_demojibake_id, Hstrip, Hv. do 2 f_equal.
  set (r := city_row U (Text v)) in *.
  assert (Hraw : raw r = v).
  { unfold r, city_row. simpl. rewrite maybe_demojibake_id. exact Hstrip. }
  assert (Hin : In r (city_rows U col))
    by (apply city_row_In, (nth_error_In _ _ Hi)).
  destruct (build_city_canon_spec _ _ _ _ _ Ha)
    as (D & M' & FD & Hp & HFD & Hrows & _).
  unfold city_merge_edges in HM. rewrite Hp in HM. simpl in HM.
  injection HM as ->.
  destruct (city_plan_inv _ _ _ _ Hp) as (_ & Hk & Hg & _). simpl in Hk, Hg.
  destruct (row_in_group _ _ Hin Hb) as [Hgrp _].
  destruct (Hg _ _ Hgrp) as (d & Hd & HD).
  assert (d = v) by congruence. subst d.
  assert (Hkey : In (sig r) (keys D))
    by (apply (proj2 (dict_get_keys D (sig r))); rewrite HD; discriminate).
  destruct (city_final_disp_get _ _ _ _ _ HFD Hkey) as (r0 & d0 & Hr0 & _ & Hf).
  assert (r0 = sig r).
  { destruct fuel as [|fuel]; [discriminate|].
    rewrite (root_of_root _ _ _ Hroot) in Hr0. congruence. }
  subst r0. rewrite HD in Hf.
  destruct (Hrows _ Hin Hb) as [E _]. rewrite Hraw, Hf in E. rewrite E.
  reflexivity.
Qed.

Lemma canonical_value_is_kept_witness :
  exists out,
    clean_city latin1 2 paris_column = Ok out
    /\ nth_error out 0 = Some (Text (py "Paris")).
Proof.
  eexists. split; [vm_compute; reflexivity|].
  apply (canonical_value_is_kept latin1 2 paris_column _ [] 0 (py "Paris"));
    vm_compute; reflexivity.
Defined.

(** C3, as stated, fails.  In [kensington_column] the cluster of
    "Kensingtonabc" (3 values) is smaller than that of "Kensingtoncac"
    (4 values), so it is no anchor for it, and "Kensingtoncac" is no close
    match for "Kensingtonabc" (ratio 22/26): the two stay apart, while
    "Kensingtonabcs" (2 values) is merged into "Kensingtonabc".  In the
    cleaned column "Kensingtonabc" occurs 5 times; it is now an anchor for
    "Kensingtoncac" and a close match (ratio 24/26, the matcher is not
    symmetric), so the second cleaning rewrites the four values left. *)
Lemma cleaning_twice_differs :
  clean_city latin1 3 kensington_column = Ok kensington_once
  /\ clean_city latin1 3 kensington_once
     = Ok (repeat (Text (py "Kensingtonabc")) 9)
  /\ ~ idempotent_as_stated latin1 3 kensington_column.
Proof.
  assert (H1 : clean_city latin1 3 kensington_column = Ok kensington_once)
    by (vm_compute; reflexivity).
  assert (H2 : clean_city latin1 3 kensington_once
               = Ok (repeat (Text (py "Kensingtonabc")) 9))
    by (vm_compute; reflexivity).
  split; [exact H1|]. split; [exact H2|].
  intros H. specialize (H _ H1). rewrite H2 in H. discriminate.
Qed.

(** ** The display form of a cluster *)

Lemma Counter_snoc (l : list str) (x : str) :
  Counter (l ++ [x]) = counter_add (Counter l) x.
Proof. unfold Counter. rewrite fold_left_app. reflexivity. Qed.

Lemma occurrences_snoc (k x : str) (l : list str) :
  occurrences k (l ++ [x])
  = occurrences k l + (if str_eqb k x then 1 else 0).
Proof.
  unfold occurrences. rewrite filter_app, length_app. simpl.
  destruct (str_eqb k x); reflexivity.
Qed.

Lemma occurrences_zero (x : str) (l : list str) :
  occurrences x l = 0 <-> ~ In x l.
Proof.
  unfold occurrences. induction l as [|y l IH]; simpl; [tauto|].
  destruct (str_eqb_spec x y) as [->|Hne]; simpl.
  - split; [discriminate | intros H; exfalso; auto].
  - rewrite IH. split; [intros H [E|E]; [congruence | auto] | auto].
Qed.

Lemma Counter_get (l : list str) (k : str) :
  dict_get (Counter l) k
  = match occurrences k l with 0 => None | n => Some n end.
Proof.
  induction l as [|x l IH] using rev_ind; [reflexivity|].
  rewrite Counter_snoc, occurrences_snoc. unfold counter_add.
  rewrite dict_get_upsert.
  destruct (str_eqb_spec x k) as [->|Hne].
  - rewrite IH, str_eqb_refl.
    destruct (occurrences k l) as [|n]; simpl; [reflexivity|].
    rewrite !Nat.add_1_r. reflexivity.
  - rewrite IH. destruct (str_eqb_spec k x); [congruence|].
    rewrite Nat.add_0_r. reflexivity.
Qed.

Lemma Counter_NoDup (l : list str) : NoDup (keys (Counter l)).
Proof.
  induction l as [|x l IH] using rev_ind; [constructor|].
  rewrite Counter_snoc. apply NoDup_keys_upsert, IH.
Qed.

Lemma Counter_keys (l : list str) (x : str) :
  In x (keys (Counter l)) <-> In x l.
Proof.
  rewrite dict_get_keys, Counter_get.
  destruct (occurrences x l) eqn:E.
  - apply occurrences_zero in E. split; [congruence | tauto].
  - split; [|discriminate]. intros _.
    destruct (in_dec (list_eq_dec N.eq_dec) x l) as [H|H]; [exact H|].
    apply occurrences_zero in H. congruence.
Qed.

(** The keys of a [Counter] come in the order of first occurrence. *)
Lemma Counter_order (l : list str) (K1 K2 : list str) (k : str) :
  keys (Counter l) = K1 ++ k :: K2 ->
  exists l1 l2, l = l1 ++ k :: l2 /\ ~ In k l1
                /\ forall x, In x l1 -> In x K1.
Proof.
  revert K1 K2. induction l as [|x l IH] using rev_ind; intros K1 K2 H.
  - destruct K1; discriminate.
  - rewrite Counter_snoc in H. unfold counter_add in H.
    rewrite keys_upsert in H. unfold dict_mem in H.
    destruct (dict_get (Counter l) x) eqn:E.
    + destruct (IH _ _ H) as (l1 & l2 & -> & Hn & Hs).
      exists l1, (l2 ++ [x]). rewrite <- app_assoc. simpl. auto.
    + destruct K2 as [|z K2] using rev_ind.
      * apply app_inj_tail in H. destruct H as [HK ->].
        apply dict_get_None_keys in E. exists l, []. split; [reflexivity|].
        split; [rewrite <- Counter_keys; exact E|].
        intros y Hy. rewrite <- HK. apply Counter_keys, Hy.
      * clear IHK2.
        change (K1 ++ k :: K2 ++ [z]) with (K1 ++ (k :: K2) ++ [z]) in H.
        rewrite app_assoc in H. apply app_inj_tail in H. destruct H as [HK _].
        destruct (IH _ _ HK) as (l1 & l2 & -> & Hn & Hs).
        exists l1, (l2 ++ [x]). rewrite <- app_assoc. simpl. auto.
Qed.

(** [max] keeps the first of the items with the largest count. *)
Lemma max_from_first (b : str * nat) (l : list (str * nat)) :
  exists c1 c2,
    b :: l = c1 ++ max_from (fun p q => snd q <? snd p) b l :: c2
    /\ (forall x, In x c1 ->
          snd x < snd (max_from (fun p q => snd q <? snd p) b l))
    /\ (forall x, In x c2 ->
          snd x <= snd (max_from (fun p q => snd q <? snd p) b l)).
Proof.
  revert b. induction l as [|x l IH]; intros b; simpl.
  - exists [], []. simpl. repeat split; intros ? [].
  - destruct (snd b <? snd x) eqn:E.
    + apply Nat.ltb_lt in E.
      destruct (IH x) as (c1 & c2 & Heq & H1 & H2).
      remember (max_from (fun p q => snd q <? snd p) x l) as top.
      exists (b :: c1), c2. split; [simpl; rewrite <- Heq; reflexivity|].
      split; [|exact H2]. intros y [<-|Hy]; [|auto].
      destruct c1 as [|z c1]; simpl in Heq; injection Heq as Hx Hl.
      * rewrite <- Hx. exact E.
      * subst z. specialize (H1 x (or_introl eq_refl)). lia.
    + apply Nat.ltb_ge in E.
      destruct (IH b) as (c1 & c2 & Heq & H1 & H2).
      remember (max_from (fun p q => snd q <? snd p) b l) as top.
      destruct c1 as [|z c1]; simpl in Heq; injection Heq as Hb Hl.
      * exists [], (x :: c2). simpl. rewrite <- Hb, Hl.
        split; [reflexivity|]. split; [intros ? []|].
        intros y [<-|Hy]; [exact E | rewrite Hb; auto].
      * subst z. exists (b :: x :: c1), c2. simpl. rewrite Hl.
        split; [reflexivity|]. split; [|exact H2].
        pose proof (H1 b (or_introl eq_refl)) as Hbt.
        intros y [<-|[<-|Hy]]; [exact Hbt | lia | apply H1; right; exact Hy].
Qed.

Lemma Counter_entry (l : list str) (x : str) (n : nat) :
  In (x, n) (Counter l) <-> occurrences x l = n /\ n <> 0.
Proof.
  split.
  - intros H. apply NoDup_keys_In in H; [|apply Counter_NoDup].
    rewrite Counter_get in H. destruct (occurrences x l); [discriminate|].
    injection H as <-. auto.
  - intros [<- Hn]. apply dict_get_In. rewrite Counter_get.
    destruct (occurrences x l); [congruence | reflexivity].
Qed.

Lemma choose_display_form_spec (U : unicode) (cands : list str) :
  cands <> [] ->
  exists top,
    first_mode top cands
    /\ _choose_display_form U cands
       = Ok (if existsb is_AZ top then top else title U top).
Proof.
  intros Hne. unfold _choose_display_form, most_common_1.
  pose proof (Counter_entry cands) as Hentry.
  pose proof (Counter_order cands) as Horder.
  destruct (Counter cands) as [|b c] eqn:EC.
  { exfalso. destruct cands as [|x l]; [congruence|].
    unfold Counter in EC. simpl in EC.
    exact (fold_counter_nonempty l _ (dict_upsert_nonempty _ _ _) EC). }
  simpl py_max.
  destruct (max_from_first b c) as (c1 & c2 & Heq & H1 & H2).
  destruct (max_from (fun p q => snd q <? snd p) b c) as [top n].
  simpl in H1, H2. exists top. split; [|reflexivity].
  assert (Htop : occurrences top cands = n).
  { apply (Hentry top n). rewrite Heq. apply in_elt. }
  split.
  - intros x. destruct (occurrences x cands) as [|k] eqn:Ex; [lia|].
    assert (Hin : In (x, S k) (b :: c)) by (apply Hentry; auto).
    rewrite Heq in Hin. apply in_app_or in Hin.
    destruct Hin as [Hin|[[= _ <-]|Hin]].
    + specialize (H1 _ Hin). simpl in H1. lia.
    + lia.
    + specialize (H2 _ Hin). simpl in H2. lia.
  - destruct (Horder (keys c1) (keys c2) top) as (l1 & l2 & -> & Hn & Hs).
    { rewrite Heq. unfold keys. rewrite map_app. reflexivity. }
    exists l1, l2. split; [reflexivity|]. split; [exact Hn|].
    intros x Hx. apply Hs in Hx. unfold keys in Hx.
    apply in_map_iff in Hx. destruct Hx as ([x' k] & <- & Hin). simpl.
    assert (Hk : occurrences x' (l1 ++ top :: l2) = k).
    { apply (Hentry x' k). rewrite Heq. apply in_or_app. left. exact Hin. }
    specialize (H1 _ Hin). simpl in H1. lia.
Qed.

(** C5. The display form of every cluster of a column is computed from the
    values of that cluster alone, in input order: its most frequent value,
    the first one among equally frequent values, kept as it is when it holds
    a letter [A-Z] and title-cased otherwise. *)
Theorem display_form_is_first_mode (U : unicode) (col : list cell)
    (s : str) (vals : list str) :
  In (s, vals) (city_groups (city_rows U col)) ->
  vals = members (city_rows U col) s
  /\ exists top,
       first_mode top vals
       /\ (existsb is_AZ top = true ->
           _choose_display_form U vals = Ok top)
       /\ (existsb is_AZ top = false ->
           _choose_display_form U vals = Ok (title U top)).
Proof.
  intros H. apply city_groups_In in H. destruct H as [Hm Hne].
  split; [exact Hm|].
  destruct (choose_display_form_spec U vals Hne) as (top & Hmode & Hc).
  exists top. split; [exact Hmode|].
  split; intros E; rewrite E in Hc; exact Hc.
Qed.

Lemma display_form_is_first_mode_witness :
  In (py "stockholm", [py "stockholm"; py "Stockholm"; py "stockholm"])
     (city_groups (city_rows latin1 stockholm_column))
  /\ exists top,
       first_mode top [py "stockholm"; py "Stockholm"; py "stockholm"]
       /\ (existsb is_AZ top = true ->
           _choose_display_form latin1
             [py "stockholm"; py "Stockholm"; py "stockholm"] = Ok top)
       /\ (existsb is_AZ top = false ->
           _choose_display_form latin1
             [py "stockholm"; py "Stockholm"; py "stockholm"]
           = Ok (title latin1 top)).
Proof.
  assert (H : In (py "stockholm",
                  [py "stockholm"; py "Stockholm"; py "stockholm"])
                 (city_groups (city_rows latin1 stockholm_column)))
    by (vm_compute; auto).
  split; [exact H|].
  exact (proj2 (display_form_is_first_mode latin1 stockholm_column _ _ H)).
Defined.

(** C5, as stated, fails: the only value of its cluster, "Örebro län",
    contains an uppercase letter and is title-cased all the same, since the
    capital is not among A-Z. *)
Lemma display_form_ignores_other_capitals :
  In (py "orebrolan", [orebro_lan])
     (city_groups (city_rows latin1 [Text orebro_lan]))
  /\ existsb is_uppercase orebro_lan = true
  /\ _choose_display_form latin1 [orebro_lan] = Ok orebro_lan_title
  /\ build_city_canon latin1 1 [Text orebro_lan] default_cutoff
     = Ok [(orebro_lan, orebro_lan_title)]
  /\ ~ display_form_as_stated latin1 [orebro_lan].
Proof.
  split; [vm_compute; auto|]. split; [reflexivity|].
  split; [vm_compute; reflexivity|]. split; [vm_compute; reflexivity|].
  intros H. specialize (H orebro_lan).
  assert (M : first_mode orebro_lan [orebro_lan]).
  { split.
    - intros x.
      replace (occurrences orebro_lan [orebro_lan]) with 1 by reflexivity.
      unfold occurrences. cbn [filter].
      destruct (str_eqb x orebro_lan); simpl; lia.
    - exists [], []. repeat split; auto. intros x []. }
  specialize (H M). vm_compute in H. discriminate.
Qed.

(** ** phone *)

(** C7, amended. For country "Sweden" the phone "08-123 456" is cleaned to
    "(+46) 08123456": the digits are kept as they are, the leading 0
    included, and the dial code is put in front; a number that already starts
    with the dial code has it stripped first. *)
Theorem sweden_phone_keeps_leading_zero :
  clean_phone_value latin1 (Text (py "08-123 456")) (Text (py "Sweden"))
  = Text (py "(+46) 08123456")
  /\ clean_phone latin1 [Text (py "08-123 456")] (Some [Text (py "Sweden")])
     = Ok [Text (py "(+46) 08123456")]
  /\ clean_phone_value latin1 (Text (py "+46 8 123 456")) (Text (py "Sweden"))
     = Text (py "(+46) 8123456")
  /\ clean_phone_value latin1 (Text (py "0046 8-123 456")) (Text (py "Sweden"))
     = Text (py "(+46) 8123456").
Proof. repeat split; vm_compute; reflexivity. Qed.

(** C7, as stated, fails: the value returned is "(+46) 08123456", which is
    not "(+46) 8123456". *)
Lemma sweden_phone_not_as_stated :
  clean_phone_value latin1 (Text (py "08-123 456")) (Text (py "Sweden"))
  = Text (py "(+46) 08123456")
  /\ clean_phone_value latin1 (Text (py "08-123 456")) (Text (py "Sweden"))
     <> Text (py "(+46) 8123456").
Proof. split; vm_compute; [reflexivity | discriminate]. Qed.

(** ** date *)

Lemma parse_one_text (U : unicode) (P : date_env) (s : str) :
  parse_one U P (Text s) = parse_loop P (date_text U (Text s)) [false; true].
Proof. reflexivity. Qed.

(** C6, amended. [parse_one] tries the month-first reading, then the
    day-first one, and takes the first that parses; the value is missing when
    the year of that reading is beyond the current year plus 50, or when
    neither parses.  With the parser of numeric dates, "31/12/2020" and
    "12/31/2020" both give "2020-12-31", and a date of year 2090 is missing
    as long as the current year is before 2040. *)
Theorem date_tries_month_first (U : unicode) (P : date_env) (s : str)
    (r : option timestamp) :
  first_reading P (date_text U (Text s)) = r ->
  parse_one U P (Text s)
  = match r with
    | Some dt => if (now_year P + 50 <? year dt)%Z then None else Some dt
    | None => None
    end
  /\ parse_one U P NaN = None /\ parse_one U P PyNone = None
  /\ (forall y, (1970 <= y)%Z ->
        clean_date_value latin1 (numeric_env y) (Text (py "31/12/2020"))
        = Text (py "2020-12-31")
        /\ clean_date_value latin1 (numeric_env y) (Text (py "12/31/2020"))
           = Text (py "2020-12-31"))
  /\ (forall y, (y + 50 < 2090)%Z ->
        clean_date_value latin1 (numeric_env y) (Text (py "01/01/2090")) = NaN).
Proof.
  intros H. split; [|split; [reflexivity|split; [reflexivity|split]]].
  - rewrite parse_one_text. subst r. unfold first_reading. simpl.
    destruct (to_datetime P (date_text U (Text s)) false); [reflexivity|].
    destruct (to_datetime P (date_text U (Text s)) true); reflexivity.
  - intros y Hy. unfold clean_date_value. rewrite !parse_one_text.
    replace (date_text latin1 (Text (py "31/12/2020"))) with (py "31/12/2020")
      by (vm_compute; reflexivity).
    replace (date_text latin1 (Text (py "12/31/2020"))) with (py "12/31/2020")
      by (vm_compute; reflexivity).
    unfold parse_loop, numeric_env, to_datetime, now_year.
    replace (NumericDates.parse (py "31/12/2020") false)
      with (Some {| year := 2020; month := 12; day := 31 |})
      by (vm_compute; reflexivity).
    replace (NumericDates.parse (py "12/31/2020") false)
      with (Some {| year := 2020; month := 12; day := 31 |})
      by (vm_compute; reflexivity).
    cbn [year].
    replace (y + 50 <? 2020)%Z with false by (symmetry; apply Z.ltb_ge; lia).
    split; vm_compute; reflexivity.
  - intros y Hy. unfold clean_date_value. rewrite parse_one_text.
    replace (date_text latin1 (Text (py "01/01/2090"))) with (py "01/01/2090")
      by (vm_compute; reflexivity).
    unfold parse_loop, numeric_env, to_datetime, now_year.
    replace (NumericDates.parse (py "01/01/2090") false)
      with (Some {| year := 2090; month := 1; day := 1 |})
      by (vm_compute; reflexivity).
    cbn [year].
    replace (y + 50 <? 2090)%Z with true by (symmetry; apply Z.ltb_lt; lia).
    reflexivity.
Qed.

Lemma date_tries_month_first_witness :
  first_reading (numeric_env 2026) (date_text latin1 (Text (py "01/02/2020")))
  = Some {| year := 2020; month := 1; day := 2 |}
  /\ parse_one latin1 (numeric_env 2026) (Text (py "01/02/2020"))
     = Some {| year := 2020; month := 1; day := 2 |}.
Proof.
  split; [vm_compute; reflexivity|].
  exact (proj1 (date_tries_month_first latin1 (numeric_env 2026)
                  (py "01/02/2020")
                  (Some {| year := 2020; month := 1; day := 2 |})
                  eq_refl)).
Defined.

(** Neither reading parses, or the value is missing to begin with: the
    result is missing. *)
Lemma date_missing_when_unparsed (U : unicode) (P : date_env) (x : cell) :
  to_datetime P (date_text U x) false = None ->
  to_datetime P (date_text U x) true = None ->
  parse_one U P x = None.
Proof.
  intros H1 H2. destruct x as [s| | |]; try reflexivity.
  - change (parse_loop P (date_text U (Text s)) [false; true] = None).
    simpl. rewrite H1, H2. reflexivity.
  - change (parse_loop P (date_text U NA) [false; true] = None).
    simpl. rewrite H1, H2. reflexivity.
Qed.

Lemma date_year_bound (U : unicode) (P : date_env) (x : cell) (dt : timestamp) :
  parse_one U P x = Some dt -> (year dt <= now_year P + 50)%Z.
Proof.
  assert (L : forall t flags, parse_loop P t flags = Some dt ->
                              (year dt <= now_year P + 50)%Z).
  { intros t flags. induction flags as [|f flags IH]; simpl; [discriminate|].
    destruct (to_datetime P t f) as [d|]; [|exact IH].
    destruct (now_year P + 50 <? year d)%Z eqn:E; [discriminate|].
    intros [= <-]. apply Z.ltb_ge in E. exact E. }
  destruct x as [s| | |]; try discriminate.
  - exact (L (date_text U (Text s)) [false; true]).
  - exact (L (date_text U NA) [false; true]).
Qed.

(** C6, as stated, fails: "01/02/2020" reads as 2 January 2020, while the
    day-first priority of the claim gives 1 February 2020. *)
Lemma day_first_priority_fails :
  clean_date_value latin1 (numeric_env 2026) (Text (py "01/02/2020"))
  = Text (py "2020-01-02")
  /\ parse_one_day_first latin1 (numeric_env 2026) (Text (py "01/02/2020"))
     = Some {| year := 2020; month := 2; day := 1 |}
  /\ ~ day_first_priority_as_stated latin1 (numeric_env 2026).
Proof.
  split; [vm_compute; reflexivity|]. split; [vm_compute; reflexivity|].
  intros H. specialize (H (Text (py "01/02/2020"))).
  vm_compute in H. discriminate.
Qed.

(** ** price *)

Lemma rfind_index (c : char) (t : str) (st : Z * Z) :
  snd (fold_left (rfind_step c) t st) = (snd st + Z.of_nat (length t))%Z.
Proof.
  revert st. induction t as [|x t IH]; intros st; simpl; [lia|].
  rewrite IH. simpl. lia.
Qed.

Lemma rfind_snoc (c x : char) (t : str) :
  rfind c (t ++ [x])
  = if N.eqb x c then Z.of_nat (length t) else rfind c t.
Proof.
  unfold rfind. rewrite fold_left_app. simpl.
  rewrite rfind_index. reflexivity.
Qed.

Lemma rightmost_separator_snoc (x : char) (t : str) :
  rightmost_separator (t ++ [x])
  = if is_separator x then Some x else rightmost_separator t.
Proof. unfold rightmost_separator. rewrite rev_app_distr. reflexivity. Qed.

(** [rfind] and the right-most separator tell the same story. *)
Lemma rfind_rightmost (t : str) :
  (-1 <= rfind 44%N t < Z.of_nat (length t))%Z
  /\ (-1 <= rfind 46%N t < Z.of_nat (length t))%Z
  /\ match rightmost_separator t with
     | None => existsb is_comma t = false /\ existsb is_dot t = false
     | Some c =>
         (c = 44%N /\ existsb is_comma t = true /\ (rfind 46%N t < rfind 44%N t)%Z)
         \/ (c = 46%N /\ existsb is_dot t = true
             /\ (rfind 44%N t < rfind 46%N t)%Z)
     end.
Proof.
  induction t as [|x t (H44 & H46 & IH)] using rev_ind.
  - vm_compute. repeat split; congruence.
  - rewrite !rfind_snoc, rightmost_separator_snoc, length_app, !existsb_app.
    simpl length. unfold is_separator, is_comma, is_dot. simpl existsb.
    destruct (N.eqb_spec x 44) as [->|N44]; simpl.
    + rewrite orb_true_r. split; [lia|]. split; [lia|].
      left. split; [reflexivity|]. split; [reflexivity | lia].
    + destruct (N.eqb_spec x 46) as [->|N46]; simpl.
      * rewrite orb_true_r. split; [lia|]. split; [lia|].
        right. split; [reflexivity|]. split; [reflexivity | lia].
      * rewrite !orb_false_r. split; [lia|]. split; [lia|]. exact IH.
Qed.

Lemma replace_char_same (c : char) (t : str) : replace_char c c t = t.
Proof.
  unfold replace_char. induction t as [|x t IH]; simpl; [reflexivity|].
  rewrite IH. destruct (N.eqb_spec x c); congruence.
Qed.

Lemma take_until_Forall (sep : char -> bool) (P : char -> Prop) (l : str) :
  Forall P l -> Forall (fun c => P c /\ sep c = false) (take_until sep l).
Proof.
  induction 1 as [|c l Hc Hl IH]; simpl; [constructor|].
  destruct (sep c) eqn:E; constructor; auto.
Qed.

Lemma after_last_Forall (sep : char -> bool) (P : char -> Prop) (t : str) :
  Forall P t -> Forall (fun c => P c /\ sep c = false) (after_last sep t).
Proof.
  intros H. unfold after_last. apply Forall_rev, take_until_Forall, Forall_rev, H.
Qed.

Lemma filter_all {A} (p : A -> bool) (l : list A) :
  Forall (fun x => p x = true) l -> filter p l = l.
Proof.
  induction 1 as [|x l Hx Hl IH]; simpl; [reflexivity|]. rewrite Hx, IH.
  reflexivity.
Qed.

Lemma existsb_false_Forall {A} (p : A -> bool) (l : list A) :
  existsb p l = false -> Forall (fun x => p x = false) l.
Proof.
  induction l as [|x l IH]; simpl; [constructor|].
  rewrite orb_false_iff. intros [Hx Hl]. constructor; auto.
Qed.

Lemma final_group_digits (t : str) :
  Forall (fun c => is_09 c || is_comma c || is_dot c = true) t ->
  existsb is_dot t = false ->
  filter is_09 (after_last is_comma t) = after_last is_comma t.
Proof.
  intros Hchars Hd. apply filter_all.
  apply existsb_false_Forall in Hd.
  assert (H : Forall (fun c => is_09 c || is_comma c = true) t).
  { rewrite Forall_forall in *. intros c Hc.
    specialize (Hchars c Hc). specialize (Hd c Hc). simpl in Hd.
    rewrite Hd, orb_false_r in Hchars. exact Hchars. }
  eapply Forall_impl; [|apply (after_last_Forall is_comma _ t H)].
  simpl. intros c [H1 H2]. rewrite H2, orb_false_r in H1. exact H1.
Qed.

Lemma final_group_snoc (t : str) (c : char) :
  final_group (t ++ [c])
  = if is_comma c then [] else final_group t ++ [c].
Proof. unfold final_group. rewrite fold_left_app. reflexivity. Qed.

Lemma after_last_snoc (sep : char -> bool) (t : str) (c : char) :
  after_last sep (t ++ [c]) = if sep c then [] else after_last sep t ++ [c].
Proof.
  unfold after_last. rewrite rev_app_distr. simpl.
  destruct (sep c); reflexivity.
Qed.

(** The group read from the left is the one [split(",")[-1]] gives. *)
Lemma final_group_after_last (t : str) :
  final_group t = after_last is_comma t.
Proof.
  induction t as [|c t IH] using rev_ind; [reflexivity|].
  rewrite final_group_snoc, after_last_snoc, IH. reflexivity.
Qed.

Lemma amount_char_kinds (c : char) :
  is_09 c || is_comma c || is_dot c = true ->
  c = 44%N \/ c = 46%N
  \/ (is_09 c = true /\ N.eqb c 44 = false /\ N.eqb c 46 = false).
Proof.
  intros H. destruct (N.eqb_spec c 44) as [->|H44]; [auto|].
  destruct (N.eqb_spec c 46) as [->|H46]; [auto|].
  right; right. unfold is_comma, is_dot in H.
  rewrite (proj2 (N.eqb_neq c 44) H44), (proj2 (N.eqb_neq c 46) H46) in H.
  rewrite !orb_false_r in H. auto.
Qed.

Ltac amount_char_cases H :=
  destruct (amount_char_kinds _ H) as [->|[->|(? & E44 & E46)]];
  [ | | unfold is_separator, is_comma, is_dot; rewrite ?E44, ?E46 ].

Lemma treat_comma_decimal (t : str) :
  Forall (fun c => is_09 c || is_comma c || is_dot c = true) t ->
  treat_separators (Some 44%N) t
  = replace_char 44%N 46%N (remove_char 46%N t).
Proof.
  unfold replace_char, remove_char.
  induction 1 as [|c t Hc Ht IH]; [reflexivity|].
  simpl. rewrite IH. amount_char_cases Hc; simpl; try reflexivity.
  rewrite E44. reflexivity.
Qed.

Lemma treat_dot_decimal (t : str) :
  Forall (fun c => is_09 c || is_comma c || is_dot c = true) t ->
  treat_separators (Some 46%N) t = remove_char 44%N t.
Proof.
  unfold remove_char.
  induction 1 as [|c t Hc Ht IH]; [reflexivity|].
  simpl. rewrite IH. amount_char_cases Hc; reflexivity.
Qed.

Lemma treat_no_decimal (t : str) :
  Forall (fun c => is_09 c || is_comma c || is_dot c = true) t ->
  existsb is_dot t = false ->
  treat_separators None t = remove_char 44%N t.
Proof.
  unfold remove_char.
  induction 1 as [|c t Hc Ht IH]; [reflexivity|].
  simpl. intros H. apply orb_false_iff in H. destruct H as [Hd Hr].
  rewrite (IH Hr). amount_char_cases Hc; try reflexivity.
  discriminate.
Qed.

Lemma remove_absent_dot (t : str) :
  existsb is_dot t = false -> remove_char 46%N t = t.
Proof.
  intros H. apply existsb_false_Forall in H. unfold remove_char.
  apply filter_all. revert H. apply Forall_impl. intros c Hc.
  unfold is_dot in Hc. rewrite Hc. reflexivity.
Qed.

Lemma amount_separators_rule (t : str) :
  Forall (fun c => is_09 c || is_comma c || is_dot c = true) t ->
  amount_separators t = separators_rule t.
Proof.
  intros Hchars. unfold amount_separators, separators_rule.
  destruct (rfind_rightmost t) as (_ & _ & H).
  destruct (existsb is_comma t) eqn:Ec; [|reflexivity].
  destruct (existsb is_dot t) eqn:Ed; simpl.
  - destruct (rightmost_separator t) as [dec|].
    + destruct H as [(-> & _ & Hlt)|(-> & _ & Hlt)].
      * replace (rfind 46%N t <? rfind 44%N t)%Z with true
          by (symmetry; apply Z.ltb_lt; exact Hlt).
        symmetry. apply treat_comma_decimal, Hchars.
      * replace (rfind 46%N t <? rfind 44%N t)%Z with false
          by (symmetry; apply Z.ltb_ge; lia).
        symmetry. apply treat_dot_decimal, Hchars.
    + destruct H as [H _]. congruence.
  - rewrite final_group_after_last, (final_group_digits t Hchars Ed).
    destruct (length (after_last is_comma t)) as [|[|[|[|n]]]]; simpl;
      symmetry;
      try (apply treat_no_decimal; assumption);
      rewrite (treat_comma_decimal t Hchars), (remove_absent_dot t Ed);
      reflexivity.
Qed.

Lemma amount_chars_class (U : unicode) (raw : str) :
  Forall (fun c => is_09 c || is_comma c || is_dot c = true)
         (amount_chars U raw).
Proof.
  unfold amount_chars. apply Forall_forall. intros c Hc.
  apply filter_In in Hc. exact (proj2 Hc).
Qed.

(** ** The cells of [clean_total_spent] *)

Lemma combine_maps {A B C} (f : A -> B) (g : A -> C) (l : list A) :
  combine (map f l) (map g l) = map (fun x => (f x, g x)) l.
Proof. induction l as [|x l IH]; simpl; [|rewrite IH]; reflexivity. Qed.

Lemma amounts_column_cells (l : list (option pyfloat.t)) :
  amounts_column l = map (amount_cell (existsb parses l)) l.
Proof.
  unfold amounts_column. destruct (existsb parses l) eqn:E.
  - apply map_ext. intros [x|]; reflexivity.
  - apply map_ext_in. intros o Ho. destruct o as [x|]; [|reflexivity].
    assert (X : existsb parses l = true)
      by (apply existsb_exists; exists (Some x); auto).
    congruence.
Qed.

(** Every cell of the result, from its own value and from whether some value
    of the column parses. *)
Lemma clean_total_spent_cells (U : unicode) (s : list cell) :
  clean_total_spent U s
  = map (fun c =>
           total_spent_fmt
             (amount_cell
                (existsb (fun c' => parses (_normalize_amount U (astype_str c')))
                         s)
                (_normalize_amount U (astype_str c)))
             (total_spent_currency U (astype_str c))) s.
Proof.
  unfold clean_total_spent. rewrite amounts_column_cells, !map_map.
  rewrite combine_maps, map_map. simpl.
  replace (existsb parses
             (map (fun x => _normalize_amount U (astype_str x)) s))
    with (existsb (fun c' => parses (_normalize_amount U (astype_str c'))) s).
  - reflexivity.
  - induction s as [|c s IH]; simpl; [|rewrite IH]; reflexivity.
Qed.

(** A value that parses is formatted the same in every column. *)
Lemma clean_total_spent_parsed (U : unicode) (s : list cell) (i : nat)
    (c : cell) (x : pyfloat.t) :
  nth_error s i = Some c ->
  _normalize_amount U (astype_str c) = Some x ->
  nth_error (clean_total_spent U s) i
  = Some (total_spent_fmt (Amount x) (total_spent_currency U (astype_str c))).
Proof.
  intros Hi Hx. rewrite clean_total_spent_cells.
  rewrite (map_nth_error _ _ _ Hi), Hx. reflexivity.
Qed.

(** C8. The text handed to [float] follows the rule of the separators: when
    a comma and a dot both occur, the right-most separator becomes the
    decimal point and the other separator is dropped; when only commas occur,
    they become decimal points exactly when the last comma-delimited group
    has 2 or 3 digits, and are dropped otherwise.  Wherever they stand in a
    column, "1.234,56 " followed by the euro sign is cleaned to
    "1234.56 EUR" and "1,234.56" to "1234.56" without a currency; "12,50"
    and "1,234" are read with a decimal comma, "1,5" and "1,2345" with a
    grouping comma. *)
Theorem money_separator_rule (U : unicode) (raw : str) :
  amount_text U raw = separators_rule (amount_chars U raw)
  /\ forall (s : list cell) (i : nat),
       (nth_error s i = Some (Text euro_amount) ->
        nth_error (clean_total_spent latin1 s) i
        = Some (Text (py "1234.56 EUR")))
       /\ (nth_error s i = Some (Text (py "1,234.56")) ->
           nth_error (clean_total_spent latin1 s) i
           = Some (Text (py "1234.56")))
       /\ (nth_error s i = Some (Text (py "12,50")) ->
           nth_error (clean_total_spent latin1 s) i
           = Some (Text (py "12.50")))
       /\ (nth_error s i = Some (Text (py "1,234")) ->
           nth_error (clean_total_spent latin1 s) i
           = Some (Text (py "1.23")))
       /\ (nth_error s i = Some (Text (py "1,5")) ->
           nth_error (clean_total_spent latin1 s) i
           = Some (Text (py "15.00")))
       /\ (nth_error s i = Some (Text (py "1,2345")) ->
           nth_error (clean_total_spent latin1 s) i
           = Some (Text (py "12345.00"))).
Proof.
  split; [apply amount_separators_rule, amount_chars_class|].
  intros s i.
  repeat split; intros Hi;
    match type of Hi with
    | nth_error _ _ = Some ?c =>
        let o := eval vm_compute in (_normalize_amount latin1 (astype_str c)) in
        match o with
        | Some ?x =>
            rewrite (clean_total_spent_parsed latin1 s i c x Hi)
              by (vm_compute; reflexivity)
        end
    end; vm_compute; reflexivity.
Qed.

(** ** Patterns and their languages *)

Lemma nullable_sound (r : re.regex) : re.nullable r = true -> Matches r [].
Proof.
  induction r; simpl; try discriminate; intros H.
  - constructor.
  - apply andb_true_iff in H. destruct H.
    change (@nil char) with (@nil char ++ []). constructor; auto.
  - apply orb_true_iff in H. destruct H; [apply MAltL | apply MAltR]; auto.
  - constructor.
Qed.

Lemma deriv_sound (c : char) (r : re.regex) (s : str) :
  Matches (re.deriv c r) s -> Matches r (c :: s).
Proof.
  revert s. induction r; simpl; intros s H.
  - inversion H.
  - inversion H.
  - destruct (p c) eqn:E; inversion H; subst. constructor; exact E.
  - destruct (re.nullable r1) eqn:N.
    + inversion H; subst.
      * inversion H3; subst.
        change (c :: u ++ v) with ((c :: u) ++ v). constructor; auto.
      * change (c :: s) with ([] ++ c :: s).
        constructor; [apply nullable_sound; exact N | auto].
    + inversion H; subst.
      change (c :: u ++ v) with ((c :: u) ++ v). constructor; auto.
  - inversion H; subst; [apply MAltL | apply MAltR]; auto.
  - inversion H; subst.
    change (c :: u ++ v) with ((c :: u) ++ v). constructor; auto.
Qed.

Lemma fullmatch_sound (r : re.regex) (s : str) :
  re.fullmatch r s = true -> Matches r s.
Proof.
  revert r. induction s as [|c s IH]; simpl; intros r H.
  - apply nullable_sound, H.
  - apply deriv_sound, IH, H.
Qed.

Lemma nullable_complete (r : re.regex) : Matches r [] -> re.nullable r = true.
Proof.
  intros H. remember (@nil char) as s eqn:Es.
  induction H; simpl; try reflexivity; try discriminate.
  - apply app_eq_nil in Es. destruct Es. rewrite IHMatches1, IHMatches2; auto.
  - rewrite IHMatches; auto.
  - rewrite IHMatches; auto. apply orb_true_r.
Qed.

Lemma deriv_complete (c : char) (r : re.regex) (s : str) :
  Matches r (c :: s) -> Matches (re.deriv c r) s.
Proof.
  intros H. remember (c :: s) as cs eqn:E. revert s E.
  induction H; intros s0 E; simpl; try discriminate.
  - injection E as <- <-. rewrite H. constructor.
  - destruct u as [|x u]; simpl in E.
    + subst v. rewrite (nullable_complete _ H). apply MAltR. auto.
    + injection E as <- <-.
      destruct (re.nullable r); [apply MAltL|]; constructor; auto.
  - apply MAltL. auto.
  - apply MAltR. auto.
  - destruct u as [|x u]; simpl in E.
    + auto.
    + injection E as <- <-. constructor; auto.
Qed.

Lemma fullmatch_complete (r : re.regex) (s : str) :
  Matches r s -> re.fullmatch r s = true.
Proof.
  revert r. induction s as [|c s IH]; simpl; intros r H.
  - apply nullable_complete, H.
  - apply IH, deriv_complete, H.
Qed.

Lemma matches_star_class (p : char -> bool) (u : str) :
  Matches (re.Star (re.Chr p)) u <-> Forall (fun c => p c = true) u.
Proof.
  split.
  - intros H. remember (re.Star (re.Chr p)) as r eqn:Er.
    induction H; try discriminate; [constructor|].
    injection Er as ->. inversion H; subst. simpl. constructor; auto.
  - induction 1 as [|c u Hc Hu IH]; [constructor|].
    change (c :: u) with ([c] ++ u). constructor; [constructor|]; auto.
Qed.

Lemma matches_plus_class (p : char -> bool) (u : str) :
  Matches (re.Plus (re.Chr p)) u ->
  u <> [] /\ Forall (fun c => p c = true) u.
Proof.
  unfold re.Plus. intros H. inversion H; subst.
  inversion H2; subst. apply matches_star_class in H4. simpl.
  split; [discriminate | constructor; auto].
Qed.

Lemma matches_any (u : str) : Matches (re.Star re.Any) u.
Proof. apply matches_star_class. induction u; constructor; auto. Qed.

Lemma matches_cat_inv (r s : re.regex) (t : str) :
  Matches (re.Cat r s) t ->
  exists u v, t = u ++ v /\ Matches r u /\ Matches s v.
Proof. intros H. inversion H; subst. eauto. Qed.

Lemma matches_chr_inv (p : char -> bool) (t : str) :
  Matches (re.Chr p) t -> exists c, t = [c] /\ p c = true.
Proof. intros H. inversion H; subst. eauto. Qed.

Lemma matches_alt_inv (r s : re.regex) (t : str) :
  Matches (re.Alt r s) t -> Matches r t \/ Matches s t.
Proof. intros H. inversion H; subst; auto. Qed.

Lemma matches_eps_inv (t : str) : Matches re.Eps t -> t = [].
Proof. intros H. inversion H; subst; auto. Qed.

(** ** email *)

Lemma class_excludes (p : char -> bool) (x : char) (u : str) :
  p x = false -> Forall (fun c => p c = true) u -> ~ In x u.
Proof.
  intros Hx Hu Hin. rewrite Forall_forall in Hu. specialize (Hu x Hin).
  congruence.
Qed.

Lemma split1_first (sep : char) (a b : str) :
  ~ In sep a -> split1 sep (a ++ sep :: b) = (a, Some b).
Proof.
  induction a as [|x a IH]; simpl; intros H.
  - rewrite N.eqb_refl. reflexivity.
  - destruct (N.eqb_spec x sep) as [->|_]; [exfalso; auto|].
    rewrite IH; auto.
Qed.

Lemma matches_label (u : str) :
  Matches email_label u ->
  exists run, u = run ++ [46%N] /\ run <> []
              /\ Forall (fun c => email_domain_class c = true) run.
Proof.
  unfold email_label. intros H.
  apply matches_cat_inv in H. destruct H as (run & d & -> & Hrun & Hd).
  apply matches_plus_class in Hrun. destruct Hrun as [Hne Hrun].
  apply matches_chr_inv in Hd. destruct Hd as (c & -> & Hc).
  apply N.eqb_eq in Hc. subst c. exists run. auto.
Qed.

Lemma matches_labels (u : str) :
  Matches (re.Star email_label) u ->
  Forall (fun c => is_domain_char c = true) u
  /\ (u = [] \/ exists u', u = u' ++ [46%N]).
Proof.
  intros H. remember (re.Star email_label) as r eqn:Er.
  induction H; try discriminate.
  - split; [constructor | left; reflexivity].
  - injection Er as ->. destruct (IHMatches2 eq_refl) as [Hv Hend].
    apply matches_label in H. destruct H as (run & -> & Hne & Hrun).
    split.
    + apply Forall_app. split; [|exact Hv]. apply Forall_app. split.
      * eapply Forall_impl; [|exact Hrun]. intros c Hc. unfold is_domain_char.
        simpl in Hc. rewrite Hc. reflexivity.
      * repeat constructor.
    + right. destruct Hend as [->|[v' ->]].
      * exists run. rewrite app_nil_r. reflexivity.
      * exists ((run ++ [46%N]) ++ v'). rewrite app_assoc. reflexivity.
Qed.

Lemma startswith_dot (u : str) :
  startswith (py ".") u = match u with c :: _ => N.eqb 46 c | [] => false end.
Proof. destruct u as [|c u]; simpl; [reflexivity|]. apply andb_true_r. Qed.

Lemma endswith_dot_snoc (u : str) (c : char) :
  endswith (py ".") (u ++ [c]) = N.eqb 46 c.
Proof.
  unfold endswith. rewrite rev_app_distr. simpl. apply andb_true_r.
Qed.

(** What a text that [EMAIL_RE] matches looks like. *)
Lemma email_body_shape (t : str) :
  Matches EMAIL_BODY t ->
  exists local rest tld nl,
    t = local ++ [64%N] ++ (rest ++ [46%N] ++ tld) ++ nl
    /\ (nl = [] \/ nl = [10%N])
    /\ local <> [] /\ Forall (fun c => email_local_class c = true) local
    /\ Forall (fun c => is_domain_char c = true) rest
    /\ (exists c rest', rest = c :: rest' /\ email_domain_class c = true)
    /\ 2 <= length tld /\ Forall (fun c => is_alpha c = true) tld.
Proof.
  unfold EMAIL_BODY. intros H.
  apply matches_cat_inv in H. destruct H as (local & t1 & -> & Hlocal & H).
  apply matches_cat_inv in H. destruct H as (at_ & t2 & -> & Hat & H).
  apply matches_cat_inv in H. destruct H as (labels & t3 & -> & Hlabels & H).
  apply matches_cat_inv in H. destruct H as (tld & nl & -> & Htld & Hnl).
  apply matches_plus_class in Hlocal. destruct Hlocal as [Hne Hl].
  apply matches_chr_inv in Hat. destruct Hat as (c & -> & Hc).
  apply N.eqb_eq in Hc. subst c.
  unfold re.Plus in Hlabels. fold email_label in Hlabels.
  apply matches_cat_inv in Hlabels.
  destruct Hlabels as (lab & more & -> & Hlab & Hmore).
  apply matches_label in Hlab. destruct Hlab as (run & -> & Hrne & Hrun).
  apply matches_labels in Hmore. destruct Hmore as [Hmore Hend].
  simpl in Htld.
  apply matches_cat_inv in Htld. destruct Htld as (a1 & w1 & -> & Ha1 & Hw1).
  apply matches_cat_inv in Hw1. destruct Hw1 as (a2 & w2 & -> & Ha2 & Hw2).
  apply matches_chr_inv in Ha1. destruct Ha1 as (c1 & -> & Hc1).
  apply matches_chr_inv in Ha2. destruct Ha2 as (c2 & -> & Hc2).
  apply matches_star_class in Hw2.
  assert (Hrun' : Forall (fun c => is_domain_char c = true) run).
  { eapply Forall_impl; [|exact Hrun]. intros x Hx. unfold is_domain_char.
    simpl in Hx. rewrite Hx. reflexivity. }
  assert (Hnl' : nl = [] \/ nl = [10%N]).
  { unfold re.Dollar, re.Opt in Hnl. apply matches_alt_inv in Hnl.
    destruct Hnl as [Hnl|Hnl].
    - apply matches_chr_inv in Hnl. destruct Hnl as (c & -> & Hc).
      apply N.eqb_eq in Hc. subst. auto.
    - apply matches_eps_inv in Hnl. auto. }
  assert (Hfirst : forall tail, exists c rest',
             run ++ tail = c :: rest' /\ email_domain_class c = true).
  { intros tail. destruct run as [|c run]; [congruence|].
    inversion Hrun; subst. exists c, (run ++ tail). auto. }
  destruct Hend as [->|[m' ->]].
  - exists local, run, ([c1] ++ [c2] ++ w2), nl.
    rewrite app_nil_r. split; [rewrite <- !app_assoc; reflexivity|].
    split; [exact Hnl'|]. split; [exact Hne|]. split; [exact Hl|].
    split; [exact Hrun'|]. split.
    { destruct (Hfirst []) as (x & r' & E & Hx). rewrite app_nil_r in E. eauto. }
    split; [simpl; lia|]. repeat constructor; auto.
  - exists local, ((run ++ [46%N]) ++ m'), ([c1] ++ [c2] ++ w2), nl.
    split; [rewrite <- !app_assoc; reflexivity|].
    split; [exact Hnl'|]. split; [exact Hne|]. split; [exact Hl|].
    split.
    { apply Forall_app in Hmore. destruct Hmore as [Hm _].
      apply Forall_app. split; [|exact Hm].
      apply Forall_app. split; [exact Hrun' | repeat constructor]. }
    split.
    { destruct (Hfirst ([46%N] ++ m')) as (x & r' & E & Hx).
      rewrite <- app_assoc. eauto. }
    split; [simpl; lia|]. repeat constructor; auto.
Qed.

Lemma email_char_not_newline (c : char) :
  email_char c = true -> negb (N.eqb c 10) = true.
Proof.
  intros H. destruct (N.eqb_spec c 10) as [->|_]; [|reflexivity].
  vm_compute in H. discriminate.
Qed.

Lemma no_lookahead_no_double_dot (body nl : str) :
  Forall (fun c => email_char c = true) body ->
  re.match_prefix EMAIL_LOOKAHEAD (body ++ nl) = false ->
  no_double_dot body.
Proof.
  intros Hbody Hla u v E. subst body.
  apply Forall_app in Hbody. destruct Hbody as [Hu _].
  assert (M : Matches (re.Cat EMAIL_LOOKAHEAD (re.Star re.Any))
                      ((u ++ [46%N] ++ [46%N]) ++ (v ++ nl))).
  { constructor; [|apply matches_any]. unfold EMAIL_LOOKAHEAD.
    constructor.
    - apply matches_star_class. eapply Forall_impl; [|exact Hu].
      intros c Hc. apply email_char_not_newline, Hc.
    - constructor; constructor; reflexivity. }
  apply fullmatch_complete in M. unfold re.match_prefix in Hla.
  rewrite <- !app_assoc in M. simpl in M. rewrite <- !app_assoc in Hla.
  simpl in Hla. congruence.
Qed.

(** Whatever [clean_email] keeps is well formed. *)
Lemma email_keep_wellformed (t : str) :
  email_keep t = true -> email_wellformed t.
Proof.
  unfold email_keep, EMAIL_RE_match. intros H.
  destruct (split1 64%N t) as [p0 p1] eqn:Es.
  apply andb_true_iff in H. destruct H as [Hok Hbad].
  apply andb_true_iff in Hok. destruct Hok as [Hla Hbody].
  apply negb_true_iff in Hla. apply negb_true_iff in Hbad.
  apply fullmatch_sound, email_body_shape in Hbody.
  destruct Hbody as (local & rest & tld & nl & -> & Hnl & Hne & Hl & Hrest
                     & (c0 & rest' & -> & Hc0) & Hlen & Htld).
  assert (Hat_local : ~ In 64%N local)
    by (apply (class_excludes email_local_class); [reflexivity | exact Hl]).
  assert (Hat_dom : ~ In 64%N ((c0 :: rest') ++ [46%N] ++ tld)).
  { intros Hin. apply in_app_or in Hin. destruct Hin as [Hin|Hin].
    - revert Hin. apply (class_excludes is_domain_char); [reflexivity|exact Hrest].
    - destruct Hin as [Hin|Hin]; [discriminate|].
      revert Hin. apply (class_excludes is_alpha); [reflexivity | exact Htld]. }
  replace (local ++ [64%N] ++ ((c0 :: rest') ++ [46%N] ++ tld) ++ nl)
    with (local ++ 64%N :: (((c0 :: rest') ++ [46%N] ++ tld) ++ nl)) in Es
    by reflexivity.
  rewrite (split1_first _ _ _ Hat_local) in Es. injection Es as <- <-.
  apply orb_false_iff in Hbad. destruct Hbad as [Hbad _].
  apply orb_false_iff in Hbad. destruct Hbad as [Hs He].
  exists local, (c0 :: rest'), tld. cbv zeta.
  split.
  { destruct Hnl as [->| ->]; [left | right].
    - rewrite app_nil_r. reflexivity.
    - rewrite <- !app_assoc. reflexivity. }
  split; [exact Hne|]. split; [exact Hat_local|]. split; [exact Hat_dom|].
  split; [exact Hlen|]. split; [exact Htld|].
  split.
  { apply (no_lookahead_no_double_dot _ nl).
    - apply Forall_app. split.
      + eapply Forall_impl; [|exact Hl]. intros c Hc. unfold email_char.
        simpl in Hc. rewrite Hc. reflexivity.
      + constructor; [reflexivity|]. apply Forall_app. split.
        * eapply Forall_impl; [|exact Hrest]. intros c Hc. unfold email_char.
          simpl in Hc. rewrite Hc, !orb_true_r. reflexivity.
        * constructor; [reflexivity|].
          eapply Forall_impl; [|exact Htld]. intros c Hc. unfold email_char.
          simpl in Hc. rewrite Hc, !orb_true_r. reflexivity.
    - rewrite <- Hla. f_equal. rewrite <- !app_assoc. reflexivity. }
  split; [exact Hs|]. split; [exact He|]. split.
  - rewrite startswith_dot. cbn [app].
    destruct (N.eqb_spec 46 c0) as [<-|_]; [|reflexivity].
    vm_compute in Hc0. discriminate.
  - destruct (exists_last (l := tld)) as (tl & z & ->).
    { intros ->. simpl in Hlen. lia. }
    replace ((c0 :: rest') ++ [46%N] ++ tl ++ [z])
      with (((c0 :: rest') ++ [46%N] ++ tl) ++ [z])
      by (rewrite <- !app_assoc; reflexivity).
    rewrite endswith_dot_snoc.
    apply Forall_app in Htld. destruct Htld as [_ Hz].
    inversion Hz; subst.
    destruct (N.eqb_spec 46 z) as [<-|_]; [|reflexivity].
    vm_compute in H1. discriminate.
Qed.

(** X17. Where [clean_email] returns, every value is missing or the
    normalised text of its cell, and then well formed: a local part, an [@]
    and a domain that ends in a dot and two or more letters, without two
    dots in a row and without a dot at an end of the local part or of the
    domain. *)
Lemma clean_email_accepts_only_wellformed (U : unicode) (col out : list cell) :
  clean_email U col = Ok out ->
  out = map (fun c => if email_keep (email_text U c)
                      then Text (email_text U c) else NA) col
  /\ Forall (fun c => c = NA \/ exists t, c = Text t /\ email_wellformed t) out.
Proof.
  unfold clean_email. destruct (_ && _); [|discriminate].
  intros [= <-]. rewrite map_map. split; [reflexivity|].
  apply Forall_forall. intros c Hc. apply in_map_iff in Hc.
  destruct Hc as (x & <- & _).
  destruct (email_keep (email_text U x)) eqn:E; [right | left; reflexivity].
  eexists. split; [reflexivity|]. apply email_keep_wellformed, E.
Qed.

(** C9. On a column in which no value holds an [@], [clean_email] raises
    [KeyError] instead of returning missing values; on a column that holds
    one, "a..b@x.com" is missing and " A@B.CoM " becomes "a@b.com". *)
Theorem email_column_without_at_raises :
  clean_email latin1 [Text (py "foo")] = Raise KeyError
  /\ clean_email latin1 [Text (py "a..b@x.com"); Text (py " A@B.CoM ")]
     = Ok [NA; Text (py "a@b.com")]
  /\ forall (U : unicode) (col : list cell),
       (forall c, In c col -> existsb is_at (email_text U c) = false) ->
       clean_email U col = Raise KeyError.
Proof.
  split; [vm_compute; reflexivity|]. split; [vm_compute; reflexivity|].
  intros U col H. unfold clean_email.
  replace (existsb (existsb is_at) (map (email_text U) col)) with false.
  - rewrite andb_false_r. reflexivity.
  - symmetry. induction col as [|c col IH]; simpl; [reflexivity|].
    rewrite (H c (or_introl eq_refl)). simpl.
    apply IH. intros; apply H; simpl; auto.
Qed.

(** ** When root resolution ends

    An edge never leads to a smaller cluster; when no two clusters have the
    same size every edge leads to a strictly larger one, so the loop of
    [root] ends within as many turns as the column has rows. *)

Lemma city_sizes_get (groups : dict (list str)) (s : str) :
  dict_get (city_sizes groups) s
  = option_map (@length str) (dict_get groups s).
Proof.
  induction groups as [|[k l] groups IH]; simpl; [reflexivity|].
  destruct (str_eqb k s); [reflexivity | exact IH].
Qed.

Lemma members_length (tmp : list row) (s : str) :
  length (members tmp s) <= length tmp.
Proof. unfold members. rewrite length_map. apply filter_length_le. Qed.

Lemma city_sizes_bound (U : unicode) (col : list cell) (s : str) (n : nat) :
  dict_get (city_sizes (city_groups (city_rows U col))) s = Some n ->
  n <= length col.
Proof.
  rewrite city_sizes_get, city_groups_get.
  pose proof (members_length (city_rows U col) s) as H.
  unfold city_rows in H at 2. rewrite length_map in H.
  destruct (members (city_rows U col) s); simpl; [discriminate|].
  intros [= <-]. exact H.
Qed.

Lemma merge_edge_grows (sizes : dict nat) (ordered : list str) (cutoff : Q)
    (M : dict str) (s t : str) :
  city_merged sizes ordered cutoff = Ok M ->
  dict_get M s = Some t ->
  exists ns nt, dict_get sizes s = Some ns /\ dict_get sizes t = Some nt
                /\ ns <= nt /\ t <> s.
Proof.
  intros HM Hst.
  destruct (city_merged_edge _ _ _ _ _ _ HM Hst) as (_ & anchors & m & Ha & Hg).
  pose proof (get_close_matches_inv _ _ _ _ Hg t (or_introl eq_refl)) as Hin.
  destruct (filterM_Ok_inv _ _ _ Ha t Hin) as [_ Ht].
  unfold anchor_test, dict_item in Ht.
  destruct (dict_get sizes t) as [nt|]; [|discriminate].
  destruct (dict_get sizes s) as [ns|]; [|discriminate].
  simpl in Ht. injection Ht as Ht. apply andb_true_iff in Ht.
  destruct Ht as [Hle Hne]. apply Nat.leb_le in Hle.
  apply negb_true_iff, str_eqb_neq in Hne. exists ns, nt. auto.
Qed.

Lemma root_halts (sizes : dict nat) (ordered : list str) (cutoff : Q)
    (M : dict str) (bound : nat) :
  city_merged sizes ordered cutoff = Ok M ->
  sizes_distinct sizes ->
  (forall s n, dict_get sizes s = Some n -> n <= bound) ->
  forall fuel s n, dict_get sizes s = Some n -> bound - n < fuel ->
  exists r, root fuel M s = Ok r.
Proof.
  intros HM Hd Hb. induction fuel as [|fuel IH]; intros s n Hs Hf; [lia|].
  simpl. destruct (dict_get M s) as [t|] eqn:E; [|eauto].
  destruct (merge_edge_grows _ _ _ _ _ _ HM E) as (ns & nt & Hs' & Ht & Hle & Hne).
  rewrite Hs in Hs'. injection Hs' as <-.
  assert (n <> nt).
  { intros <-. apply Hne. symmetry. exact (Hd _ _ _ Hs Ht). }
  pose proof (Hb _ _ Ht). apply (IH t nt Ht). lia.
Qed.

(** X10. On a column whose clusters all differ in size, [build_city_canon]
    returns, within as many turns of the loop of [root] as there are rows
    (and one more). *)
Theorem build_city_canon_returns_on_distinct_sizes (U : unicode)
    (col : list cell) (cutoff : Q) :
  cutoff_valid cutoff ->
  sizes_distinct (city_sizes (city_groups (city_rows U col))) ->
  exists m, build_city_canon U (S (length col)) col cutoff = Ok m.
Proof.
  intros Hc Hd.
  destruct (build_city_canon_cases U (S (length col)) col cutoff Hc)
    as [H|(_ & M & s & HM & Hs & Hr)]; [exact H|].
  exfalso. unfold city_merge_edges in HM. inv_bind HM. injection HM as <-.
  destruct (city_plan_inv _ _ _ _ Ha) as (_ & _ & _ & o & _ & Hm).
  rewrite <- city_sizes_keys in Hs. apply dict_get_keys in Hs.
  destruct (dict_get (city_sizes (city_groups (city_rows U col))) s)
    as [n|] eqn:En; [|congruence].
  destruct (root_halts _ _ _ _ (length col) Hm Hd
              (city_sizes_bound U col) (S (length col)) s n En) as [r Hr'];
    [lia|].
  congruence.
Qed.

Lemma build_city_canon_returns_on_distinct_sizes_witness :
  exists m, build_city_canon latin1 5 paris_column default_cutoff = Ok m.
Proof.
  apply (build_city_canon_returns_on_distinct_sizes latin1 paris_column
           default_cutoff); [reflexivity|].
  intros s t n Hs Ht.
  assert (G : city_sizes (city_groups (city_rows latin1 paris_column))
              = [(py "paris", 3); (py "lyon", 1)]) by (vm_compute; reflexivity).
  rewrite G in Hs, Ht. cbn [dict_get] in Hs, Ht.
  repeat match goal with
         | H : context [str_eqb ?a ?b] |- _ => destruct (str_eqb_spec a b)
         end; congruence.
Defined.

(** ** Runs of a character class *)

Lemma flush_run_short (min : nat) (x : char) (run : str) :
  flush_run min [x] run = []
  \/ (exists c, flush_run min [x] run = [c] /\ (c = x \/ In c run))
  \/ (2 <= length run /\ length run < min /\ flush_run min [x] run = rev run).
Proof.
  unfold flush_run. destruct run as [|a run]; [left; reflexivity|].
  destruct (min <=? length (a :: run)) eqn:E.
  - right; left. exists x. auto.
  - apply Nat.leb_gt in E. destruct run as [|b run].
    + right; left. exists a. simpl. auto.
    + right; right. repeat split; [simpl; lia | exact E].
Qed.

Lemma flush_run_Forall (P : char -> Prop) (min : nat) (rep run : str) :
  Forall P rep -> Forall P run -> Forall P (flush_run min rep run).
Proof.
  intros Hr Hn. unfold flush_run. destruct run; [constructor|].
  destruct (min <=? _); [exact Hr|]. apply Forall_rev, Hn.
Qed.

Lemma re_sub_runs_Forall (P : char -> Prop) (p : char -> bool) (min : nat)
    (rep s run : str) :
  Forall P rep -> Forall P s -> Forall P run ->
  Forall P (re_sub_runs p min rep s run).
Proof.
  intros Hr Hs. revert run. induction Hs as [|c s Hc Hs IH]; intros run Hn.
  - simpl. apply flush_run_Forall; assumption.
  - simpl. destruct (p c).
    + apply IH. constructor; assumption.
    + apply Forall_app. split; [apply flush_run_Forall; assumption|].
      constructor; [exact Hc|]. apply IH. constructor.
Qed.

(** Where every run of the class is replaced, no character of the class is
    left. *)
Lemma re_sub_runs_clears (p : char -> bool) (x : char) (s run : str) :
  p x = false ->
  Forall (fun c => p c = false) (re_sub_runs p 1 [x] s run).
Proof.
  intros Hx. revert run. induction s as [|c s IH]; intros run.
  - simpl. unfold flush_run. destruct run as [|a run]; [constructor|].
    simpl. constructor; [exact Hx | constructor].
  - simpl. destruct (p c) eqn:E; [apply IH|].
    apply Forall_app. split.
    + unfold flush_run. destruct run as [|a run]; [constructor|].
      simpl. constructor; [exact Hx | constructor].
    + constructor; [exact E | apply IH].
Qed.

Lemma no_adjacent_cons (p : char -> bool) (c : char) (s : str) :
  p c = false -> no_adjacent p (c :: s) = no_adjacent p s.
Proof.
  intros E. simpl. destruct s as [|b s]; [reflexivity|].
  rewrite E. reflexivity.
Qed.

Lemma no_adjacent_cons2 (p : char -> bool) (a c : char) (s : str) :
  p c = false -> no_adjacent p (a :: c :: s) = no_adjacent p s.
Proof.
  intros E. change (no_adjacent p (a :: c :: s))
    with (negb (p a && p c) && no_adjacent p (c :: s)).
  rewrite (no_adjacent_cons p c s E), E, andb_false_r. reflexivity.
Qed.

(** After the runs of two and more are collapsed into one character, no two
    neighbours are of the class. *)
Lemma re_sub_runs_no_adjacent (p : char -> bool) (x : char) (s run : str) :
  no_adjacent p (re_sub_runs p 2 [x] s run) = true.
Proof.
  revert run. induction s as [|c s IH]; intros run.
  - simpl. destruct (flush_run_short 2 x run) as [E|[(a & E & _)|(H1 & H2 & _)]];
      [rewrite E; reflexivity | rewrite E; reflexivity | lia].
  - simpl. destruct (p c) eqn:E; [apply IH|].
    destruct (flush_run_short 2 x run) as [F|[(a & F & _)|(H1 & H2 & _)]];
      [| | lia]; rewrite F; simpl app.
    + rewrite no_adjacent_cons by exact E. apply IH.
    + rewrite no_adjacent_cons2 by exact E. apply IH.
Qed.

(** A text without two neighbours of the class is left as it is. *)
Lemma re_sub_runs_fixed (p : char -> bool) (rep s : str) :
  no_adjacent p s = true ->
  re_sub_runs p 2 rep s [] = s
  /\ forall a, p a = true -> no_adjacent p (a :: s) = true ->
       re_sub_runs p 2 rep s [a] = a :: s.
Proof.
  induction s as [|c s IH]; intros H.
  - split; [reflexivity|]. intros a _ _. reflexivity.
  - assert (Hs : no_adjacent p s = true).
    { simpl in H. apply andb_true_iff in H. apply H. }
    destruct (IH Hs) as [IH0 IH1]. split.
    + simpl. destruct (p c) eqn:E.
      * apply IH1; assumption.
      * rewrite IH0. reflexivity.
    + intros a Ha Hac.
      change (no_adjacent p (a :: c :: s))
        with (negb (p a && p c) && no_adjacent p (c :: s)) in Hac.
      apply andb_true_iff in Hac. destruct Hac as [Hac _].
      rewrite Ha in Hac. simpl in Hac. apply negb_true_iff in Hac.
      simpl. rewrite Hac, IH0. reflexivity.
Qed.

(** Replacing runs keeps a first and a last character that are not of the
    class. *)
Lemma re_sub_runs_snoc (p : char -> bool) (min : nat) (rep s run : str)
    (c : char) :
  p c = false ->
  exists X, re_sub_runs p min rep (s ++ [c]) run = X ++ [c].
Proof.
  intros E. revert run. induction s as [|a s IH]; intros run.
  - simpl. rewrite E. exists (flush_run min rep run). reflexivity.
  - simpl. destruct (p a).
    + apply IH.
    + destruct (IH []) as [X HX]. rewrite HX.
      exists (flush_run min rep run ++ a :: X).
      rewrite <- app_assoc. reflexivity.
Qed.

Lemma last_snoc (X : str) (c d : char) : last (X ++ [c]) d = c.
Proof. apply last_last. Qed.

Lemma re_sub_runs_ends (p : char -> bool) (min : nat) (rep s : str) :
  ends_clear p s -> ends_clear p (re_sub_runs p min rep s []).
Proof.
  destruct s as [|c s]; [intros _; exact I|].
  intros [Hc Hl]. simpl. rewrite Hc. simpl. split; [exact Hc|].
  revert Hl. destruct s as [|b s] using rev_ind; intros Hl; [exact Hc|].
  clear IHs. change (c :: s ++ [b]) with ((c :: s) ++ [b]) in Hl.
  rewrite last_snoc in Hl.
  destruct (re_sub_runs_snoc p min rep s [] b Hl) as [X HX].
  rewrite HX. destruct X as [|x X]; [exact Hl|].
  rewrite last_snoc. exact Hl.
Qed.

(** ** Stripping *)

Lemma lstrip_by_head (p : char -> bool) (s : str) :
  match lstrip_by p s with [] => True | c :: _ => p c = false end.
Proof.
  induction s as [|c s IH]; simpl; [exact I|].
  destruct (p c) eqn:E; [exact IH | exact E].
Qed.

Lemma lstrip_by_fixed (p : char -> bool) (s : str) :
  match s with [] => True | c :: _ => p c = false end -> lstrip_by p s = s.
Proof. destruct s as [|c s]; [reflexivity|]. simpl. intros ->. reflexivity. Qed.

Lemma lstrip_by_snoc (p : char -> bool) (s : str) (c : char) :
  p c = false -> exists X, lstrip_by p (s ++ [c]) = X ++ [c].
Proof.
  intros E. induction s as [|a s IH]; simpl.
  - rewrite E. exists []. reflexivity.
  - destruct (p a); [exact IH|]. exists (a :: s). reflexivity.
Qed.

Lemma ends_clear_rev (p : char -> bool) (s : str) :
  ends_clear p s <->
  match s with [] => True | c :: _ => p c = false end
  /\ match rev s with [] => True | c :: _ => p c = false end.
Proof.
  destruct s as [|c s]; [simpl; tauto|].
  unfold ends_clear.
  destruct s as [|b s] using rev_ind; [simpl; tauto|]. clear IHs.
  rewrite app_comm_cons, last_snoc.
  change (rev (c :: s ++ [b])) with (rev (s ++ [b]) ++ [c]).
  rewrite rev_app_distr. simpl. tauto.
Qed.

Lemma strip_by_ends (p : char -> bool) (s : str) :
  ends_clear p (strip_by p s).
Proof.
  apply ends_clear_rev. unfold strip_by, rstrip_by. rewrite rev_involutive.
  split; [|apply lstrip_by_head].
  pose proof (lstrip_by_head p s) as H.
  destruct (lstrip_by p s) as [|c t]; [exact I|].
  change (rev (c :: t)) with (rev t ++ [c]).
  destruct (lstrip_by_snoc p (rev t) c H) as [X ->].
  rewrite rev_app_distr. exact H.
Qed.

Lemma strip_by_fixed (p : char -> bool) (s : str) :
  ends_clear p s <-> strip_by p s = s.
Proof.
  split.
  - intros H. apply ends_clear_rev in H. destruct H as [H1 H2].
    unfold strip_by, rstrip_by. rewrite (lstrip_by_fixed p s H1).
    rewrite (lstrip_by_fixed p (rev s) H2). apply rev_involutive.
  - intros <-. apply strip_by_ends.
Qed.

(** ** tidy_whitespace *)

Lemma tidy_cell_shape (U : unicode) (c : cell) :
  strip U (tidy_cell U c) = tidy_cell U c
  /\ no_adjacent (isspace U) (tidy_cell U c) = true.
Proof.
  unfold tidy_cell. split.
  - apply strip_by_fixed, re_sub_runs_ends, strip_by_ends.
  - apply re_sub_runs_no_adjacent.
Qed.

Lemma tidy_cell_fixed (U : unicode) (t : str) :
  strip U t = t -> no_adjacent (isspace U) t = true ->
  tidy_cell U (Text t) = t.
Proof.
  intros Hs Hn. unfold tidy_cell. simpl astype_str.
  rewrite maybe_demojibake_id, Hs.
  apply (re_sub_runs_fixed (isspace U) (py " ") t Hn).
Qed.

(** X2. [tidy_whitespace] keeps the columns of the frame and, in every
    [object] column, leaves no missing value: each cell comes out as a text
    (a missing cell as the text that [astype(str)] makes of it) without
    white space at its ends and without two white-space characters in a
    row. *)
Theorem tidy_whitespace_shape (U : unicode) (df : list column) :
  length (tidy_whitespace U df) = length df
  /\ Forall (fun col =>
       is_object col = true ->
       Forall (fun c => exists t, c = Text t /\ strip U t = t
                                  /\ no_adjacent (isspace U) t = true)
              (cells col))
     (tidy_whitespace U df).
Proof.
  split; [apply length_map|].
  unfold tidy_whitespace. apply Forall_map, Forall_forall. intros col _.
  destruct (is_object col) eqn:E; [|congruence].
  intros _. simpl. apply Forall_map, Forall_forall. intros c _.
  exists (tidy_cell U c). split; [reflexivity|]. apply tidy_cell_shape.
Qed.

(** X3. [tidy_whitespace] is idempotent: applied to a frame it has
    returned, it changes nothing.  It does change a frame whose columns were
    cleaned in between: a date that [clean_date_iso] left missing comes out
    as the text "nan". *)
Theorem tidy_whitespace_idempotent (U : unicode) (df : list column) :
  tidy_whitespace U (tidy_whitespace U df) = tidy_whitespace U df
  /\ forall (P : date_env) (x : cell),
       clean_date_value latin1 P x = NaN ->
       tidy_whitespace latin1
         [{| is_object := true; cells := [clean_date_value latin1 P x] |}]
       = [{| is_object := true; cells := [Text (py "nan")] |}].
Proof.
  split; [|intros P x ->; vm_compute; reflexivity].
  unfold tidy_whitespace. rewrite map_map. apply map_ext. intros col.
  destruct (is_object col) eqn:E; [|rewrite E; reflexivity].
  simpl. f_equal. rewrite map_map. apply map_ext. intros c. f_equal.
  apply tidy_cell_fixed; apply tidy_cell_shape.
Qed.

(** ** _basic_city_clean *)

(** X5. The basic form of a city holds none of the separators [_ - . , /]
    (each run of them has become one space) and no two white-space
    characters in a row. *)
Theorem basic_form_shape (U : unicode) (x : str) :
  Forall (fun c => is_one_of "_-.,/" c = false) (_basic_city_clean U x)
  /\ no_adjacent (isspace U) (_basic_city_clean U x) = true.
Proof.
  unfold _basic_city_clean. split.
  - apply re_sub_runs_Forall.
    + repeat constructor.
    + apply (re_sub_runs_clears (is_one_of "_-.,/") 32%N). reflexivity.
    + constructor.
  - apply re_sub_runs_no_adjacent.
Qed.

(** ** _choose_display_form *)

(** X6. [_choose_display_form] raises [IndexError] on the empty list and
    on no other: on a list with a value it returns one of the values of the
    list, verbatim when that value holds a letter A-Z and title-cased
    otherwise. *)
Theorem display_form_fails_only_on_empty (U : unicode) (cands : list str) :
  (cands = [] -> _choose_display_form U cands = Raise IndexError)
  /\ (cands <> [] ->
      exists top,
        In top cands
        /\ _choose_display_form U cands
           = Ok (if existsb is_AZ top then top else title U top)).
Proof.
  split; [intros ->; reflexivity|]. intros Hne.
  destruct (choose_display_form_spec U cands Hne)
    as (top & (_ & l1 & l2 & -> & _) & Hc).
  exists top. split; [|exact Hc]. apply in_or_app. right. left. reflexivity.
Qed.

(** ** The merge edges of a column *)

Lemma get_close_matches_score (word : str) (poss m : list str) (cutoff : Q) :
  difflib.get_close_matches word poss 1 cutoff = Ok m ->
  forall x, In x m -> Qle_bool cutoff (difflib.ratio x word) = true.
Proof.
  unfold difflib.get_close_matches. simpl.
  destruct (negb (Qle_bool 0 cutoff && Qle_bool cutoff 1)); [discriminate|].
  intros [= <-] x Hx.
  destruct (py_max difflib.scored_gt _) as [[q y]|] eqn:E; [|destruct Hx].
  destruct Hx as [<-|[]]. apply py_max_In in E.
  apply in_flat_map in E. destruct E as (z & Hz & E).
  destruct (_ && _) eqn:C; [|destruct E]. destruct E as [[= _ <-]|[]].
  apply andb_true_iff in C. apply C.
Qed.

Lemma merge_edge_score (sizes : dict nat) (ordered : list str) (cutoff : Q)
    (M : dict str) (s t : str) :
  city_merged sizes ordered cutoff = Ok M ->
  dict_get M s = Some t ->
  Qle_bool cutoff (difflib.ratio t s) = true.
Proof.
  intros HM Hst.
  destruct (city_merged_edge _ _ _ _ _ _ HM Hst) as (_ & anchors & m & _ & Hg).
  exact (get_close_matches_score _ _ _ _ Hg t (or_introl eq_refl)).
Qed.

Lemma cluster_size (U : unicode) (col : list cell) (s : str) (n : nat) :
  dict_get (city_sizes (city_groups (city_rows U col))) s = Some n ->
  n = length (members (city_rows U col) s)
  /\ members (city_rows U col) s <> [].
Proof.
  rewrite city_sizes_get, city_groups_get.
  destruct (members (city_rows U col) s); simpl; [discriminate|].
  intros [= <-]. split; [reflexivity | discriminate].
Qed.

Lemma cluster_key (U : unicode) (col : list cell) (s : str) :
  In s (keys (city_groups (city_rows U col)))
  <-> members (city_rows U col) s <> [].
Proof.
  rewrite dict_get_keys, city_groups_get.
  destruct (members (city_rows U col) s); split; congruence.
Qed.

(** X8. Every merge edge of a column leads from a cluster to another
    cluster that has at least as many rows and whose signature is similar to
    it by at least the cutoff ([SequenceMatcher.ratio], target first). *)
Theorem merge_edges_are_oriented (U : unicode) (col : list cell) (cutoff : Q)
    (M : dict str) (s t : str) :
  city_merge_edges U col cutoff = Ok M ->
  dict_get M s = Some t ->
  t <> s
  /\ members (city_rows U col) s <> []
  /\ members (city_rows U col) t <> []
  /\ length (members (city_rows U col) s)
     <= length (members (city_rows U col) t)
  /\ Qle_bool cutoff (difflib.ratio t s) = true.
Proof.
  intros HM Hst. unfold city_merge_edges in HM. inv_bind HM.
  injection HM as <-.
  destruct (city_plan_inv _ _ _ _ Ha) as (_ & _ & _ & o & _ & Hm).
  destruct (merge_edge_grows _ _ _ _ _ _ Hm Hst)
    as (ns & nt & Hs & Ht & Hle & Hne).
  destruct (cluster_size _ _ _ _ Hs) as [-> Hs'].
  destruct (cluster_size _ _ _ _ Ht) as [-> Ht'].
  repeat split; auto. exact (merge_edge_score _ _ _ _ _ _ Hm Hst).
Qed.

Lemma merge_edges_are_oriented_witness :
  py "stockholm" <> py "stockholmm"
  /\ members (city_rows latin1 stockholm_column) (py "stockholmm") <> []
  /\ members (city_rows latin1 stockholm_column) (py "stockholm") <> []
  /\ length (members (city_rows latin1 stockholm_column) (py "stockholmm"))
     <= length (members (city_rows latin1 stockholm_column) (py "stockholm"))
  /\ Qle_bool default_cutoff
       (difflib.ratio (py "stockholm") (py "stockholmm")) = true.
Proof.
  apply (merge_edges_are_oriented latin1 stockholm_column default_cutoff
           [(py "stockholmm", py "stockholm")]);
    vm_compute; reflexivity.
Defined.

(** ** Where root resolution ends *)

Lemma root_stays (M : dict str) (K : list str) :
  (forall s t, dict_get M s = Some t -> In t K) ->
  forall fuel s r, In s K -> root fuel M s = Ok r -> In r K.
Proof.
  intros HM. induction fuel as [|fuel IH]; intros s r Hs; simpl;
    [discriminate|].
  destruct (dict_get M s) as [t|] eqn:E.
  - apply IH. exact (HM _ _ E).
  - intros [= <-]. exact Hs.
Qed.

Lemma plan_edge_target (U : unicode) (col : list cell) (cutoff : Q)
    (p : list row * dict str * dict str) (s t : str) :
  city_plan U col cutoff = Ok p ->
  dict_get (snd p) s = Some t ->
  In t (keys (city_groups (city_rows U col))).
Proof.
  intros Hp Hst.
  destruct (city_plan_inv _ _ _ _ Hp) as (_ & _ & _ & o & _ & Hm).
  destruct (merge_edge_grows _ _ _ _ _ _ Hm Hst) as (ns & nt & _ & Ht & _).
  rewrite <- city_sizes_keys. apply dict_get_keys. congruence.
Qed.

(** The entry of [final_disp] for a cluster is the display form of the
    cluster its merge edges lead to. *)
Lemma final_disp_value (U : unicode) (fuel : nat) (col : list cell)
    (cutoff : Q) (D M FD : dict str) (s : str) :
  city_plan U col cutoff = Ok (city_rows U col, D, M) ->
  city_final_disp fuel M D = Ok FD ->
  members (city_rows U col) s <> [] ->
  exists r d,
    root fuel M s = Ok r /\ dict_get M r = None
    /\ members (city_rows U col) r <> []
    /\ _choose_display_form U (members (city_rows U col) r) = Ok d
    /\ dict_get FD s = Some d.
Proof.
  intros Hp HFD Hs.
  destruct (city_plan_inv _ _ _ _ Hp) as (_ & Hk & Hd & _). simpl in Hk, Hd.
  apply cluster_key in Hs.
  assert (HsD : In s (keys D)) by (rewrite Hk; exact Hs).
  destruct (city_final_disp_get _ _ _ _ _ HFD HsD) as (r & d0 & Hr & _ & Hg).
  assert (Hrk : In r (keys (city_groups (city_rows U col)))).
  { apply (root_stays M _ (fun a b E => plan_edge_target U col cutoff _ a b Hp E)
             fuel s r Hs Hr). }
  assert (Hmr : members (city_rows U col) r <> []) by (apply cluster_key, Hrk).
  destruct (Hd r (members (city_rows U col) r)) as (d & Hcd & HDr).
  { rewrite city_groups_get. destruct (members (city_rows U col) r);
      [congruence | reflexivity]. }
  exists r, d. rewrite HDr in Hg. repeat split; auto.
  destruct (root_cases M fuel s) as [(r' & Hr' & Hn)|Ho]; congruence.
Qed.

Lemma clustered_row (U : unicode) (col : list cell) (m : dict str) (k : str)
    (fuel : nat) (cutoff : Q) :
  build_city_canon U fuel col cutoff = Ok m ->
  dict_get m k <> None ->
  exists r, In r (city_rows U col) /\ nonempty (basic r) = true /\ raw r = k.
Proof.
  intros Hm Hk.
  destruct (build_city_canon_spec _ _ _ _ _ Hm) as (D & M & FD & _ & _ & _ & Hno).
  destruct (existsb (fun r => nonempty (basic r) && str_eqb (raw r) k)
                    (city_rows U col)) eqn:E.
  - apply existsb_exists in E. destruct E as (r & Hr & E).
    apply andb_true_iff in E. destruct E as [E1 E2].
    apply str_eqb_eq in E2. eauto.
  - exfalso. apply Hk, Hno. intros r Hr Hne Hraw.
    assert (X : existsb (fun r => nonempty (basic r) && str_eqb (raw r) k)
                        (city_rows U col) = true).
    { apply existsb_exists. exists r. split; [exact Hr|].
      rewrite Hne, Hraw, str_eqb_refl. reflexivity. }
    congruence.
Qed.

Lemma mapping_value (U : unicode) (fuel : nat) (col : list cell) (cutoff : Q)
    (m : dict str) (k d : str) :
  build_city_canon U fuel col cutoff = Ok m ->
  dict_get m k = Some d ->
  exists M r,
    city_merge_edges U col cutoff = Ok M
    /\ root fuel M (signature_of U k) = Ok r
    /\ dict_get M r = None
    /\ members (city_rows U col) r <> []
    /\ _choose_display_form U (members (city_rows U col) r) = Ok d.
Proof.
  intros Hm Hk.
  destruct (clustered_row U col m k fuel cutoff Hm) as (r0 & Hr0 & Hne & Hraw);
    [congruence|].
  destruct (build_city_canon_spec _ _ _ _ _ Hm)
    as (D & M & FD & Hp & HFD & Hrows & _).
  destruct (Hrows r0 Hr0 Hne) as [Hg _]. rewrite Hraw, Hk in Hg.
  destruct (city_rows_fun U col r0 Hr0) as [Hb Hs].
  assert (Hsig : sig r0 = signature_of U k).
  { unfold signature_of. rewrite Hs, Hb, Hraw. reflexivity. }
  destruct (row_in_group _ _ Hr0 Hne) as [_ Hin].
  assert (Hmem : members (city_rows U col) (sig r0) <> []).
  { intros E. rewrite E in Hin. destruct Hin. }
  destruct (final_disp_value U fuel col cutoff D M FD (sig r0) Hp HFD Hmem)
    as (r & d' & Hr & HMr & Hmr & Hcd & HFDs).
  exists M, r. unfold city_merge_edges. rewrite Hp. simpl.
  rewrite <- Hsig. repeat split; auto. congruence.
Qed.

(** X13. Every value of the mapping [build_city_canon] returns is the
    display form of a cluster of the column: the cluster without outgoing
    merge edge that the merge edges lead to from the signature of the key.
    It is the most frequent value of that cluster, verbatim or
    title-cased. *)
Theorem canonical_names_are_display_forms (U : unicode) (fuel : nat)
    (col : list cell) (cutoff : Q) (m : dict str) (k d : str) :
  build_city_canon U fuel col cutoff = Ok m ->
  dict_get m k = Some d ->
  exists M r top,
    city_merge_edges U col cutoff = Ok M
    /\ root fuel M (signature_of U k) = Ok r
    /\ dict_get M r = None
    /\ In top (members (city_rows U col) r)
    /\ first_mode top (members (city_rows U col) r)
    /\ d = (if existsb is_AZ top then top else title U top).
Proof.
  intros Hm Hk.
  destruct (mapping_value U fuel col cutoff m k d Hm Hk)
    as (M & r & HM & Hr & Hn & Hne & Hd).
  destruct (choose_display_form_spec U _ Hne) as (top & Hmode & Hc).
  exists M, r, top. repeat split; auto.
  - destruct Hmode as (_ & l1 & l2 & E & _). rewrite E.
    apply in_or_app. right. left. reflexivity.
  - apply Hmode.
  - apply Hmode.
  - congruence.
Qed.

Lemma canonical_names_are_display_forms_witness :
  exists M r top,
    city_merge_edges latin1 stockholm_column default_cutoff = Ok M
    /\ root 3 M (signature_of latin1 (py "Stockholmm")) = Ok r
    /\ dict_get M r = None
    /\ In top (members (city_rows latin1 stockholm_column) r)
    /\ first_mode top (members (city_rows latin1 stockholm_column) r)
    /\ py "Stockholm" = (if existsb is_AZ top then top else title latin1 top).
Proof.
  assert (Hm : exists m, build_city_canon latin1 3 stockholm_column default_cutoff
                         = Ok m /\ dict_get m (py "Stockholmm")
                                   = Some (py "Stockholm")).
  { eexists. split; vm_compute; reflexivity. }
  destruct Hm as (m & Hm & Hk).
  exact (canonical_names_are_display_forms latin1 3 stockholm_column
           default_cutoff m (py "Stockholmm") (py "Stockholm") Hm Hk).
Defined.

(** X12. The keys of the mapping [build_city_canon] returns are exactly the
    trimmed values of the column whose basic form is not empty. *)
Theorem mapping_keys_are_clustered_values (U : unicode) (fuel : nat)
    (col : list cell) (cutoff : Q) (m : dict str) :
  build_city_canon U fuel col cutoff = Ok m ->
  forall k,
    In k (keys m) <->
    exists c, In c col /\ raw (city_row U c) = k
              /\ nonempty (basic (city_row U c)) = true.
Proof.
  intros Hm k. rewrite dict_get_keys. split.
  - intros Hk.
    destruct (clustered_row U col m k fuel cutoff Hm Hk) as (r & Hr & Hne & Hraw).
    apply in_map_iff in Hr. destruct Hr as (c & <- & Hc). eauto.
  - intros (c & Hc & <- & Hne).
    destruct (build_city_canon_spec _ _ _ _ _ Hm) as (D & M & FD & _ & _ & Hrows & _).
    apply (Hrows (city_row U c) (city_row_In U col c Hc) Hne).
Qed.

Lemma mapping_keys_are_clustered_values_witness :
  In (py "Paris") (keys [(py "Paris", py "Paris"); (py "paris", py "Paris");
                         (py "Lyon", py "Lyon")]) <->
  exists c, In c paris_column /\ raw (city_row latin1 c) = py "Paris"
            /\ nonempty (basic (city_row latin1 c)) = true.
Proof.
  apply (mapping_keys_are_clustered_values latin1 2 paris_column default_cutoff).
  vm_compute. reflexivity.
Defined.

(** X14. When the cluster of a value is merged into the cluster of another
    value (a merge edge leads from the signature of the first to that of the
    second), the mapping sends both values to the same canonical name. *)
Theorem merged_clusters_share_canonical (U : unicode) (fuel : nat)
    (col : list cell) (cutoff : Q) (m M : dict str) (ca cb : cell) :
  build_city_canon U fuel col cutoff = Ok m ->
  city_merge_edges U col cutoff = Ok M ->
  In ca col -> In cb col ->
  nonempty (basic (city_row U ca)) = true ->
  nonempty (basic (city_row U cb)) = true ->
  dict_get M (sig (city_row U ca)) = Some (sig (city_row U cb)) ->
  exists d, dict_get m (raw (city_row U ca)) = Some d
            /\ dict_get m (raw (city_row U cb)) = Some d.
Proof.
  intros Hm HM Ha Hb Hna Hnb Hedge.
  destruct (build_city_canon_spec _ _ _ _ _ Hm)
    as (D & M' & FD & Hp & HFD & Hrows & _).
  unfold city_merge_edges in HM. rewrite Hp in HM. simpl in HM.
  injection HM as <-.
  pose proof (city_row_In U col ca Ha) as Hra.
  pose proof (city_row_In U col cb Hb) as Hrb.
  destruct (Hrows _ Hra Hna) as [Hga _]. destruct (Hrows _ Hrb Hnb) as [Hgb _].
  assert (Hma : members (city_rows U col) (sig (city_row U ca)) <> []).
  { destruct (row_in_group _ _ Hra Hna) as [_ Hin].
    intros E. rewrite E in Hin. destruct Hin. }
  assert (Hmb : members (city_rows U col) (sig (city_row U cb)) <> []).
  { destruct (row_in_group _ _ Hrb Hnb) as [_ Hin].
    intros E. rewrite E in Hin. destruct Hin. }
  destruct (final_disp_value U fuel col cutoff D M' FD _ Hp HFD Hma)
    as (ra & da & Hroota & _ & _ & Hda & HFa).
  destruct (final_disp_value U fuel col cutoff D M' FD _ Hp HFD Hmb)
    as (rb & db & Hrootb & _ & _ & Hdb & HFb).
  assert (Hstep : root (S fuel) M' (sig (city_row U ca)) = Ok rb).
  { cbn [root]. rewrite Hedge. exact Hrootb. }
  pose proof (root_fuel_indep _ _ _ _ _ _ Hroota Hstep) as E. subst rb.
  exists da. rewrite Hga, Hgb, HFa, HFb. split; congruence.
Qed.

Lemma merged_clusters_share_canonical_witness :
  exists d,
    dict_get [ (py "stockholm", py "Stockholm");
               (py "Stockholm", py "Stockholm");
               (py "Stockholmm", py "Stockholm");
               (py "123", py "123"); (py "987", py "123") ]
             (raw (city_row latin1 (Text (py "Stockholmm")))) = Some d
    /\ dict_get [ (py "stockholm", py "Stockholm");
                  (py "Stockholm", py "Stockholm");
                  (py "Stockholmm", py "Stockholm");
                  (py "123", py "123"); (py "987", py "123") ]
                (raw (city_row latin1 (Text (py " Stockholm ")))) = Some d.
Proof.
  apply (merged_clusters_share_canonical latin1 3 stockholm_column
           default_cutoff _ [(py "stockholmm", py "stockholm")]);
    try (vm_compute; reflexivity); simpl; auto 8.
Defined.

(** ** clean_city *)

Lemma clean_city_unfold (U : unicode) (fuel : nat) (s : list cell) :
  clean_city U fuel s
  = (m <- build_city_canon U fuel s default_cutoff ;;
     Ok (map (fun c => if nonempty (city_text U c)
                       then Text (match dict_get m (city_text U c) with
                                  | Some d => d
                                  | None => city_text U c
                                  end)
                       else NA) s)).
Proof.
  unfold clean_city. destruct (build_city_canon U fuel s default_cutoff);
    simpl; [|reflexivity|reflexivity].
  f_equal. rewrite map_map. apply map_ext. intros c. unfold city_text.
  destruct (nonempty _); reflexivity.
Qed.

(** X15. [clean_city] never raises: it returns a column as long as its
    input, or root resolution does not come to an end. *)
Theorem clean_city_never_raises (U : unicode) (fuel : nat) (col : list cell) :
  (exists out, clean_city U fuel col = Ok out /\ length out = length col)
  \/ (clean_city U fuel col = OutOfFuel
      /\ root_unfinished U fuel col default_cutoff).
Proof.
  rewrite clean_city_unfold.
  destruct (build_city_canon_cases U fuel col default_cutoff eq_refl)
    as [[m Hm]|Hu].
  - left. rewrite Hm. simpl. eexists. split; [reflexivity|]. apply length_map.
  - right. split; [|exact Hu]. destruct Hu as [-> _]. reflexivity.
Qed.

(** X16. In the column [clean_city] returns, a cell is missing exactly when
    the text of the input cell is empty after trimming (a missing input cell
    reads as the text [astype(str)] makes of it, so it is not); every other
    cell is the trimmed text itself or the display form of a cluster of the
    column. *)
Theorem clean_city_values (U : unicode) (fuel : nat) (col out : list cell) :
  clean_city U fuel col = Ok out ->
  Forall2 (fun c o =>
             (city_text U c = [] /\ o = NA)
             \/ (city_text U c <> []
                 /\ (o = Text (city_text U c)
                     \/ exists d, cluster_display U col d /\ o = Text d)))
          col out.
Proof.
  rewrite clean_city_unfold. intros H. inv_bind H. injection H as <-.
  assert (G : forall l, Forall2 (fun c o =>
             (city_text U c = [] /\ o = NA)
             \/ (city_text U c <> []
                 /\ (o = Text (city_text U c)
                     \/ exists d, cluster_display U col d /\ o = Text d)))
          l (map (fun c => if nonempty (city_text U c)
                       then Text (match dict_get a (city_text U c) with
                                  | Some d => d
                                  | None => city_text U c
                                  end)
                       else NA) l)).
  { induction l as [|c l IH]; simpl; constructor; [|exact IH].
    destruct (city_text U c) as [|x v] eqn:E; [left; auto|].
    right. split; [discriminate|]. simpl.
    destruct (dict_get a (x :: v)) as [d|] eqn:Ed; [|left; reflexivity].
    right. exists d. split; [|reflexivity].
    destruct (mapping_value _ _ _ _ _ _ _ Ha Ed) as (M & r & _ & _ & _ & Hr & Hd).
    exists r. auto. }
  apply G.
Qed.

Lemma clean_city_values_witness :
  Forall2 (fun c o =>
             (city_text latin1 c = [] /\ o = NA)
             \/ (city_text latin1 c <> []
                 /\ (o = Text (city_text latin1 c)
                     \/ exists d, cluster_display latin1 paris_column d
                                  /\ o = Text d)))
          paris_column
          [Text (py "Paris"); Text (py "Paris"); Text (py "Paris");
           Text (py "Lyon")].
Proof.
  apply (clean_city_values latin1 2). vm_compute. reflexivity.
Defined.

(** ** The cutoff *)

Lemma mapping_of_blank_rows (FD : dict str) (tmp : list row) (m0 : dict str) :
  (forall r, In r tmp -> nonempty (basic r) = false) ->
  foldM (mapping_step FD) tmp m0 = Ok m0.
Proof.
  induction tmp as [|r tmp IH]; intros H; [reflexivity|].
  simpl. unfold mapping_step at 1. rewrite (H r (or_introl eq_refl)). simpl.
  apply IH. intros r' Hr'. apply H. right. exact Hr'.
Qed.

Lemma get_close_matches_bad_cutoff (word : str) (poss : list str) (cutoff : Q) :
  (Qle_bool 0 cutoff && Qle_bool cutoff 1)%bool = false ->
  difflib.get_close_matches word poss 1 cutoff = Raise ValueError.
Proof. unfold difflib.get_close_matches. intros ->. reflexivity. Qed.

(** X11. With a cutoff outside the interval from 0 to 1,
    [build_city_canon] raises [ValueError] (from [get_close_matches]) as soon
    as the column has a value with a basic form; on a column without any it
    returns the empty mapping. *)
Theorem build_city_canon_bad_cutoff (U : unicode) (fuel : nat)
    (col : list cell) (cutoff : Q) :
  (Qle_bool 0 cutoff && Qle_bool cutoff 1)%bool = false ->
  build_city_canon U fuel col cutoff
  = if nonempty (city_groups (city_rows U col)) then Raise ValueError
    else Ok [].
Proof.
  intros Hc. rewrite build_city_canon_plan. unfold city_plan.
  destruct (mapM_Ok_intro
              (fun g => d <- _choose_display_form U (snd g) ;; Ok (fst g, d))
              (city_groups (city_rows U col))) as [D HD].
  { intros [s l] Hin. apply city_groups_In in Hin. destruct Hin as [_ Hne].
    destruct (choose_display_form_ok U l Hne) as [d Hd].
    simpl. rewrite Hd. eexists; reflexivity. }
  rewrite HD. simpl. fold (city_sizes (city_groups (city_rows U col))).
  destruct (city_ordered_ok (city_sizes (city_groups (city_rows U col))))
    as (o & -> & Ho).
  simpl. rewrite city_merged_unfold.
  destruct (city_groups (city_rows U col)) as [|g groups] eqn:G.
  - assert (o = []) as ->.
    { destruct o as [|k o]; [reflexivity|].
      destruct (proj1 (Ho k) (or_introl eq_refl)). }
    simpl in HD. injection HD as <-. simpl.
    apply mapping_of_blank_rows. intros r Hr.
    destruct (nonempty (basic r)) eqn:E; [|reflexivity].
    destruct (row_in_group _ _ Hr E) as [Hg _]. rewrite G in Hg. discriminate.
  - assert (Hne : rev o <> []).
    { intros E. apply (f_equal (@rev str)) in E. rewrite rev_involutive in E.
      simpl in E. subst o. apply (Ho (fst g)). left. reflexivity. }
    destruct (rev o) as [|small l] eqn:R; [congruence|].
    assert (Hs : In small o).
    { apply in_rev. rewrite R. left. reflexivity. }
    destruct (filterM_Ok_intro (anchor_test (city_sizes (g :: groups)) small) o)
      as [anchors Ha].
    { intros x Hx. unfold anchor_test, dict_item.
      apply Ho, dict_get_keys in Hx. apply Ho, dict_get_keys in Hs.
      destruct (dict_get _ x); [|congruence].
      destruct (dict_get _ small); [|congruence].
      simpl. eexists; reflexivity. }
    cbn [foldM]. rewrite Ha. simpl.
    rewrite (get_close_matches_bad_cutoff _ _ _ Hc). reflexivity.
Qed.

Lemma build_city_canon_bad_cutoff_witness :
  build_city_canon latin1 2 paris_column (3 # 2)
  = (if nonempty (city_groups (city_rows latin1 paris_column))
     then Raise ValueError else Ok [])
  /\ build_city_canon latin1 2 paris_column (3 # 2) = Raise ValueError.
Proof.
  split; [|vm_compute; reflexivity].
  apply (build_city_canon_bad_cutoff latin1 2 paris_column (3 # 2)).
  reflexivity.
Defined.

(** ** The clusters of a column *)

Lemma total_size_append (d : dict (list str)) (k x : str) :
  total_size (city_sizes (dict_append d k x)) = S (total_size (city_sizes d)).
Proof.
  unfold dict_append. induction d as [|[k' l] d IH]; simpl; [reflexivity|].
  destruct (str_eqb k' k); simpl.
  - rewrite length_app. simpl. lia.
  - rewrite IH. lia.
Qed.

Lemma total_size_rows (tmp : list row) :
  total_size (city_sizes (city_groups tmp))
  = length (filter (fun r => nonempty (basic r)) tmp).
Proof.
  induction tmp as [|r tmp IH] using rev_ind; [reflexivity|].
  rewrite city_groups_snoc, filter_app, length_app. simpl.
  destruct (nonempty (basic r)); simpl.
  - rewrite total_size_append, IH. lia.
  - rewrite IH. lia.
Qed.

Lemma filter_map_length {A B} (p : B -> bool) (f : A -> B) (l : list A) :
  length (filter p (map f l)) = length (filter (fun x => p (f x)) l).
Proof.
  induction l as [|x l IH]; [reflexivity|]. simpl.
  destruct (p (f x)); simpl; rewrite IH; reflexivity.
Qed.

(** X7. The clusters partition the rows that have a basic form: no
    signature heads two clusters, every such row lies in the cluster of its
    signature, and the sizes of the clusters add up to the number of these
    rows. *)
Theorem clusters_partition_rows (U : unicode) (col : list cell) :
  NoDup (keys (city_groups (city_rows U col)))
  /\ (forall c, In c col -> nonempty (basic (city_row U c)) = true ->
        exists l, dict_get (city_groups (city_rows U col)) (sig (city_row U c))
                  = Some l /\ In (raw (city_row U c)) l)
  /\ total_size (city_sizes (city_groups (city_rows U col)))
     = length (filter (fun c => nonempty (basic (city_row U c))) col).
Proof.
  split; [apply city_groups_NoDup|]. split.
  - intros c Hc Hne.
    destruct (row_in_group _ _ (city_row_In U col c Hc) Hne) as [Hg Hin]. eauto.
  - rewrite total_size_rows. unfold city_rows.
    exact (filter_map_length (fun r => nonempty (basic r)) (city_row U) col).
Qed.

(** ** maybe_demojibake *)

(** X1. [maybe_demojibake] returns every string unchanged: a string that
    holds one of the two markers cannot be encoded as Latin-1, so the repair
    is never made.  The text U+00C3 U+00B6, which that repair would turn
    into U+00F6, is left as it is. *)
Theorem maybe_demojibake_never_repairs (x : str) :
  maybe_demojibake x = x
  /\ (has_marker x = true -> reencode x = None)
  /\ reencode [195; 182]%N = Some [246%N]
  /\ maybe_demojibake [195; 182]%N = [195; 182]%N.
Proof.
  split; [apply maybe_demojibake_id|]. split; [|split; reflexivity].
  unfold has_marker, reencode. intros H. apply orb_true_iff in H.
  destruct H as [H|H].
  - rewrite (encode_latin1_wide x 402%N); [reflexivity| |reflexivity].
    apply (contains_In _ _ _ H). simpl; auto.
  - rewrite (encode_latin1_wide x 8218%N); [reflexivity| |reflexivity].
    apply (contains_In _ _ _ H). simpl; auto.
Qed.

(** ** clean_name *)

Lemma ascii_chars (c : char) :
  (c < 128)%N -> In c (map N.of_nat (seq 0 128)).
Proof.
  intros H. apply in_map_iff. exists (N.to_nat c).
  split; [apply N2Nat.id|]. apply in_seq. lia.
Qed.

Lemma ascii_case_facts (c : char) :
  (c < 128)%N ->
  forall b : bool,
    exists d,
      (if b then [Latin1.lower_char (Latin1.lower_char c)]
       else Latin1.title_char (Latin1.lower_char c)) = [d]
      /\ (d < 128)%N
      /\ Latin1.is_cased (Latin1.lower_char d)
         = Latin1.is_cased (Latin1.lower_char c)
      /\ (if b then [Latin1.lower_char (Latin1.lower_char d)]
          else Latin1.title_char (Latin1.lower_char d)) = [d].
Proof.
  intros H.
  assert (G : forallb (fun c =>
            forallb (fun b : bool =>
              match (if b then [Latin1.lower_char (Latin1.lower_char c)]
                     else Latin1.title_char (Latin1.lower_char c)) with
              | [d] =>
                  N.ltb d 128
                  && Bool.eqb (Latin1.is_cased (Latin1.lower_char d))
                              (Latin1.is_cased (Latin1.lower_char c))
                  && str_eqb (if b then [Latin1.lower_char (Latin1.lower_char d)]
                              else Latin1.title_char (Latin1.lower_char d)) [d]
              | _ => false
              end) [true; false]) (map N.of_nat (seq 0 128)) = true)
    by (vm_compute; reflexivity).
  rewrite forallb_forall in G. specialize (G c (ascii_chars c H)).
  rewrite forallb_forall in G. intros b. specialize (G b).
  assert (Hb : In b [true; false]) by (destruct b; simpl; auto).
  specialize (G Hb).
  destruct (if b then [Latin1.lower_char (Latin1.lower_char c)]
            else Latin1.title_char (Latin1.lower_char c)) as [|d [|e l]];
    try discriminate.
  exists d. apply andb_true_iff in G. destruct G as [G G3].
  apply andb_true_iff in G. destruct G as [G1 G2].
  apply N.ltb_lt in G1. apply Bool.eqb_prop in G2. apply str_eqb_eq in G3.
  auto.
Qed.

Lemma title_lower_ascii (s : str) :
  is_ascii s ->
  forall b,
    is_ascii (Latin1.title_loop b (map Latin1.lower_char s))
    /\ Latin1.title_loop b
         (map Latin1.lower_char
            (Latin1.title_loop b (map Latin1.lower_char s)))
       = Latin1.title_loop b (map Latin1.lower_char s).
Proof.
  unfold is_ascii. induction 1 as [|c s Hc Hs IH]; intros b.
  - split; [constructor | reflexivity].
  - destruct (ascii_case_facts c Hc b) as (d & E1 & Hd & Hcase & E2).
    cbn [map Latin1.title_loop].
    destruct (IH (Latin1.is_cased (Latin1.lower_char c))) as [IHa IHe].
    assert (E1' : (if b then [Latin1.lower_char (Latin1.lower_char c)]
                   else Latin1.title_char (Latin1.lower_char c)) = [d])
      by exact E1.
    destruct b.
    + injection E1' as E1'.
      split; [constructor; [rewrite E1'; exact Hd | exact IHa]|].
      cbn [app map Latin1.title_loop]. rewrite E1'.
      injection E2 as E2. rewrite E2, Hcase, IHe. reflexivity.
    + rewrite E1'. cbn [app]. split; [constructor; assumption|].
      cbn [map Latin1.title_loop]. rewrite E2, Hcase, IHe. reflexivity.
Qed.

(** X4. On ASCII names [clean_name] is idempotent, and every cell it
    returns is an ASCII text: no cell is left missing. *)
Theorem clean_name_idempotent_on_ascii (s : list cell) :
  Forall (fun c => is_ascii (astype_str c)) s ->
  clean_name latin1 (clean_name latin1 s) = clean_name latin1 s
  /\ Forall (fun o => exists t, o = Text t /\ is_ascii t) (clean_name latin1 s).
Proof.
  intros H. unfold clean_name. split.
  - rewrite map_map. apply map_ext_in. intros c Hc. f_equal.
    rewrite Forall_forall in H. simpl.
    apply (title_lower_ascii (astype_str c) (H c Hc) false).
  - apply Forall_map. revert H. apply Forall_impl. intros c Hc.
    eexists. split; [reflexivity|].
    apply (title_lower_ascii (astype_str c) Hc false).
Qed.

Lemma clean_name_idempotent_on_ascii_witness :
  clean_name latin1
    (clean_name latin1 [Text (py "aNNA-maria o'NEIL"); NaN; NA; PyNone])
  = clean_name latin1 [Text (py "aNNA-maria o'NEIL"); NaN; NA; PyNone]
  /\ Forall (fun o => exists t, o = Text t /\ is_ascii t)
       (clean_name latin1 [Text (py "aNNA-maria o'NEIL"); NaN; NA; PyNone]).
Proof.
  apply (clean_name_idempotent_on_ascii
           [Text (py "aNNA-maria o'NEIL"); NaN; NA; PyNone]).
  repeat constructor.
Defined.

(** ** email, an instance *)

Lemma clean_email_accepts_only_wellformed_witness :
  [NA; Text (py "a@b.com")]
  = map (fun c => if email_keep (email_text latin1 c)
                  then Text (email_text latin1 c) else NA)
        [Text (py "a..b@x.com"); Text (py " A@B.CoM ")]
  /\ Forall (fun c => c = NA \/ exists t, c = Text t /\ email_wellformed t)
            [NA; Text (py "a@b.com")].
Proof.
  apply (clean_email_accepts_only_wellformed latin1
           [Text (py "a..b@x.com"); Text (py " A@B.CoM ")]).
  vm_compute. reflexivity.
Defined.

(** ** phone *)

Lemma filter_filter_none {A} (p q : A -> bool) (l : list A) :
  Forall (fun x => q x = false) l -> filter q (filter p l) = [].
Proof.
  induction 1 as [|x l Hx Hl IH]; [reflexivity|]. simpl.
  destruct (p x); simpl; [rewrite Hx|]; exact IH.
Qed.

Lemma filter_Forall {A} (p : A -> bool) (l : list A) :
  Forall (fun x => p x = true) (filter p l).
Proof.
  apply Forall_forall. intros x Hx. apply filter_In in Hx. apply Hx.
Qed.

(** X18. After the normalisation that opens [clean_phone], a phone number
    holds decimal digits and plus signs only, and at most one plus sign. *)
Theorem phone_normalize_alphabet (U : unicode) (c : cell) :
  Forall (fun x => isdecimal U x = true \/ x = 43%N) (phone_normalize U c)
  /\ length (filter is_plus (phone_normalize U c)) <= 1.
Proof.
  unfold phone_normalize.
  set (p := filter (fun c0 => isdecimal U c0 || is_plus c0) _).
  assert (Hp : Forall (fun x => isdecimal U x = true \/ x = 43%N) p).
  { apply Forall_forall. intros x Hx. apply filter_In in Hx.
    destruct Hx as [_ Hx]. apply orb_true_iff in Hx.
    destruct Hx as [Hx|Hx]; [left; exact Hx|]. right.
    apply N.eqb_eq in Hx. exact Hx. }
  destruct (length (filter is_plus p) <=? 1) eqn:E.
  - split; [exact Hp|]. apply Nat.leb_le, E.
  - split.
    + constructor; [right; reflexivity|].
      eapply Forall_impl; [|apply filter_Forall]. simpl. auto.
    + simpl. rewrite filter_filter_none; [simpl; lia|].
      eapply Forall_impl; [|apply (after_last_Forall is_plus (fun _ => True))].
      * simpl. intros a [_ Ha]. exact Ha.
      * apply Forall_forall. auto.
Qed.

Lemma forallb_Forall {A} (p : A -> bool) (l : list A) :
  forallb p l = true <-> Forall (fun x => p x = true) l.
Proof.
  rewrite forallb_forall, Forall_forall. reflexivity.
Qed.


(** On a string of decimal digits, the two groups of the pattern
    [^(\d{1,3})(\d+)$] split it after [k] digits, if more follow. *)
Lemma phone_groups_at_digits (U : unicode) (digits : str) (k : nat) :
  Forall (fun c => isdecimal U c = true) digits ->
  phone_groups_at U digits k
  = if k <? length digits then Some (firstn k digits, skipn k digits)
    else None.
Proof.
  intros H. unfold phone_groups_at.
  assert (Hr : Forall (fun c => isdecimal U c = true) (skipn k digits)).
  { apply Forall_forall. intros x Hx. rewrite Forall_forall in H.
    apply H. rewrite <- (firstn_skipn k digits). apply in_or_app. auto. }
  assert (Hg1 : Forall (fun c => isdecimal U c = true) (firstn k digits)).
  { apply Forall_forall. intros x Hx. rewrite Forall_forall in H.
    apply H. rewrite <- (firstn_skipn k digits). apply in_or_app. auto. }
  assert (E : lstrip_by (fun c => negb (isdecimal U c)) (rev (skipn k digits))
              = rev (skipn k digits)).
  { apply lstrip_by_fixed. apply Forall_rev in Hr.
    destruct (rev (skipn k digits)) as [|c l]; [exact I|].
    inversion Hr; subst. rewrite H2. reflexivity. }
  rewrite E, rev_involutive, skipn_all.
  rewrite (proj2 (forallb_Forall _ _) Hg1), (proj2 (forallb_Forall _ _) Hr).
  rewrite length_firstn. simpl. rewrite !andb_true_r.
  destruct (k <? length digits) eqn:Ek.
  - apply Nat.ltb_lt in Ek.
    rewrite (proj2 (Nat.eqb_eq _ _)) by lia. simpl.
    destruct (skipn k digits) as [|c l] eqn:Es; [|reflexivity].
    apply (f_equal (@length _)) in Es. rewrite length_skipn in Es.
    simpl in Es. lia.
  - apply Nat.ltb_ge in Ek.
    destruct (Nat.min k (length digits) =? k) eqn:E1; [|reflexivity].
    rewrite skipn_all2 by exact Ek. reflexivity.
Qed.

Lemma ascii_decimals_format (U : unicode) :
  ascii_decimals U ->
  forall a b,
    Forall (fun c => isdecimal U c = true) a ->
    Forall (fun c => isdecimal U c = true) b ->
    filter (isdecimal U) (py "(+" ++ a ++ py ") " ++ b) = a ++ b.
Proof.
  intros HU a b Ha Hb.
  assert (H40 : isdecimal U 40%N = false) by (rewrite HU; reflexivity).
  assert (H43 : isdecimal U 43%N = false) by (rewrite HU; reflexivity).
  assert (H41 : isdecimal U 41%N = false) by (rewrite HU; reflexivity).
  assert (H32 : isdecimal U 32%N = false) by (rewrite HU; reflexivity).
  change (py "(+") with [40; 43]%N. change (py ") ") with [41; 32]%N.
  rewrite !filter_app. simpl. rewrite H40, H43, H41, H32. simpl.
  rewrite (filter_all _ _ Ha), (filter_all _ _ Hb). reflexivity.
Qed.

(** X20. For a country that is not in [COUNTRY_DIAL], every phone number
    [clean_phone] keeps has 7 to 15 digits and is written with its first
    three digits as the dial code, whatever the length of the real one. *)
Theorem unknown_country_takes_three_digits (U : unicode) (phone cntry : cell)
    (v : str) :
  ascii_decimals U ->
  dict_get COUNTRY_DIAL (astype_str cntry) = None ->
  clean_phone_value U phone cntry = Text v ->
  7 <= length (filter (isdecimal U) (phone_normalize U phone)) <= 15
  /\ v = py "(+" ++ firstn 3 (filter (isdecimal U) (phone_normalize U phone))
         ++ py ") " ++ skipn 3 (filter (isdecimal U) (phone_normalize U phone)).
Proof.
  intros HU Hc. unfold clean_phone_value, phone_fmt. rewrite Hc.
  set (raw := phone_normalize U phone).
  set (digits := filter (isdecimal U) raw).
  assert (Hd : Forall (fun c => isdecimal U c = true) digits)
    by apply filter_Forall.
  destruct (nonempty raw); cbn [negb]; [|discriminate].
  unfold phone_groups. rewrite !(phone_groups_at_digits U digits) by exact Hd.
  assert (Hfs : forall k,
             filter (isdecimal U)
               (py "(+" ++ firstn k digits ++ py ") " ++ skipn k digits)
             = digits).
  { intros k. rewrite (ascii_decimals_format U HU).
    - apply firstn_skipn.
    - apply Forall_forall. intros x Hx. rewrite Forall_forall in Hd.
      apply Hd. rewrite <- (firstn_skipn k digits). apply in_or_app. auto.
    - apply Forall_forall. intros x Hx. rewrite Forall_forall in Hd.
      apply Hd. rewrite <- (firstn_skipn k digits). apply in_or_app. auto. }
  destruct (3 <? length digits) eqn:E3.
  - rewrite Hfs.
    destruct ((7 <=? length digits) && (length digits <=? 15)) eqn:E;
      [|discriminate].
    intros [= <-]. apply andb_true_iff in E. destruct E as [E1 E2].
    apply Nat.leb_le in E1. apply Nat.leb_le in E2. split; [lia|reflexivity].
  - apply Nat.ltb_ge in E3.
    assert (F : (7 <=? length digits) && (length digits <=? 15) = false).
    { apply andb_false_iff. left. apply Nat.leb_gt. lia. }
    destruct (2 <? length digits); [rewrite Hfs, F; discriminate|].
    destruct (1 <? length digits); [rewrite Hfs, F; discriminate|].
    fold digits. rewrite F. discriminate.
Qed.

Lemma unknown_country_takes_three_digits_witness :
  7 <= length (filter (isdecimal latin1)
                 (phone_normalize latin1 (Text (py "+1 (555) 010-9999"))))
    <= 15
  /\ py "(+155) 50109999"
     = py "(+" ++ firstn 3 (filter (isdecimal latin1)
                  (phone_normalize latin1 (Text (py "+1 (555) 010-9999"))))
       ++ py ") " ++ skipn 3 (filter (isdecimal latin1)
                  (phone_normalize latin1 (Text (py "+1 (555) 010-9999")))).
Proof.
  apply (unknown_country_takes_three_digits latin1
           (Text (py "+1 (555) 010-9999")) (Text (py "Canada"))).
  - intros c _. reflexivity.
  - reflexivity.
  - vm_compute. reflexivity.
Defined.




Lemma combine_repeat {A B} (l : list A) (b : B) :
  combine l (repeat b (length l)) = map (fun a => (a, b)) l.
Proof. induction l as [|a l IH]; simpl; [|rewrite IH]; reflexivity. Qed.

(** X21. Without a country column [clean_phone] cleans every phone number
    as under no country.  With one it returns a column as long as the phone
    column when the country column is at least as long, and raises
    [ValueError] when the country column is shorter. *)
Theorem clean_phone_lengths (U : unicode) (phone : list cell) :
  clean_phone U phone None
  = Ok (map (fun p => clean_phone_value U p PyNone) phone)
  /\ forall country,
       (length phone <= length country ->
        exists out, clean_phone U phone (Some country) = Ok out
                    /\ length out = length phone)
       /\ (length country < length phone ->
           clean_phone U phone (Some country) = Raise ValueError).
Proof.
  unfold clean_phone. split.
  - rewrite combine_repeat, map_map, length_map, Nat.eqb_refl. reflexivity.
  - intros country. rewrite length_map, length_combine. split; intros H.
    + rewrite Nat.min_l, Nat.eqb_refl by exact H.
      eexists. split; [reflexivity|].
      rewrite length_map, length_combine. lia.
    + rewrite Nat.min_r by lia.
      destruct (Nat.eqb_spec (length country) (length phone)); [lia|].
      reflexivity.
Qed.

(** ** date, value by value *)

Lemma parse_loop_reading (P : date_env) (t : str) (flags : list bool)
    (dt : timestamp) :
  parse_loop P t flags = Some dt ->
  (exists dayfirst, In dayfirst flags /\ to_datetime P t dayfirst = Some dt)
  /\ (year dt <= now_year P + 50)%Z.
Proof.
  induction flags as [|f flags IH]; simpl; [discriminate|].
  destruct (to_datetime P t f) as [d|] eqn:E.
  - destruct (now_year P + 50 <? year d)%Z eqn:Ey; [discriminate|].
    intros [= <-]. apply Z.ltb_ge in Ey. split; [|exact Ey].
    exists f. auto.
  - intros H. destruct (IH H) as [(g & Hg & Hp) Hy]. split; [|exact Hy].
    exists g. auto.
Qed.

(** X22. A cleaned date is missing, or it is the date one of the two
    readings of the text of the cell parses to, in the format YYYY-MM-DD;
    its year is then at most 50 years ahead of the current one, and the
    input cell is neither [None] nor NaN. *)
Theorem clean_date_value_cases (U : unicode) (P : date_env) (x : cell) :
  (clean_date_value U P x = NaN /\ parse_one U P x = None)
  \/ exists dt dayfirst,
       to_datetime P (date_text U x) dayfirst = Some dt
       /\ (year dt <= now_year P + 50)%Z
       /\ x <> NaN /\ x <> PyNone
       /\ clean_date_value U P x = Text (strftime_iso dt).
Proof.
  unfold clean_date_value. destruct (parse_one U P x) as [dt|] eqn:E;
    [right | left; auto].
  assert (L : parse_loop P (date_text U x) [false; true] = Some dt
              /\ x <> NaN /\ x <> PyNone).
  { destruct x; try discriminate; repeat split; try discriminate; exact E. }
  destruct L as (L & H1 & H2).
  destruct (parse_loop_reading _ _ _ _ L) as [(f & _ & Hf) Hy].
  exists dt, f. auto.
Qed.

(** ** price: the text handed to float *)

Lemma digit_is_no_separator (c : char) :
  is_09 c = true -> is_dot c = false /\ is_comma c = false.
Proof.
  unfold is_09, in_range, is_dot, is_comma. intros H.
  apply andb_true_iff in H. destruct H as [H1 H2].
  apply N.leb_le in H1. apply N.leb_le in H2.
  split; apply N.eqb_neq; lia.
Qed.

Lemma amount_char_cases (c : char) :
  is_09 c || is_comma c || is_dot c = true ->
  is_comma c = false -> is_amount_char c = true.
Proof.
  unfold is_amount_char. intros H Hc. rewrite Hc, orb_false_r in H. exact H.
Qed.

Lemma separators_alphabet (t : str) :
  Forall (fun c => is_09 c || is_comma c || is_dot c = true) t ->
  Forall (fun c => is_amount_char c = true) (amount_separators t)
  /\ filter is_09 (amount_separators t) = filter is_09 t.
Proof.
  intros H.
  assert (Rm : forall u,
             Forall (fun c => is_09 c || is_comma c || is_dot c = true) u ->
             Forall (fun c => is_amount_char c = true) (remove_char 44%N u)
             /\ filter is_09 (remove_char 44%N u) = filter is_09 u).
  { induction 1 as [|c u Hc Hu [IH1 IH2]]; [split; [constructor|reflexivity]|].
    unfold remove_char in *. simpl.
    destruct (N.eqb c 44) eqn:E; simpl.
    - split; [exact IH1|]. destruct (is_09 c) eqn:D; [|exact IH2].
      destruct (digit_is_no_separator c D) as [_ X].
      unfold is_comma in X. congruence.
    - split.
      + constructor; [apply amount_char_cases; assumption | exact IH1].
      + rewrite IH2. reflexivity. }
  assert (Rp : forall u,
             Forall (fun c => is_09 c || is_comma c || is_dot c = true) u ->
             Forall (fun c => is_amount_char c = true)
                    (replace_char 44%N 46%N u)
             /\ filter is_09 (replace_char 44%N 46%N u) = filter is_09 u).
  { induction 1 as [|c u Hc Hu [IH1 IH2]]; [split; [constructor|reflexivity]|].
    unfold replace_char in *. simpl.
    destruct (N.eqb c 44) eqn:E; simpl.
    - split; [constructor; [reflexivity | exact IH1]|].
      destruct (is_09 c) eqn:D; [|exact IH2].
      destruct (digit_is_no_separator c D) as [_ X].
      unfold is_comma in X. congruence.
    - split.
      + constructor; [apply amount_char_cases; assumption | exact IH1].
      + rewrite IH2. reflexivity. }
  assert (Rd : forall u,
             Forall (fun c => is_09 c || is_comma c || is_dot c = true) u ->
             Forall (fun c => is_09 c || is_comma c || is_dot c = true)
                    (remove_char 46%N u)
             /\ filter is_09 (remove_char 46%N u) = filter is_09 u).
  { induction 1 as [|c u Hc Hu [IH1 IH2]]; [split; [constructor|reflexivity]|].
    unfold remove_char in *. simpl.
    destruct (N.eqb c 46) eqn:E; simpl.
    - split; [exact IH1|]. destruct (is_09 c) eqn:D; [|exact IH2].
      destruct (digit_is_no_separator c D) as [X _].
      unfold is_dot in X. congruence.
    - split; [constructor; assumption|]. rewrite IH2. reflexivity. }
  unfold amount_separators.
  destruct (existsb is_comma t) eqn:Ec; simpl.
  - destruct (existsb is_dot t); simpl.
    + destruct (rfind 46%N t <? rfind 44%N t)%Z.
      * destruct (Rd t H) as [H1 H2]. destruct (Rp _ H1) as [H3 H4].
        split; [exact H3 | congruence].
      * apply Rm, H.
    + destruct ((length (after_last is_comma t) =? 2)
                || (length (after_last is_comma t) =? 3));
        [apply Rp, H | apply Rm, H].
  - split; [|reflexivity]. apply existsb_false_Forall in Ec.
    rewrite Forall_forall in *. intros c Hc.
    apply amount_char_cases; auto.
Qed.

Lemma amount_text_alphabet_aux (U : unicode) (raw : str) :
  Forall (fun c => is_amount_char c = true) (amount_text U raw).
Proof. apply separators_alphabet, amount_chars_class. Qed.

(** X23. The text [_normalize_amount] hands to [float] holds digits and
    dots only, and its digits are those of the input, in their order: the
    tests on the separators add and drop no digit. *)
Theorem amount_text_alphabet (U : unicode) (raw : str) :
  Forall (fun c => is_amount_char c = true) (amount_text U raw)
  /\ filter is_09 (amount_text U raw) = filter is_09 (amount_chars U raw).
Proof. apply separators_alphabet, amount_chars_class. Qed.

Lemma split1_spec (sep : char) (s : str) :
  ~ In sep (fst (split1 sep s))
  /\ s = fst (split1 sep s)
         ++ match snd (split1 sep s) with
            | Some b => sep :: b
            | None => []
            end.
Proof.
  induction s as [|c s [IH1 IH2]]; simpl; [auto|].
  destruct (N.eqb_spec c sep) as [->|Hne]; simpl; [auto|].
  destruct (split1 sep s) as [a o]. simpl in *. split.
  - intros [E|E]; [congruence | exact (IH1 E)].
  - f_equal. exact IH2.
Qed.

Lemma digits_of_amount_chars (u : str) :
  Forall (fun c => is_amount_char c = true) u -> ~ In 46%N u ->
  forallb is_09 u = true /\ filter is_09 u = u /\ filter is_dot u = [].
Proof.
  induction 1 as [|c u Hc Hu IH]; intros Hn; [auto|].
  assert (D : is_09 c = true).
  { unfold is_amount_char in Hc. apply orb_true_iff in Hc.
    destruct Hc as [Hc|Hc]; [exact Hc|]. exfalso. apply Hn. left.
    apply N.eqb_eq, Hc. }
  destruct IH as (I1 & I2 & I3); [intros X; apply Hn; right; exact X|].
  destruct (digit_is_no_separator c D) as [X _].
  simpl. rewrite D, X, I1, I2, I3. auto.
Qed.

Lemma dots_of_amount_chars (u : str) :
  Forall (fun c => is_amount_char c = true) u ->
  forallb is_09 u = false -> filter is_dot u <> [].
Proof.
  induction 1 as [|c u Hc Hu IH]; simpl; [discriminate|].
  destruct (is_09 c) eqn:D; simpl.
  - intros E. destruct (is_dot c); [discriminate | exact (IH E)].
  - intros _. unfold is_amount_char in Hc. rewrite D in Hc. simpl in Hc.
    rewrite Hc. discriminate.
Qed.

(** [float] refuses a text of digits and dots when it has no digit, or more
    than one dot. *)
Lemma of_str_fails (t : str) :
  Forall (fun c => is_amount_char c = true) t ->
  pyfloat.of_str t = None
  <-> filter is_09 t = [] \/ 2 <= length (filter is_dot t).
Proof.
  intros H. unfold pyfloat.of_str.
  destruct (split1_spec 46%N t) as [Hn Ht].
  destruct (split1 46%N t) as [ip o]. simpl in Hn, Ht.
  assert (Hip : Forall (fun c => is_amount_char c = true) ip).
  { rewrite Forall_forall in *. intros c Hc. apply H. rewrite Ht.
    apply in_or_app. auto. }
  destruct (digits_of_amount_chars ip Hip Hn) as (I1 & I2 & I3).
  rewrite I1. destruct o as [fp|].
  - assert (Hfp : Forall (fun c => is_amount_char c = true) fp).
    { rewrite Forall_forall in *. intros c Hc. apply H. rewrite Ht.
      apply in_or_app. right. right. exact Hc. }
    assert (F9 : filter is_09 t = ip ++ filter is_09 fp).
    { rewrite Ht, filter_app, I2. reflexivity. }
    assert (Fd : length (filter is_dot t) = S (length (filter is_dot fp))).
    { rewrite Ht, filter_app, I3. reflexivity. }
    rewrite F9, Fd. destruct (forallb is_09 fp) eqn:E; simpl.
    + assert (G : filter is_09 fp = fp /\ filter is_dot fp = []).
      { apply forallb_Forall in E. split; [apply filter_all, E|].
        clear - E. induction E as [|c u D _ IH]; [reflexivity|]. simpl.
        destruct (digit_is_no_separator c D) as [-> _]. exact IH. }
      destruct G as [-> ->]. simpl.
      destruct (ip ++ fp); simpl; split; intros X;
        try discriminate; auto; destruct X as [X|X];
        try discriminate; lia.
    + split; [intros _|reflexivity]. right.
      pose proof (dots_of_amount_chars fp Hfp E) as X.
      destruct (filter is_dot fp); [congruence | simpl; lia].
  - rewrite app_nil_r in Ht. subst ip. rewrite I2, I3, app_nil_r. simpl.
    destruct t; simpl; split; intros X; try discriminate; auto;
      destruct X as [X|X]; try discriminate; lia.
Qed.

Lemma normalize_amount_fails (U : unicode) (raw : str) :
  _normalize_amount U raw = None
  <-> filter is_09 (amount_text U raw) = []
      \/ 2 <= length (filter is_dot (amount_text U raw)).
Proof.
  unfold _normalize_amount.
  pose proof (of_str_fails _ (amount_text_alphabet_aux U raw)) as F.
  destruct (amount_text U raw) as [|x t] eqn:E.
  - simpl. split; auto.
  - cbn [nonempty]. exact F.
Qed.

Lemma Forall2_map_right {A B} (R : A -> B -> Prop) (f : A -> B) (l : list A) :
  (forall x, In x l -> R x (f x)) -> Forall2 R l (map f l).
Proof.
  induction l as [|x l IH]; intros H; simpl; constructor.
  - apply H. left. reflexivity.
  - apply IH. intros y Hy. apply H. right. exact Hy.
Qed.

(** X24. [_normalize_amount] gives no amount exactly when the text it hands
    to [float] has no digit or more than one dot.  In the column
    [clean_total_spent] returns, such a value is missing only when no value
    of the column has an amount; as soon as one has, it comes out as the
    text "nan", followed by its currency if it has one.  An amount with two
    grouping commas and no decimals, as 1,234,567, is such a value. *)
Theorem unparsed_amounts_in_a_column (U : unicode) (s : list cell) :
  (forall raw,
     _normalize_amount U raw = None
     <-> filter is_09 (amount_text U raw) = []
         \/ 2 <= length (filter is_dot (amount_text U raw)))
  /\ Forall2
       (fun c o =>
          _normalize_amount U (astype_str c) = None ->
          if existsb (fun c' => parses (_normalize_amount U (astype_str c'))) s
          then o = Text (py "nan"
                         ++ match total_spent_currency U (astype_str c) with
                            | Some cur => py " " ++ cur
                            | None => []
                            end)
          else o = NA)
       s (clean_total_spent U s)
  /\ clean_total_spent latin1
       [Text (py "1,234,567"); Text (py "5"); Text (py "abc eur")]
     = [Text (py "nan"); Text (py "5.00"); Text (py "nan EUR")]
  /\ clean_total_spent latin1 [Text (py "1,234,567")] = [NA].
Proof.
  split; [apply normalize_amount_fails|].
  split; [|split; vm_compute; reflexivity].
  rewrite clean_total_spent_cells. apply Forall2_map_right.
  intros c _ Hc. rewrite Hc. simpl amount_cell.
  destruct (existsb _ s); [|reflexivity].
  simpl. destruct (total_spent_currency U (astype_str c)); reflexivity.
Qed.

(** ** Cycles of merge edges *)

Lemma root_out_of_fuel (M : dict str) (fuel : nat) (s : str) :
  root fuel M s = OutOfFuel <-> walk fuel M s <> None.
Proof.
  revert s. induction fuel as [|fuel IH]; intros s; simpl.
  - split; [discriminate | reflexivity].
  - destruct (dict_get M s) as [t|]; [apply IH|].
    split; [discriminate | congruence].
Qed.

Lemma walk_add (M : dict str) (a b : nat) (s : str) :
  walk (a + b) M s
  = match walk a M s with Some t => walk b M t | None => None end.
Proof.
  revert s. induction a as [|a IH]; intros s; simpl; [reflexivity|].
  destruct (dict_get M s) as [t|]; [apply IH | reflexivity].
Qed.

Lemma walk_around (M : dict str) (n : nat) (s : str) :
  walk n M s = Some s -> forall k, walk (k * n) M s = Some s.
Proof.
  intros H. induction k as [|k IH]; [reflexivity|].
  simpl. rewrite walk_add, H. exact IH.
Qed.

Lemma cycle_never_ends (M : dict str) (n : nat) (s : str) :
  0 < n -> walk n M s = Some s -> forall fuel, root fuel M s = OutOfFuel.
Proof.
  intros Hn H fuel. apply root_out_of_fuel.
  pose proof (walk_around M n s H fuel) as W.
  replace (fuel * n) with (fuel + (fuel * n - fuel)) in W by nia.
  rewrite walk_add in W. destruct (walk fuel M s); [discriminate|].
  discriminate.
Qed.

Lemma trace_head (n : nat) (M : dict str) (s : str) :
  exists l, trace n M s = s :: l.
Proof. destruct n; simpl; eauto. Qed.

Lemma trace_length (n : nat) (M : dict str) (s t : str) :
  walk n M s = Some t -> length (trace n M s) = S n.
Proof.
  revert s. induction n as [|n IH]; intros s; simpl; [reflexivity|].
  destruct (dict_get M s) as [u|]; [|discriminate].
  intros H. rewrite (IH u H). reflexivity.
Qed.

Lemma trace_incl (K : list str) (M : dict str) :
  (forall a b, dict_get M a = Some b -> In b K) ->
  forall n s, In s K -> incl (trace n M s) K.
Proof.
  intros HM. induction n as [|n IH]; intros s Hs x; simpl.
  - intros [<-|[]]. exact Hs.
  - intros [<-|Hx]; [exact Hs|].
    destruct (dict_get M s) as [u|] eqn:E; [|destruct Hx].
    exact (IH u (HM _ _ E) x Hx).
Qed.

Lemma trace_return (M : dict str) (l2 l3 : list str) (x : str) :
  forall n s, trace n M s = s :: l2 ++ x :: l3 ->
              walk (S (length l2)) M s = Some x.
Proof.
  induction l2 as [|y l2 IH]; intros n s H.
  - destruct n as [|n]; simpl in H; [discriminate|].
    simpl. destruct (dict_get M s) as [t|]; [|discriminate].
    destruct (trace_head n M t) as [l Hl]. rewrite Hl in H.
    injection H as -> _. reflexivity.
  - destruct n as [|n]; simpl in H; [discriminate|].
    cbn [walk length]. destruct (dict_get M s) as [t|]; [|discriminate].
    destruct (trace_head n M t) as [l Hl]. injection H as H.
    rewrite Hl in H. injection H as -> H. apply (IH n). rewrite Hl, H.
    reflexivity.
Qed.

Lemma trace_repeat (M : dict str) (l1 l2 l3 : list str) (x : str) :
  forall n s, trace n M s = l1 ++ x :: l2 ++ x :: l3 ->
              walk (S (length l2)) M x = Some x.
Proof.
  induction l1 as [|a l1 IH]; intros n s H.
  - destruct (trace_head n M s) as [l Hl]. simpl in H.
    assert (s = x) by congruence. subst s.
    exact (trace_return M l2 l3 x n x H).
  - destruct n as [|n]; simpl in H.
    + injection H as _ H. destruct l1; discriminate.
    + injection H as _ H.
      destruct (dict_get M s) as [t|]; [exact (IH n t H)|].
      destruct l1; discriminate.
Qed.

Lemma repeated_element (l : list str) :
  NoDup l \/ exists x l1 l2 l3, l = l1 ++ x :: l2 ++ x :: l3.
Proof.
  induction l as [|a l [IH|(x & l1 & l2 & l3 & ->)]].
  - left. constructor.
  - destruct (in_dec (list_eq_dec N.eq_dec) a l) as [Hin|Hn].
    + right. apply in_split in Hin. destruct Hin as (l2 & l3 & ->).
      exists a, [], l2, l3. reflexivity.
    + left. constructor; assumption.
  - right. exists x, (a :: l1), l2, l3. reflexivity.
Qed.

(** A walk longer than the number of clusters meets a cluster twice. *)
Lemma long_walk_cycles (K : list str) (M : dict str) (n : nat) (s t : str) :
  (forall a b, dict_get M a = Some b -> In b K) ->
  In s K -> length K <= n -> walk n M s = Some t -> merge_cycle M.
Proof.
  intros HM Hs Hn Hw.
  destruct (repeated_element (trace n M s)) as [Hnd|(x & l1 & l2 & l3 & E)].
  - pose proof (NoDup_incl_length Hnd (trace_incl K M HM n s Hs)) as L.
    rewrite (trace_length n M s t Hw) in L. lia.
  - exists x, (S (length l2)). split; [lia|].
    exact (trace_repeat M l1 l2 l3 x n s E).
Qed.

Lemma walk_grows (sizes : dict nat) (ordered : list str) (cutoff : Q)
    (M : dict str) :
  city_merged sizes ordered cutoff = Ok M ->
  forall n s t ns, walk n M s = Some t -> dict_get sizes s = Some ns ->
    exists nt, dict_get sizes t = Some nt /\ ns <= nt.
Proof.
  intros HM. induction n as [|n IH]; intros s t ns; simpl.
  - intros [= <-] Hs. eauto.
  - destruct (dict_get M s) as [u|] eqn:E; [|discriminate]. intros Hw Hs.
    destruct (merge_edge_grows _ _ _ _ _ _ HM E) as (a & b & Ha & Hb & Hab & _).
    destruct (IH u t b Hw Hb) as (nt & Ht & Hle).
    exists nt. split; [exact Ht|]. rewrite Hs in Ha. injection Ha as <-. lia.
Qed.

Lemma build_city_canon_from_plan (U : unicode) (fuel : nat) (col : list cell)
    (cutoff : Q) (p : list row * dict str * dict str) :
  city_plan U col cutoff = Ok p ->
  (exists m, build_city_canon U fuel col cutoff = Ok m)
  \/ (build_city_canon U fuel col cutoff = OutOfFuel
      /\ exists s, In s (keys (city_groups (city_rows U col)))
                   /\ root fuel (snd p) s = OutOfFuel).
Proof.
  intros Hp. rewrite build_city_canon_plan, Hp. simpl.
  destruct (city_plan_inv _ _ _ _ Hp) as (Htmp & Hk & _).
  destruct p as [[tmp D] M]. simpl in *. subst tmp.
  destruct (city_final_disp_cases fuel M D) as [[FD HFD]|[HFD (s & Hs & Hr)]];
    rewrite HFD; simpl.
  - left. apply city_mapping_ok. intros r Hr Hne.
    rewrite (city_final_disp_keys _ _ _ _ HFD), Hk.
    apply dict_get_keys. destruct (row_in_group _ _ Hr Hne) as [-> _].
    discriminate.
  - right. split; [reflexivity|]. exists s. rewrite <- Hk. auto.
Qed.

(** X9. [build_city_canon] fails to return exactly when the merge edges of
    the column form a cycle: with a cycle it returns for no number of turns
    of the loop of [root]; without one it returns within one turn more than
    there are clusters.  A cycle runs through clusters of one size. *)
Theorem returns_unless_merge_cycle (U : unicode) (col : list cell)
    (cutoff : Q) (M : dict str) :
  city_merge_edges U col cutoff = Ok M ->
  (merge_cycle M ->
   forall fuel, build_city_canon U fuel col cutoff = OutOfFuel)
  /\ (~ merge_cycle M ->
      exists m,
        build_city_canon U (S (length (city_groups (city_rows U col)))) col
          cutoff = Ok m)
  /\ (forall s t n,
        0 < n -> walk n M s = Some s -> dict_get M s = Some t ->
        length (members (city_rows U col) s)
        = length (members (city_rows U col) t)).
Proof.
  intros HM. unfold city_merge_edges in HM. inv_bind HM. injection HM as <-.
  rename a into p. rename Ha into Hp.
  destruct (city_plan_inv _ _ _ _ Hp) as (_ & Hk & _ & o & _ & Hm).
  assert (Hedge : forall a b, dict_get (snd p) a = Some b ->
            In a (keys (city_groups (city_rows U col)))
            /\ In b (keys (city_groups (city_rows U col)))).
  { intros a b E.
    destruct (merge_edge_grows _ _ _ _ _ _ Hm E) as (na & nb & Ha & Hb & _).
    rewrite <- city_sizes_keys. split; apply dict_get_keys; congruence. }
  split; [|split].
  - intros (s & n & Hn & Hw) fuel.
    assert (Hs : In s (keys (city_groups (city_rows U col)))).
    { destruct n as [|n]; [lia|]. simpl in Hw.
      destruct (dict_get (snd p) s) as [t|] eqn:E; [|discriminate].
      apply (Hedge s t E). }
    destruct (build_city_canon_from_plan U fuel col cutoff p Hp)
      as [[m Hb]|[Hb _]]; [|exact Hb].
    destruct (build_city_canon_spec _ _ _ _ _ Hb) as (D & M' & FD & Hp' & HFD & _).
    rewrite Hp in Hp'. injection Hp' as ->. simpl in *.
    rewrite <- Hk in Hs.
    destruct (city_final_disp_get _ _ _ _ _ HFD Hs) as (r & _ & Hr & _).
    rewrite (cycle_never_ends M' n s Hn Hw fuel) in Hr. discriminate.
  - intros Hno.
    destruct (build_city_canon_from_plan U
                (S (length (city_groups (city_rows U col)))) col cutoff p Hp)
      as [Hb|[_ (s & Hs & Hr)]]; [exact Hb|].
    exfalso. apply Hno. apply root_out_of_fuel in Hr.
    destruct (walk _ (snd p) s) as [t|] eqn:W; [|congruence].
    apply (long_walk_cycles (keys (city_groups (city_rows U col))) (snd p)
             (S (length (city_groups (city_rows U col)))) s t).
    + intros a b E. apply (Hedge a b E).
    + exact Hs.
    + unfold keys. rewrite length_map. lia.
    + exact W.
  - intros s t n Hn Hw E.
    destruct (merge_edge_grows _ _ _ _ _ _ Hm E) as (ns & nt & Hs & Ht & Hle & _).
    destruct n as [|n]; [lia|]. simpl in Hw. rewrite E in Hw.
    destruct (walk_grows _ _ _ _ Hm n t s nt Hw Ht) as (ns' & Hs' & Hle').
    rewrite Hs in Hs'. injection Hs' as <-.
    destruct (cluster_size _ _ _ _ Hs) as [-> _].
    destruct (cluster_size _ _ _ _ Ht) as [-> _]. lia.
Qed.

Lemma returns_unless_merge_cycle_witness :
  (merge_cycle [ (py "gothenburgh", py "gothenburg");
                 (py "gothenburg", py "gothenburgh") ] ->
   forall fuel,
     build_city_canon latin1 fuel gothenburg_column default_cutoff = OutOfFuel)
  /\ (~ merge_cycle [ (py "gothenburgh", py "gothenburg");
                      (py "gothenburg", py "gothenburgh") ] ->
      exists m,
        build_city_canon latin1
          (S (length (city_groups (city_rows latin1 gothenburg_column))))
          gothenburg_column default_cutoff = Ok m)
  /\ (forall s t n,
        0 < n ->
        walk n [ (py "gothenburgh", py "gothenburg");
                 (py "gothenburg", py "gothenburgh") ] s = Some s ->
        dict_get [ (py "gothenburgh", py "gothenburg");
                   (py "gothenburg", py "gothenburgh") ] s = Some t ->
        length (members (city_rows latin1 gothenburg_column) s)
        = length (members (city_rows latin1 gothenburg_column) t)).
Proof.
  apply (returns_unless_merge_cycle latin1 gothenburg_column default_cutoff).
  vm_compute. reflexivity.
Defined.

(** ** The order of strings and of scored candidates *)

Lemma str_ltb_trichotomy (a b : str) :
  a = b \/ str_ltb a b = true \/ str_ltb b a = true.
Proof.
  revert b. induction a as [|x a IH]; intros [|y b]; simpl; auto.
  destruct (N.lt_trichotomy x y) as [H|[->|H]].
  - right; left. apply N.ltb_lt in H. rewrite H. reflexivity.
  - rewrite N.ltb_irrefl, N.eqb_refl. simpl.
    destruct (IH b) as [->|[H|H]]; auto.
  - right; right. apply N.ltb_lt in H. rewrite H. reflexivity.
Qed.

Lemma str_ltb_cons (x y : char) (a b : str) :
  str_ltb (x :: a) (y :: b) = true
  <-> (x < y)%N \/ (x = y /\ str_ltb a b = true).
Proof.
  simpl. rewrite orb_true_iff, andb_true_iff, N.ltb_lt, N.eqb_eq. tauto.
Qed.

Lemma str_ltb_asym (a b : str) :
  str_ltb a b = true -> str_ltb b a = true -> False.
Proof.
  revert b. induction a as [|x a IH]; intros [|y b]; try discriminate.
  rewrite !str_ltb_cons. intros [H|[-> H]] [H'|[E H']]; try lia.
  exact (IH b H H').
Qed.

Lemma str_ltb_trans (a b c : str) :
  str_ltb a b = true -> str_ltb b c = true -> str_ltb a c = true.
Proof.
  revert b c. induction a as [|x a IH]; intros [|y b] [|z c];
    try discriminate; auto.
  rewrite !str_ltb_cons. intros [H|[-> H]] [H'|[-> H']]; auto.
  - left. lia.
  - right. split; [reflexivity|]. exact (IH b c H H').
Qed.

Lemma scored_gt_spec (p q : Q * str) :
  difflib.scored_gt p q = true
  <-> (fst q < fst p)%Q
      \/ ((fst p == fst q)%Q /\ str_ltb (snd q) (snd p) = true).
Proof.
  unfold difflib.scored_gt.
  rewrite orb_true_iff, andb_true_iff, negb_true_iff, Qeq_bool_iff.
  split; intros [H|H]; auto.
  - left. apply Qnot_le_lt. intros X. apply Qle_bool_iff in X. congruence.
  - left. destruct (Qle_bool (fst p) (fst q)) eqn:E; [|reflexivity].
    apply Qle_bool_iff in E. exfalso. exact (Qlt_not_le _ _ H E).
Qed.

Lemma scored_gt_asym (p q : Q * str) :
  difflib.scored_gt p q = true -> difflib.scored_gt q p = true -> False.
Proof.
  rewrite !scored_gt_spec. intros [H|[E H]] [H'|[E' H']].
  - exact (Qlt_irrefl _ (Qlt_trans _ _ _ H H')).
  - rewrite E' in H. exact (Qlt_irrefl _ H).
  - rewrite E in H'. exact (Qlt_irrefl _ H').
  - exact (str_ltb_asym _ _ H H').
Qed.

Lemma scored_gt_trans (p q r : Q * str) :
  difflib.scored_gt p q = true -> difflib.scored_gt q r = true ->
  difflib.scored_gt p r = true.
Proof.
  rewrite !scored_gt_spec. intros [H|[E H]] [H'|[E' H']].
  - left. exact (Qlt_trans _ _ _ H' H).
  - left. rewrite <- E'. exact H.
  - left. rewrite E. exact H'.
  - right. split; [rewrite E; exact E'|]. exact (str_ltb_trans _ _ _ H' H).
Qed.

(** Two candidates scored against one word are the same, or one is above
    the other. *)
Lemma scored_gt_total (word : str) (p q : Q * str) :
  fst p = difflib.ratio (snd p) word -> fst q = difflib.ratio (snd q) word ->
  p = q \/ difflib.scored_gt p q = true \/ difflib.scored_gt q p = true.
Proof.
  destruct p as [a x], q as [b y]. simpl. intros -> ->.
  rewrite !scored_gt_spec. simpl.
  destruct (str_ltb_trichotomy x y) as [->|H]; [auto|].
  destruct (Q_dec (difflib.ratio x word) (difflib.ratio y word))
    as [[L|L]|E]; [auto | auto |].
  destruct H as [H|H].
  - right; right. right. split; [symmetry; exact E | exact H].
  - right; left. right. split; [exact E | exact H].
Qed.

(** ** The maximum of a list does not depend on its order *)

Section Maximum.
Context {A : Type} (gt : A -> A -> bool) (P : A -> Prop).
Hypothesis gt_trans :
  forall a b c, gt a b = true -> gt b c = true -> gt a c = true.
Hypothesis gt_asym : forall a b, gt a b = true -> gt b a = true -> False.
Hypothesis gt_total :
  forall a b, P a -> P b -> a = b \/ gt a b = true \/ gt b a = true.

Lemma max_from_above (b : A) (l : list A) :
  P b -> Forall P l ->
  forall x, x = b \/ In x l ->
            x = max_from gt b l \/ gt (max_from gt b l) x = true.
Proof.
  intros Hb Hl. revert b Hb.
  induction Hl as [|y l Hy Hl IH]; intros b Hb x Hx; simpl.
  - destruct Hx as [->|[]]. auto.
  - destruct (gt y b) eqn:E.
    + destruct Hx as [->|[->|Hx]].
      * destruct (IH y Hy y (or_introl eq_refl)) as [<-|H]; [auto|].
        right. exact (gt_trans _ _ _ H E).
      * apply IH; auto.
      * apply IH; auto.
    + destruct Hx as [->|[->|Hx]].
      * apply IH; auto.
      * destruct (gt_total x b Hy Hb) as [->|[H|H]].
        -- apply IH; auto.
        -- congruence.
        -- destruct (IH b Hb b (or_introl eq_refl)) as [<-|H']; [auto|].
           right. exact (gt_trans _ _ _ H' H).
      * apply IH; auto.
Qed.

Lemma py_max_set (l l' : list A) :
  Forall P l -> Forall P l' ->
  (forall x, In x l <-> In x l') ->
  py_max gt l = py_max gt l'.
Proof.
  intros Hl Hl' Hs.
  destruct l as [|b l], l' as [|b' l']; simpl.
  - reflexivity.
  - destruct (proj2 (Hs b') (or_introl eq_refl)).
  - destruct (proj1 (Hs b) (or_introl eq_refl)).
  - f_equal. inversion Hl; subst. inversion Hl'; subst.
    set (m := max_from gt b l). set (m' := max_from gt b' l').
    assert (Hm : In m (b :: l)).
    { destruct (max_from_In gt b l) as [E|E]; [left; symmetry; exact E|].
      right. exact E. }
    assert (Hm' : In m' (b' :: l')).
    { destruct (max_from_In gt b' l') as [E|E]; [left; symmetry; exact E|].
      right. exact E. }
    apply Hs in Hm. apply Hs in Hm'.
    assert (X : m = m' \/ gt m' m = true).
    { apply (max_from_above b' l'); auto.
      destruct Hm as [E|E]; [left; symmetry; exact E | right; exact E]. }
    assert (Y : m' = m \/ gt m m' = true).
    { apply (max_from_above b l); auto.
      destruct Hm' as [E|E]; [left; symmetry; exact E | right; exact E]. }
    destruct X as [X|X]; [exact X|]. destruct Y as [Y|Y]; [auto|].
    destruct (gt_asym _ _ X Y).
Qed.

End Maximum.

(** The close match of a word depends on the candidates, not on their
    order. *)
Lemma get_close_matches_set (word : str) (poss poss' : list str) (cutoff : Q) :
  (forall x, In x poss <-> In x poss') ->
  difflib.get_close_matches word poss 1 cutoff
  = difflib.get_close_matches word poss' 1 cutoff.
Proof.
  intros Hs. unfold difflib.get_close_matches. simpl.
  destruct (negb (Qle_bool 0 cutoff && Qle_bool cutoff 1)); [reflexivity|].
  do 2 f_equal.
  set (scored := fun x : str =>
         if Qle_bool cutoff (difflib.real_quick_ratio x word)
            && Qle_bool cutoff (difflib.quick_ratio x word)
            && Qle_bool cutoff (difflib.ratio x word)
         then [(difflib.ratio x word, x)] else []).
  assert (HP : forall l, Forall (fun p => fst p = difflib.ratio (snd p) word)
                                (flat_map scored l)).
  { intros l. apply Forall_forall. intros p Hp. apply in_flat_map in Hp.
    destruct Hp as (x & _ & Hp). unfold scored in Hp.
    destruct (_ && _); [|destruct Hp]. destruct Hp as [<-|[]]. reflexivity. }
  rewrite (py_max_set difflib.scored_gt
             (fun p => fst p = difflib.ratio (snd p) word)
             scored_gt_trans scored_gt_asym (scored_gt_total word)
             (flat_map scored poss) (flat_map scored poss')
             (HP poss) (HP poss')); [reflexivity|].
  intros p. rewrite !in_flat_map. split; intros (x & Hx & Hp); exists x;
    (split; [apply Hs; exact Hx | exact Hp]).
Qed.

(** ** Dicts with the same entries *)

Lemma dict_get_permuted {V} (d d' : dict V) (k : str) :
  NoDup (keys d) -> Permutation d' d -> dict_get d' k = dict_get d k.
Proof.
  intros Hn Hp.
  assert (Hn' : NoDup (keys d')).
  { apply (Permutation_NoDup (l := keys d)); [|exact Hn].
    apply Permutation_map, Permutation_sym, Hp. }
  destruct (dict_get d' k) as [v'|] eqn:E'; destruct (dict_get d k) as [v|] eqn:E.
  - apply dict_get_In in E'. apply (Permutation_in _ Hp) in E'.
    rewrite (NoDup_keys_In d k v' Hn E') in E. congruence.
  - apply dict_get_In in E'. apply (Permutation_in _ Hp) in E'.
    rewrite (NoDup_keys_In d k v' Hn E') in E. discriminate.
  - apply dict_get_In in E. apply (Permutation_in _ (Permutation_sym Hp)) in E.
    rewrite (NoDup_keys_In d' k v Hn' E) in E'. discriminate.
  - reflexivity.
Qed.

Lemma mapM_permuted {A B} (f : A -> result B) (l l' : list A) (ys : list B) :
  Permutation l l' -> mapM f l = Ok ys ->
  exists ys', mapM f l' = Ok ys' /\ Permutation ys ys'.
Proof.
  intros Hp. revert ys. induction Hp as [|x l l' Hp IH|x y l|l l' l'' H1 IH1 H2 IH2];
    intros ys H; simpl in *.
  - injection H as <-. eauto.
  - apply bind_Ok in H. destruct H as (x' & Hx & H).
    apply bind_Ok in H. destruct H as (zs & Hz & H). injection H as <-.
    destruct (IH _ Hz) as (ys' & -> & Hq). rewrite Hx. simpl.
    eexists. split; [reflexivity|]. constructor. exact Hq.
  - apply bind_Ok in H. destruct H as (y' & Hy & H).
    apply bind_Ok in H. destruct H as (r & Hr & H). injection H as <-.
    apply bind_Ok in Hr. destruct Hr as (x' & Hx & Hr).
    apply bind_Ok in Hr. destruct Hr as (zs & Hz & Hr). injection Hr as <-.
    rewrite Hx, Hy, Hz. simpl. eexists. split; [reflexivity|].
    apply perm_swap.
  - destruct (IH1 _ H) as (ys' & H' & Hq).
    destruct (IH2 _ H') as (ys'' & H'' & Hq').
    exists ys''. split; [exact H''|]. exact (Permutation_trans Hq Hq').
Qed.

(** ** What the engine reads off its dicts *)

Lemma root_lookup (M M' : dict str) :
  (forall k, dict_get M' k = dict_get M k) ->
  forall fuel s, root fuel M' s = root fuel M s.
Proof.
  intros H. induction fuel as [|fuel IH]; intros s; simpl; [reflexivity|].
  rewrite H. destruct (dict_get M s); [apply IH | reflexivity].
Qed.

Lemma final_entry_lookup (fuel : nat) (M M' D D' : dict str) (s : str) :
  (forall k, dict_get M' k = dict_get M k) ->
  (forall k, dict_get D' k = dict_get D k) ->
  final_entry fuel M' D' s = final_entry fuel M D s.
Proof.
  intros HM HD. unfold final_entry, dict_item.
  rewrite (root_lookup M M' HM). destruct (root fuel M s); simpl; try reflexivity.
  rewrite !HD. reflexivity.
Qed.

Lemma foldM_ext {A S} (f g : S -> A -> result S) (l : list A) (s : S) :
  (forall st x, In x l -> f st x = g st x) -> foldM f l s = foldM g l s.
Proof.
  revert s. induction l as [|x l IH]; intros s H; [reflexivity|].
  simpl. rewrite (H s x (or_introl eq_refl)).
  destruct (g s x); simpl; try reflexivity.
  apply IH. intros st y Hy. apply H. right. exact Hy.
Qed.

Lemma city_mapping_lookup (tmp : list row) (FD FD' : dict str) :
  (forall k, dict_get FD' k = dict_get FD k) ->
  city_mapping tmp FD' = city_mapping tmp FD.
Proof.
  intros H. rewrite !city_mapping_unfold. apply foldM_ext.
  intros m r _. unfold mapping_step, dict_item. rewrite H. reflexivity.
Qed.

Lemma filterM_Ok_In {A} (f : A -> result bool) (l ys : list A) :
  filterM f l = Ok ys ->
  forall x, In x l -> f x = Ok true -> In x ys.
Proof.
  revert ys. induction l as [|y l IH]; intros ys H x Hx Hf; [destruct Hx|].
  simpl in H. inv_bind H. inv_bind H. injection H as <-.
  destruct Hx as [->|Hx].
  - rewrite Hf in Ha. injection Ha as <-. left. reflexivity.
  - destruct a; [right|]; exact (IH _ Ha0 x Hx Hf).
Qed.

Lemma filterM_ext {A} (f g : A -> result bool) (l : list A) :
  (forall x, In x l -> f x = g x) -> filterM f l = filterM g l.
Proof.
  induction l as [|x l IH]; intros H; [reflexivity|]. simpl.
  rewrite (H x (or_introl eq_refl)), IH; [reflexivity|].
  intros y Hy. apply H. right. exact Hy.
Qed.

(** The merge edge of a cluster depends on the sizes and on the set of
    clusters, not on the order the clusters are listed in. *)
Lemma edge_of_lookup (sizes sizes' : dict nat) (o o' : list str) (cutoff : Q)
    (s : str) :
  (forall k, dict_get sizes' k = dict_get sizes k) ->
  (forall k, In k o' <-> In k o) ->
  (forall k, In k o -> In k (keys sizes)) ->
  In s o ->
  edge_of sizes' o' cutoff s = edge_of sizes o cutoff s.
Proof.
  intros Hsz Ho Hk Hs. unfold edge_of.
  assert (Ht : forall x, anchor_test sizes' s x = anchor_test sizes s x).
  { intros x. unfold anchor_test, dict_item. rewrite !Hsz. reflexivity. }
  rewrite (filterM_ext (anchor_test sizes' s) (anchor_test sizes s) o')
    by (intros x _; apply Ht).
  assert (Hok : forall l, (forall x, In x l -> In x o) ->
                          exists ys, filterM (anchor_test sizes s) l = Ok ys).
  { intros l Hl. apply filterM_Ok_intro. intros x Hx.
    unfold anchor_test, dict_item.
    pose proof (proj1 (dict_get_keys sizes x) (Hk x (Hl x Hx))) as X.
    pose proof (proj1 (dict_get_keys sizes s) (Hk s Hs)) as Y.
    destruct (dict_get sizes x); [|congruence].
    destruct (dict_get sizes s); [|congruence].
    simpl. eexists; reflexivity. }
  destruct (Hok o' (fun x Hx => proj1 (Ho x) Hx)) as [a' Ha'].
  destruct (Hok o (fun x Hx => Hx)) as [a Ha].
  rewrite Ha', Ha.
  rewrite (get_close_matches_set s a' a cutoff); [reflexivity|].
  intros x. split; intros Hx.
  - destruct (filterM_Ok_inv _ _ _ Ha' x Hx) as [Hin Hf].
    exact (filterM_Ok_In _ _ _ Ha x (proj1 (Ho x) Hin) Hf).
  - destruct (filterM_Ok_inv _ _ _ Ha x Hx) as [Hin Hf].
    exact (filterM_Ok_In _ _ _ Ha' x (proj2 (Ho x) Hin) Hf).
Qed.

(** The edges the merge loop has recorded. *)
Lemma merge_loop_lookup (sizes : dict nat) (ordered : list str) (cutoff : Q)
    (l : list str) (M0 M : dict str) :
  foldM (fun merged small =>
           anchors <- filterM (anchor_test sizes small) ordered ;;
           m <- difflib.get_close_matches small anchors 1 cutoff ;;
           Ok (match m with
               | m0 :: _ => dict_set merged small m0
               | [] => merged
               end)) l M0 = Ok M ->
  forall s,
    dict_get M s
    = if existsb (str_eqb s) l
      then match edge_of sizes ordered cutoff s with
           | Some t => Some t
           | None => dict_get M0 s
           end
      else dict_get M0 s.
Proof.
  revert M0. induction l as [|small l IH]; intros M0 H s; simpl in *.
  - injection H as <-. reflexivity.
  - inv_bind H. inv_bind Ha. inv_bind Ha. injection Ha as <-.
    rewrite (IH _ H s).
    assert (E : edge_of sizes ordered cutoff small
                = match a1 with m0 :: _ => Some m0 | [] => None end).
    { unfold edge_of. rewrite Ha0, Ha1. destruct a1; reflexivity. }
    destruct (str_eqb_spec s small) as [->|Hne]; simpl.
    + rewrite E. destruct a1 as [|m0 a1].
      * destruct (existsb (str_eqb small) l); reflexivity.
      * rewrite dict_get_set, str_eqb_refl.
        destruct (existsb (str_eqb small) l); reflexivity.
    + assert (X : dict_get (match a1 with
                            | [] => M0
                            | m0 :: _ => dict_set M0 small m0
                            end) s = dict_get M0 s).
      { destruct a1 as [|m0 a1]; [reflexivity|]. rewrite dict_get_set.
        destruct (str_eqb_spec small s) as [->|_]; [congruence|reflexivity]. }
      rewrite X. reflexivity.
Qed.

Lemma existsb_str_In (s : str) (l : list str) :
  existsb (str_eqb s) l = true <-> In s l.
Proof.
  rewrite existsb_exists. split.
  - intros (x & Hx & E). apply str_eqb_eq in E. subst. exact Hx.
  - intros H. exists s. split; [exact H | apply str_eqb_refl].
Qed.

Lemma city_merged_lookup (sizes sizes' : dict nat) (o o' : list str)
    (cutoff : Q) (M M' : dict str) :
  (forall k, dict_get sizes' k = dict_get sizes k) ->
  (forall k, In k o' <-> In k o) ->
  (forall k, In k o -> In k (keys sizes)) ->
  city_merged sizes o cutoff = Ok M ->
  city_merged sizes' o' cutoff = Ok M' ->
  forall k, dict_get M' k = dict_get M k.
Proof.
  intros Hsz Ho Hk HM HM' k.
  rewrite city_merged_unfold in HM, HM'.
  rewrite (merge_loop_lookup _ _ _ _ _ _ HM k).
  rewrite (merge_loop_lookup _ _ _ _ _ _ HM' k).
  destruct (existsb (str_eqb k) (rev o)) eqn:E.
  - apply existsb_str_In in E. apply in_rev in E.
    assert (E' : existsb (str_eqb k) (rev o') = true).
    { apply existsb_str_In. apply in_rev. rewrite rev_involutive.
      apply Ho, E. }
    rewrite E', (edge_of_lookup sizes sizes' o o' cutoff k Hsz Ho Hk E).
    reflexivity.
  - destruct (existsb (str_eqb k) (rev o')) eqn:E'; [|reflexivity].
    apply existsb_str_In in E'. apply in_rev in E'. apply Ho in E'.
    assert (X : existsb (str_eqb k) (rev o) = true).
    { apply existsb_str_In. apply in_rev. rewrite rev_involutive. exact E'. }
    congruence.
Qed.

Lemma final_disp_lookup (fuel : nat) (M M' D D' FD FD' : dict str) :
  (forall k, dict_get M' k = dict_get M k) ->
  (forall k, dict_get D' k = dict_get D k) ->
  city_final_disp fuel M D = Ok FD ->
  city_final_disp fuel M' D' = Ok FD' ->
  forall k, dict_get FD' k = dict_get FD k.
Proof.
  intros HM HD HF HF' k.
  assert (Hkeys : In k (keys D') <-> In k (keys D)).
  { rewrite !dict_get_keys, HD. reflexivity. }
  destruct (dict_get D k) as [d|] eqn:E.
  - assert (Hin : In k (keys D)) by (apply dict_get_keys; congruence).
    destruct (city_final_disp_get _ _ _ _ _ HF Hin) as (r & d0 & Hr & Hd0 & ->).
    destruct (city_final_disp_get _ _ _ _ _ HF' (proj2 Hkeys Hin))
      as (r' & d0' & Hr' & Hd0' & ->).
    rewrite (root_lookup M M' HM) in Hr'. rewrite HD in Hd0'.
    assert (r' = r) by congruence. assert (d0' = d0) by congruence.
    subst r' d0'. rewrite HD. reflexivity.
  - assert (Hn : ~ In k (keys D)) by (apply dict_get_None_keys; exact E).
    rewrite (proj2 (dict_get_None_keys FD k)),
            (proj2 (dict_get_None_keys FD' k)); [reflexivity| |].
    + rewrite (city_final_disp_keys _ _ _ _ HF'). tauto.
    + rewrite (city_final_disp_keys _ _ _ _ HF). exact Hn.
Qed.

(** With the clusters in another order, the engine returns what
    [build_city_canon] returns. *)
Lemma canon_from_groups_permuted (U : unicode) (fuel : nat)
    (col : list cell) (cutoff : Q) (groups' : dict (list str)) :
  cutoff_valid cutoff ->
  Permutation groups' (city_groups (city_rows U col)) ->
  canon_from_groups U fuel (city_rows U col) groups' cutoff
  = build_city_canon U fuel col cutoff.
Proof.
  intros Hc Hp.
  change (build_city_canon U fuel col cutoff)
    with (canon_from_groups U fuel (city_rows U col)
            (city_groups (city_rows U col)) cutoff).
  set (rows := city_rows U col) in *. set (g := city_groups rows) in *.
  set (F := fun g0 : str * list str =>
              d <- _choose_display_form U (snd g0) ;; Ok (fst g0, d)).
  destruct (mapM_Ok_intro F g) as [D HD].
  { intros [s l] Hin. apply city_groups_In in Hin. destruct Hin as [_ Hne].
    destruct (choose_display_form_ok U l Hne) as [d Hd].
    unfold F. simpl. rewrite Hd. eexists; reflexivity. }
  destruct (mapM_permuted F g groups' D (Permutation_sym Hp) HD)
    as (D' & HD' & HDp).
  destruct (sig_to_disp_spec U g D HD) as [HkD _].
  assert (Hng : NoDup (keys g)) by apply city_groups_NoDup.
  assert (HlD : forall k, dict_get D' k = dict_get D k).
  { intros k. apply dict_get_permuted; [rewrite HkD; exact Hng|].
    apply Permutation_sym, HDp. }
  set (h := fun g0 : str * list str => (fst g0, length (snd g0))).
  assert (Hlz : forall k, dict_get (map h groups') k = dict_get (map h g) k).
  { intros k. apply dict_get_permuted.
    - change (map h g) with (city_sizes g). rewrite city_sizes_keys. exact Hng.
    - apply Permutation_map, Hp. }
  destruct (city_ordered_ok (map h g)) as (o & Ho & Hoin).
  destruct (city_ordered_ok (map h groups')) as (o' & Ho' & Hoin').
  assert (Hoo : forall k, In k o' <-> In k o).
  { intros k. rewrite Hoin, Hoin', !dict_get_keys, Hlz. reflexivity. }
  destruct (city_merged_ok (map h g) o cutoff Hc) as [M HM].
  { intros k Hk. apply Hoin, Hk. }
  destruct (city_merged_ok (map h groups') o' cutoff Hc) as [M' HM'].
  { intros k Hk. apply Hoin', Hk. }
  assert (HlM : forall k, dict_get M' k = dict_get M k).
  { apply (city_merged_lookup (map h g) (map h groups') o o' cutoff);
      auto. intros k Hk. apply Hoin, Hk. }
  unfold canon_from_groups. fold F. fold h.
  rewrite HD, HD'. cbn [bind]. rewrite Ho, Ho'. cbn [bind].
  rewrite HM, HM'. cbn [bind].
  destruct (city_final_disp_cases fuel M D) as [[FD HF]|[HF (s & Hs & Hr)]];
    destruct (city_final_disp_cases fuel M' D')
      as [[FD' HF']|[HF' (s' & Hs' & Hr')]];
    rewrite HF, HF'; cbn [bind].
  - apply city_mapping_lookup.
    exact (final_disp_lookup fuel M M' D D' FD FD' HlM HlD HF HF').
  - exfalso. assert (Hin : In s' (keys D)).
    { apply dict_get_keys. rewrite <- HlD. apply dict_get_keys. exact Hs'. }
    destruct (city_final_disp_get _ _ _ _ _ HF Hin) as (r & _ & Hroot & _).
    rewrite (root_lookup M M' HlM) in Hr'. congruence.
  - exfalso. assert (Hin : In s (keys D')).
    { apply dict_get_keys. rewrite HlD. apply dict_get_keys. exact Hs. }
    destruct (city_final_disp_get _ _ _ _ _ HF' Hin) as (r & _ & Hroot & _).
    rewrite (root_lookup M M' HlM) in Hroot. congruence.
  - reflexivity.
Qed.

(** C4. The mapping and the cleaned column do not depend on the order in
    which the clusters are iterated: with the dict of clusters in any other
    order, the engine that follows [groups] returns what [build_city_canon]
    and [clean_city] return (the same value, or equally none).  The order of
    the clusters by size feeds only the choice of a close match, which is
    the maximum of a total order on (similarity, signature); the display
    form is the first most frequent value in input order; the mapping is
    filled in the order of the rows. *)
Theorem canonicalization_order_independent (U : unicode) (fuel : nat)
    (col : list cell) (cutoff : Q) (groups' : dict (list str)) :
  cutoff_valid cutoff ->
  Permutation groups' (city_groups (city_rows U col)) ->
  canon_from_groups U fuel (city_rows U col) groups' cutoff
  = build_city_canon U fuel col cutoff
  /\ clean_city_from_groups U fuel col groups' = clean_city U fuel col
  /\ build_city_canon U fuel col cutoff
     = canon_from_groups U fuel (city_rows U col)
         (city_groups (city_rows U col)) cutoff
  /\ clean_city U fuel col
     = clean_city_from_groups U fuel col (city_groups (city_rows U col)).
Proof.
  intros Hc Hp. split; [apply canon_from_groups_permuted; assumption|].
  split; [|split; reflexivity].
  unfold clean_city_from_groups, clean_city.
  rewrite (canon_from_groups_permuted U fuel col default_cutoff groups'
             eq_refl Hp).
  reflexivity.
Qed.

Lemma canonicalization_order_independent_witness :
  canon_from_groups latin1 3 (city_rows latin1 stockholm_column)
    (rev (city_groups (city_rows latin1 stockholm_column))) default_cutoff
  = build_city_canon latin1 3 stockholm_column default_cutoff
  /\ clean_city_from_groups latin1 3 stockholm_column
       (rev (city_groups (city_rows latin1 stockholm_column)))
     = clean_city latin1 3 stockholm_column
  /\ build_city_canon latin1 3 stockholm_column default_cutoff
     = canon_from_groups latin1 3 (city_rows latin1 stockholm_column)
         (city_groups (city_rows latin1 stockholm_column)) default_cutoff
  /\ clean_city latin1 3 stockholm_column
     = clean_city_from_groups latin1 3 stockholm_column
         (city_groups (city_rows latin1 stockholm_column)).
Proof.
  apply (canonicalization_order_independent latin1 3 stockholm_column
           default_cutoff).
  - reflexivity.
  - apply Permutation_sym, Permutation_rev.
Defined.

(** ** Letterless values *)

(** Whether [build_city_canon] returns is decided by the merge edges. *)
Lemma cycle_decides_return (U : unicode) (col : list cell) (cutoff : Q)
    (M : dict str) :
  city_merge_edges U col cutoff = Ok M ->
  (merge_cycle M ->
   forall fuel, build_city_canon U fuel col cutoff = OutOfFuel)
  /\ (~ merge_cycle M ->
      exists m,
        build_city_canon U (S (length (city_groups (city_rows U col)))) col
          cutoff = Ok m).
Proof.
  intros HM. unfold city_merge_edges in HM. inv_bind HM. injection HM as <-.
  rename a into p. rename Ha into Hp.
  destruct (city_plan_inv _ _ _ _ Hp) as (_ & Hk & _ & o & _ & Hm).
  assert (Hedge : forall a b, dict_get (snd p) a = Some b ->
            In a (keys (city_groups (city_rows U col)))
            /\ In b (keys (city_groups (city_rows U col)))).
  { intros a b E.
    destruct (merge_edge_grows _ _ _ _ _ _ Hm E) as (na & nb & Ha & Hb & _).
    rewrite <- city_sizes_keys. split; apply dict_get_keys; congruence. }
  split.
  - intros (s & n & Hn & Hw) fuel.
    assert (Hs : In s (keys (city_groups (city_rows U col)))).
    { destruct n as [|n]; [lia|]. simpl in Hw.
      destruct (dict_get (snd p) s) as [t|] eqn:E; [|discriminate].
      apply (Hedge s t E). }
    destruct (build_city_canon_from_plan U fuel col cutoff p Hp)
      as [[m Hb]|[Hb _]]; [|exact Hb].
    destruct (build_city_canon_spec _ _ _ _ _ Hb) as (D & M' & FD & Hp' & HFD & _).
    rewrite Hp in Hp'. injection Hp' as ->. simpl in *.
    rewrite <- Hk in Hs.
    destruct (city_final_disp_get _ _ _ _ _ HFD Hs) as (r & _ & Hr & _).
    rewrite (cycle_never_ends M' n s Hn Hw fuel) in Hr. discriminate.
  - intros Hno.
    destruct (build_city_canon_from_plan U
                (S (length (city_groups (city_rows U col)))) col cutoff p Hp)
      as [Hb|[_ (s & Hs & Hr)]]; [exact Hb|].
    exfalso. apply Hno. apply root_out_of_fuel in Hr.
    destruct (walk _ (snd p) s) as [t|] eqn:W; [|congruence].
    apply (long_walk_cycles (keys (city_groups (city_rows U col))) (snd p)
             (S (length (city_groups (city_rows U col)))) s t).
    + intros a b E. apply (Hedge a b E).
    + exact Hs.
    + unfold keys. rewrite length_map. lia.
    + exact W.
Qed.

(** No walk from a key of [M] is longer than [M]: there is no cycle. *)
Lemma no_cycle_check (M : dict str) :
  forallb (fun s => match walk (S (length M)) M s with
                    | None => true
                    | Some _ => false
                    end) (keys M) = true ->
  ~ merge_cycle M.
Proof.
  intros H (s & n & Hn & Hw).
  assert (Hs : In s (keys M)).
  { destruct n as [|n]; [lia|]. simpl in Hw. apply dict_get_keys.
    destruct (dict_get M s); [discriminate | discriminate]. }
  rewrite forallb_forall in H. specialize (H s Hs).
  pose proof (cycle_never_ends M n s Hn Hw (S (length M))) as X.
  apply root_out_of_fuel in X.
  destruct (walk (S (length M)) M s); [discriminate | congruence].
Qed.

(** C10. On the column "123", "987", "Gothenburg", "Gothenburgh" the two
    numbers hold no letter, both get the empty signature and form the one
    cluster of that signature; but the two spellings of Gothenburg are
    merged into each other, so [build_city_canon] and [clean_city] return
    for no number of turns of the loop of [root], and the numbers are given
    no canonical name. *)
Theorem letterless_values_lost_to_merge_cycle :
  sig (city_row latin1 (Text (py "123"))) = []
  /\ sig (city_row latin1 (Text (py "987"))) = []
  /\ nonempty (basic (city_row latin1 (Text (py "123")))) = true
  /\ nonempty (basic (city_row latin1 (Text (py "987")))) = true
  /\ dict_get (city_groups (city_rows latin1 numbers_and_gothenburg)) []
     = Some [py "123"; py "987"]
  /\ city_merge_edges latin1 numbers_and_gothenburg default_cutoff
     = Ok [ (py "gothenburgh", py "gothenburg");
            (py "gothenburg", py "gothenburgh") ]
  /\ forall fuel,
       build_city_canon latin1 fuel numbers_and_gothenburg default_cutoff
       = OutOfFuel
       /\ clean_city latin1 fuel numbers_and_gothenburg = OutOfFuel.
Proof.
  repeat (split; [vm_compute; reflexivity|]).
  intros fuel.
  assert (HM : city_merge_edges latin1 numbers_and_gothenburg default_cutoff
               = Ok [ (py "gothenburgh", py "gothenburg");
                      (py "gothenburg", py "gothenburgh") ])
    by (vm_compute; reflexivity).
  assert (H : build_city_canon latin1 fuel numbers_and_gothenburg
                default_cutoff = OutOfFuel).
  { apply (proj1 (cycle_decides_return _ _ _ _ HM)).
    exists (py "gothenburg"), 2. split; [lia | reflexivity]. }
  split; [exact H|]. unfold clean_city. rewrite H. reflexivity.
Qed.

(** X25. On a column whose merge edges form no cycle, two values whose
    basic forms are non-empty and hold no ASCII letter get the empty
    signature, lie in the one cluster of that signature, and the mapping
    [build_city_canon] returns (within one turn of the loop of [root] more
    than there are clusters) sends both to the display form of that
    cluster. *)
Theorem letterless_values_share_canonical_name (U : unicode)
    (col : list cell) (M : dict str) (ca cb : cell) :
  In ca col -> In cb col ->
  nonempty (basic (city_row U ca)) = true ->
  nonempty (basic (city_row U cb)) = true ->
  existsb is_alpha (basic (city_row U ca)) = false ->
  existsb is_alpha (basic (city_row U cb)) = false ->
  city_merge_edges U col default_cutoff = Ok M ->
  ~ merge_cycle M ->
  sig (city_row U ca) = [] /\ sig (city_row U cb) = []
  /\ exists vals m d,
       dict_get (city_groups (city_rows U col)) [] = Some vals
       /\ In (raw (city_row U ca)) vals /\ In (raw (city_row U cb)) vals
       /\ build_city_canon U (S (length (city_groups (city_rows U col)))) col
            default_cutoff = Ok m
       /\ _choose_display_form U vals = Ok d
       /\ dict_get m (raw (city_row U ca)) = Some d
       /\ dict_get m (raw (city_row U cb)) = Some d.
Proof.
  intros Ha Hb Hna Hnb Hla Hlb HM Hno.
  destruct (letterless_values_cases U
              (S (length (city_groups (city_rows U col)))) col ca cb
              Ha Hb Hna Hnb Hla Hlb)
    as (Sa & Sb & vals & Hv & Ia & Ib & [(m & d & Hm & Hd & Ea & Eb)|Hu]).
  - split; [exact Sa|]. split; [exact Sb|]. exists vals, m, d. auto 10.
  - exfalso. destruct Hu as [Hu _].
    destruct (proj2 (cycle_decides_return _ _ _ _ HM) Hno) as [m Hm].
    congruence.
Qed.

Lemma letterless_values_share_canonical_name_witness :
  sig (city_row latin1 (Text (py "123"))) = []
  /\ sig (city_row latin1 (Text (py "987"))) = []
  /\ exists vals m d,
       dict_get (city_groups (city_rows latin1 stockholm_column)) []
       = Some vals
       /\ In (raw (city_row latin1 (Text (py "123")))) vals
       /\ In (raw (city_row latin1 (Text (py "987")))) vals
       /\ build_city_canon latin1
            (S (length (city_groups (city_rows latin1 stockholm_column))))
            stockholm_column default_cutoff = Ok m
       /\ _choose_display_form latin1 vals = Ok d
       /\ dict_get m (raw (city_row latin1 (Text (py "123")))) = Some d
       /\ dict_get m (raw (city_row latin1 (Text (py "987")))) = Some d.
Proof.
  apply (letterless_values_share_canonical_name latin1 stockholm_column
           [(py "stockholmm", py "stockholm")]);
    try (vm_compute; reflexivity).
  - simpl; auto 10.
  - simpl; auto 10.
  - apply no_cycle_check. vm_compute. reflexivity.
Defined.
